(** * London transport dashboard: vehicle position estimation and animation

    A shallow embedding of the client-side position logic of the dashboard:
    - [AnimatedVehicleMap.jsx]: the vehicle processing step (validity test,
      hash jitter, fallback positions, position cache, heading), the
      processing effect around it, the periodic update of the selected
      vehicle, the initial bounds, the zoom buttons, the modal body and the
      grouping by area;
    - [VehicleMapModal]: the marker animation effect and the route path;
    - [LiveVehicles]: the REST fetch loop and what it renders;
    - [Dashboard]: the positions it assigns and the state behind its modals.

    Number model.  JavaScript numbers are modelled as real numbers [R]:
    arithmetic is exact and the rounding of binary64 is not modelled.
    A field that may be [null] or [undefined] is an [option]; [NaN], which
    only [parseInt] can produce here, has a constructor of its own. *)

From Stdlib Require Import Reals Lra Lia ZArith Ascii String.
From stdpp Require Import gmap strings list pretty sorting.

Local Open Scope Z_scope.

(** ** The vehicleId hash *)

Module Hash.

(** [ToInt32] of an integer-valued number: wrap into [-2^31, 2^31). *)
Definition toInt32 (z : Z) : Z := (z + 2 ^ 31) `mod` 2 ^ 32 - 2 ^ 31.

(** [h << 5]: both the operand and the result are 32-bit signed. *)
Definition shl5 (h : Z) : Z := toInt32 (Z.shiftl (toInt32 h) 5).

(** One round of the loop body
    [hash = vehicleId.charCodeAt(i) + ((hash << 5) - hash)].
    Only the shift wraps; the subtraction and the addition are ordinary
    number arithmetic (exact on integers of this size). *)
Definition round (hash c : Z) : Z := c + (shl5 hash - hash).

(** [charCodeAt] over the characters of an identifier. *)
Definition charCodes (s : string) : list Z :=
  (fun a => Z.of_nat (Ascii.nat_of_ascii a)) <$> String.list_ascii_of_string s.

(** The loop, before [Math.abs]. *)
Definition rawHash (s : string) : Z := fold_left round (charCodes s) 0.

(** [hash = Math.abs(hash)] after the loop. *)
Definition hashOf (s : string) : Z := Z.abs (rawHash s).

(** [a % b] of JavaScript truncates toward zero, like [Z.rem]. *)
Definition jsrem (a b : Z) : Z := Z.rem a b.

End Hash.

(** ** Spread multiplier *)

(** The [if]/[else if] chain on [sameCoordCount]. *)
Definition spreadMultiplier (sameCoordCount : Z) : Z :=
  if 50 <? sameCoordCount then 10
  else if 20 <? sameCoordCount then 7
  else if 10 <? sameCoordCount then 5
  else if 5 <? sameCoordCount then 3
  else 1.

(** ** JavaScript values used by the components *)

Module JS.

(** Comparisons on numbers are decided classically, so that the guards of
    the code can be written as [if decide ...]. *)
#[global] Instance R_eq_dec : EqDecision R := Req_dec_T.
#[global] Instance Rlt_decision (x y : R) : Decision (x < y)%R := Rlt_dec x y.
#[global] Instance Rle_decision (x y : R) : Decision (x <= y)%R := Rle_dec x y.

(** A number that may be [NaN]. *)
Inductive jsnum : Type :=
  | NaN
  | Num (x : R).

(** Truthiness of a nullable number: [null], [undefined] and [0] are falsy. *)
Definition truthyNum (o : option R) : bool :=
  match o with
  | Some x => bool_decide (x ≠ 0%R)
  | None => false
  end.

(** Truthiness of a nullable string: [null], [undefined] and [""] are falsy. *)
Definition truthyStr (o : option string) : bool :=
  match o with
  | Some s => bool_decide (s ≠ "")
  | None => false
  end.

(** [o || d] with a number default. *)
Definition orNum (o : option R) (d : R) : R :=
  match o with
  | Some x => if decide (x = 0%R) then d else x
  | None => d
  end.

(** [o || d] with a string default. *)
Definition orStr (o : option string) (d : string) : string :=
  match o with
  | Some s => if decide (s = "") then d else s
  | None => d
  end.

(** [ToNumber] of a nullable number in arithmetic: [null] counts as [0]. *)
Definition toNumber (o : option R) : R := default 0%R o.

(** [Math.floor]: [NaN] stays [NaN]. *)
Definition floor (n : jsnum) : jsnum :=
  match n with
  | NaN => NaN
  | Num x => Num (IZR (Int_part x))
  end.

(** An integer-valued number. *)
Definition isInteger (n : jsnum) : Prop :=
  match n with
  | NaN => False
  | Num x => ∃ z : Z, x = IZR z
  end.

(** Truthiness of a number: [NaN] and [0] are falsy. *)
Definition truthyJs (n : jsnum) : bool :=
  match n with
  | NaN => false
  | Num x => bool_decide (x ≠ 0%R)
  end.

(** [a || b || ... || last]: the first truthy operand, else the last. *)
Fixpoint firstTruthy (candidates : list jsnum) (last : jsnum) : jsnum :=
  match candidates with
  | [] => last
  | n :: rest => if truthyJs n then n else firstTruthy rest last
  end.

(** *** [parseInt] on a string (no radix argument) *)

Definition isWhite (a : ascii) : bool :=
  let n := Ascii.nat_of_ascii a in
  bool_decide (n = 32 ∨ n = 9 ∨ n = 10 ∨ n = 11 ∨ n = 12 ∨ n = 13)%nat.

Fixpoint skipWhite (l : list ascii) : list ascii :=
  match l with
  | a :: l' => if isWhite a then skipWhite l' else l
  | [] => []
  end.

(** Value of a digit character in the given radix, if it is one. *)
Definition digitVal (radix : Z) (a : ascii) : option Z :=
  let n := Z.of_nat (Ascii.nat_of_ascii a) in
  let d :=
    if (48 <=? n) && (n <=? 57) then Some (n - 48)
    else if (97 <=? n) && (n <=? 122) then Some (n - 87)
    else if (65 <=? n) && (n <=? 90) then Some (n - 55)
    else None in
  match d with
  | Some k => if k <? radix then Some k else None
  | None => None
  end.

(** The longest prefix of digits, accumulated left to right; [None] when
    there is no digit at all. *)
Fixpoint digits (radix : Z) (acc : option Z) (l : list ascii) : option Z :=
  match l with
  | a :: l' =>
      match digitVal radix a with
      | Some k => digits radix (Some (default 0 acc * radix + k)) l'
      | None => acc
      end
  | [] => acc
  end.

(** Strip a ["0x"] or ["0X"] prefix; the radix is then 16, else 10. *)
Definition radixOf (l : list ascii) : Z * list ascii :=
  match l with
  | "0"%char :: "x"%char :: l' => (16, l')
  | "0"%char :: "X"%char :: l' => (16, l')
  | _ => (10, l)
  end.

Definition parseInt (s : string) : jsnum :=
  let l := skipWhite (String.list_ascii_of_string s) in
  let '(sign, l) :=
    match l with
    | "-"%char :: l' => (-1, l')
    | "+"%char :: l' => (1, l')
    | _ => (1, l)
    end in
  let '(radix, l) := radixOf l in
  match digits radix None l with
  | Some n => Num (IZR (sign * n))
  | None => NaN
  end.

End JS.

(** ** Vehicles, processed vehicles and the position cache *)

(** A vehicle as delivered by the backend (the fields the components read).
    [None] is [null] or [undefined]. *)
Record vehicle : Type := Vehicle {
  id : option string;
  vehicleId : option string;
  lineName : option string;
  direction : option string;
  bearing : option string;
  lat : option R;
  lon : option R;
  heading : option R;
  timeToStation : option R;
  currentLocation : option string;
  lastUpdated : option string;
  hasRealPosition : option bool;
  positionSource : option string
}.

(** An entry of [vehiclePositionCache]: [{ lat, lon, baseLat, baseLon }]. *)
Record cachedPos : Type := CachedPos {
  c_lat : R;
  c_lon : R;
  c_baseLat : R;
  c_baseLon : R
}.

(** [vehiclePositionCache.current], a [Map] from vehicleId to entry. *)
Abbreviation vehiclePositionCache := (gmap string cachedPos).

(** A processed vehicle: [{ ...vehicle, id, currentLat, currentLon, lat, lon,
    heading, hasRealPosition, vehicleIndex, positionSource }].  [p_rest] is the
    object that was spread; the fields below shadow those of its fields that
    the processing step or the selected-vehicle update overrides (nullable
    where that update can store a nullable value). *)
Record displayVehicle : Type := DisplayVehicle {
  p_rest : vehicle;
  p_id : string;
  p_vehicleId : option string;
  currentLat : R;
  currentLon : R;
  p_lat : R;
  p_lon : R;
  p_heading : option JS.jsnum;
  p_timeToStation : option R;
  p_currentLocation : option string;
  p_lastUpdated : option string;
  p_hasRealPosition : option bool;
  vehicleIndex : nat;
  p_positionSource : option string
}.

Module Processing.

Import JS.
Local Open Scope R_scope.

(** [`vehicle-${index}`]. *)
Definition fallbackId (index : nat) : string := "vehicle-" +:+ pretty index.

(** [const vehicleId = vehicle.vehicleId || `vehicle-${index}`]. *)
Definition vehicleIdOf (v : vehicle) (index : nat) : string :=
  orStr (vehicleId v) (fallbackId index).

(** [selectedVehicle && selectedVehicle.vehicleId === vehicleId]. *)
Definition isSelected (selectedVehicle : option vehicle) (vid : string) : bool :=
  match selectedVehicle with
  | Some sv => bool_decide (vehicleId sv = Some vid)
  | None => false
  end.

(** [hasValidCoords]: both coordinates present, non-zero and more than 0.1
    away from zero. *)
Definition hasValidCoords (v : vehicle) : bool :=
  match lat v, lon v with
  | Some la, Some lo =>
      bool_decide (la ≠ 0) && bool_decide (lo ≠ 0)
      && bool_decide (0.1 < Rabs la) && bool_decide (0.1 < Rabs lo)
  | _, _ => false
  end.

(** The reported coordinates are missing ([null], [undefined]), zero, or
    within 0.1 of zero in absolute value. *)
Definition coordsMissingOrNearZero (v : vehicle) : Prop :=
  lat v = None ∨ lon v = None
  ∨ (∃ x, lat v = Some x ∧ Rabs x <= 0.1)
  ∨ (∃ y, lon v = Some y ∧ Rabs y <= 0.1).

(** The predicate of the [filter] that counts vehicles sharing the base
    coordinates: [Math.abs(v.lat - baseLat) < 0.0001 && ...]. *)
Definition sharesCoords (baseLat baseLon : R) (w : vehicle) : bool :=
  bool_decide (Rabs (toNumber (lat w) - baseLat) < 0.0001)
  && bool_decide (Rabs (toNumber (lon w) - baseLon) < 0.0001).

Definition sameCoordCount (vehicles : list vehicle) (baseLat baseLon : R) : Z :=
  Z.of_nat (length (List.filter (sharesCoords baseLat baseLon) vehicles)).

(** [angle = (hash % 360) * (Math.PI / 180) + (index * 0.05)]. *)
Definition angle (hash : Z) (index : nat) : R :=
  IZR (Hash.jsrem hash 360) * (PI / 180) + INR index * 0.05.

(** [radius = baseRadius * spreadMultiplier + ((hash % 100) / 100) * 0.003]. *)
Definition radius (hash mult : Z) : R :=
  0.005 * IZR mult + (IZR (Hash.jsrem hash 100) / 100) * 0.003.

(** The jittered position around the reported coordinates. *)
Definition jitter (hash : Z) (index : nat) (mult : Z) (baseLat baseLon : R) : R * R :=
  (baseLat + sin (angle hash index) * radius hash mult,
   baseLon + cos (angle hash index) * radius hash mult).

(** The generated position around central London. *)
Definition centralLat : R := 51.5074.
Definition centralLon : R := -0.1278.
Definition latSpread : R := 0.15.
Definition lonSpread : R := 0.2.

Definition generated (hash : Z) (index : nat) : R * R :=
  (centralLat + (IZR (Hash.jsrem hash 1000) / 1000 - 0.5) * latSpread
     + sin (INR index * 0.618) * 0.02,
   centralLon + (IZR (Hash.jsrem (hash * 7) 1000) / 1000 - 0.5) * lonSpread
     + cos (INR index * 0.618) * 0.02).

(** The cached position may be reused when its base is close to the
    reported base. *)
Definition cacheUsable (c : cachedPos) (baseLat baseLon : R) : bool :=
  bool_decide (Rabs (c_baseLat c - baseLat) < 0.001)
  && bool_decide (Rabs (c_baseLon c - baseLon) < 0.001).

(** The coordinate part of the [map] callback: the position assigned to the
    vehicle at [index], and the cache after it. *)
Definition position (selectedVehicle : option vehicle) (vehicles : list vehicle)
    (index : nat) (v : vehicle) (cache : vehiclePositionCache)
    : (R * R) * vehiclePositionCache :=
  let vid := vehicleIdOf v index in
  let cached := cache !! vid in
  match hasValidCoords v, lat v, lon v with
  | true, Some baseLat, Some baseLon =>
      match isSelected selectedVehicle vid, cached with
      | true, Some c => ((c_lat c, c_lon c), cache)
      | true, None =>
          ((baseLat, baseLon),
           <[vid := CachedPos baseLat baseLon baseLat baseLon]> cache)
      | false, _ =>
          let hash := Hash.hashOf vid in
          let mult := spreadMultiplier (sameCoordCount vehicles baseLat baseLon) in
          match cached with
          | Some c =>
              if cacheUsable c baseLat baseLon then ((c_lat c, c_lon c), cache)
              else
                let p := jitter hash index mult baseLat baseLon in
                (p, <[vid := CachedPos p.1 p.2 baseLat baseLon]> cache)
          | None =>
              let p := jitter hash index mult baseLat baseLon in
              (p, <[vid := CachedPos p.1 p.2 baseLat baseLon]> cache)
          end
      end
  | _, _, _ =>
      match cached with
      | Some c => ((c_lat c, c_lon c), cache)
      | None =>
          let p := generated (Hash.hashOf vid) index in
          (p, <[vid := CachedPos p.1 p.2 centralLat centralLon]> cache)
      end
  end.

(** [vehicle.heading || (vehicle.bearing ? parseInt(vehicle.bearing)
    : (vehicle.direction === 'inbound' ? 180 : 0))]. *)
Definition rawHeading (v : vehicle) : jsnum :=
  if truthyNum (heading v) then Num (toNumber (heading v))
  else if truthyStr (bearing v) then parseInt (default "" (bearing v))
  else if bool_decide (direction v = Some "inbound") then Num 180 else Num 0.

(** The heading in the words of the specification: the floor of the first
    truthy value among the reported heading, the parsed bearing and the
    direction-based default. *)
Definition parsedBearing (v : vehicle) : jsnum :=
  match bearing v with
  | Some b => parseInt b
  | None => NaN
  end.

Definition claimedHeading (v : vehicle) : jsnum :=
  floor (firstTruthy
           [match heading v with Some h => Num h | None => NaN end;
            parsedBearing v]
           (if bool_decide (direction v = Some "inbound") then Num 180 else Num 0)).

(** [vehicle.positionSource || (vehicle.hasRealPosition === true
    ? 'text_location' : 'simulated')]. *)
Definition sourceOf (v : vehicle) : string :=
  orStr (positionSource v)
        (if bool_decide (hasRealPosition v = Some true) then "text_location"
         else "simulated").

(** The [map] callback: one vehicle, with the cache threaded through. *)
Definition processVehicle (selectedVehicle : option vehicle)
    (vehicles : list vehicle) (index : nat) (v : vehicle)
    (cache : vehiclePositionCache) : displayVehicle * vehiclePositionCache :=
  let '((la, lo), cache') := position selectedVehicle vehicles index v cache in
  ({| p_rest := v;
      p_id := orStr (id v) (orStr (vehicleId v) (fallbackId index));
      p_vehicleId := vehicleId v;
      currentLat := la;
      currentLon := lo;
      p_lat := la;
      p_lon := lo;
      p_heading := Some (floor (rawHeading v));
      p_timeToStation := timeToStation v;
      p_currentLocation := currentLocation v;
      p_lastUpdated := lastUpdated v;
      p_hasRealPosition := Some (bool_decide (hasRealPosition v = Some true));
      vehicleIndex := index;
      p_positionSource := Some (sourceOf v) |},
   cache').

(** [vehicles.map((vehicle, index) => ...)], left to right from [index],
    every callback seeing the cache its predecessors left. *)
Fixpoint processFrom (selectedVehicle : option vehicle) (vehicles : list vehicle)
    (index : nat) (rest : list vehicle) (cache : vehiclePositionCache)
    : list displayVehicle * vehiclePositionCache :=
  match rest with
  | [] => ([], cache)
  | v :: rest' =>
      let '(d, cache1) := processVehicle selectedVehicle vehicles index v cache in
      let '(ds, cache2) := processFrom selectedVehicle vehicles (S index) rest' cache1 in
      (d :: ds, cache2)
  end.

Definition processVehicles (selectedVehicle : option vehicle)
    (vehicles : list vehicle) (cache : vehiclePositionCache)
    : list displayVehicle * vehiclePositionCache :=
  processFrom selectedVehicle vehicles 0 vehicles cache.

End Processing.

(** ** Periodic update of the selected vehicle *)

Module SelectedUpdate.

(** [data.selectedVehiclePosition].  [lat] and [lon] are numbers: the success
    path formats them with [toFixed]. *)
Record updatedPosition : Type := UpdatedPosition {
  u_vehicleId : option string;
  u_lat : R;
  u_lon : R;
  u_heading : option R;
  u_currentLocation : option string;
  u_timeToStation : option R;
  u_lastUpdated : option string;
  u_hasRealPosition : option bool;
  u_positionSource : option string
}.

(** What the component holds: the cache behind the ref and two pieces of
    React state. *)
Record mapState : Type := MapState {
  cache : vehiclePositionCache;
  displayVehicles : list displayVehicle;
  selectedVehiclePositionSource : option string
}.

(** [vehiclePositionCache.current.set(selectedVehicle.vehicleId, {...})]. *)
Definition updateCache (sel : string) (u : updatedPosition)
    (c : vehiclePositionCache) : vehiclePositionCache :=
  <[sel := CachedPos (u_lat u) (u_lon u) (u_lat u) (u_lon u)]> c.

(** [{ ...vehicle, ...updatedPosition, currentLat, currentLon, lat, lon,
    heading, lastUpdated, hasRealPosition, positionSource }]. *)
Definition merge (d : displayVehicle) (u : updatedPosition) : displayVehicle :=
  {| p_rest := p_rest d;
     p_id := p_id d;
     p_vehicleId := u_vehicleId u;
     currentLat := u_lat u;
     currentLon := u_lon u;
     p_lat := u_lat u;
     p_lon := u_lon u;
     p_heading := JS.Num <$> u_heading u;
     p_timeToStation := u_timeToStation u;
     p_currentLocation := u_currentLocation u;
     p_lastUpdated := u_lastUpdated u;
     p_hasRealPosition := u_hasRealPosition u;
     vehicleIndex := vehicleIndex d;
     p_positionSource := u_positionSource u |}.

(** The updater passed to [setDisplayVehicles]. *)
Definition updateDisplay (sel : string) (u : updatedPosition)
    (prevVehicles : list displayVehicle) : list displayVehicle :=
  (fun d => if bool_decide (p_vehicleId d = Some sel) then merge d u else d)
    <$> prevVehicles.

(** [updateSelectedVehiclePosition] for the selected id [sel], given what the
    request produced: [Some u] when [data?.selectedVehiclePosition] is there,
    [None] when it is absent or the request threw. *)
Definition updateSelectedVehiclePosition (sel : string)
    (response : option updatedPosition) (st : mapState) : mapState :=
  match response with
  | Some u =>
      {| cache := updateCache sel u (cache st);
         displayVehicles := updateDisplay sel u (displayVehicles st);
         selectedVehiclePositionSource := u_positionSource u |}
  | None => st
  end.

End SelectedUpdate.

(** ** Marker animation in the vehicle modal *)

Module Modal.

Import JS.
Local Open Scope R_scope.

(** The fields of the modal's [vehicle] prop that the effect reads. *)
Record modalVehicle : Type := ModalVehicle {
  m_lat : option R;
  m_lon : option R;
  m_timeToStation : option R;
  nextStopCoords : option (R * R)
}.

(** [prevPosRef.current] (the timestamp field is never read). *)
Record prevPos : Type := PrevPos {
  prevLat : option R;
  prevLon : option R;
  prevTimeToStation : R
}.

(** The initial value of the ref. *)
Definition initialPrev (v : modalVehicle) : prevPos :=
  {| prevLat := m_lat v; prevLon := m_lon v;
     prevTimeToStation := orNum (m_timeToStation v) 0 |}.

(** What the effect does to the marker. *)
Inductive markerAction : Type :=
  | Animate (from to : R * R) (timeProgress : R)
  | SetDirectly (pos : R * R)
  | NoChange.

Definition currentTimeToStation (v : modalVehicle) : R := orNum (m_timeToStation v) 0.
Definition currentLatOf (v : modalVehicle) : R := orNum (m_lat v) 51.5074.
Definition currentLonOf (v : modalVehicle) : R := orNum (m_lon v) (-0.1278).

(** [Math.min(1, timeDiff / maxTime)] with
    [maxTime = prevData.timeToStation || 60]. *)
Definition timeProgress (prevTts currentTts : R) : R :=
  Rmin 1 ((prevTts - currentTts) / orNum (Some prevTts) 60).

(** The guard of the animation branch. *)
Definition shouldAnimate (prev : prevPos) (v : modalVehicle) : bool :=
  bool_decide (currentTimeToStation v < prevTimeToStation prev)
  && bool_decide (is_Some (nextStopCoords v))
  && truthyNum (prevLat prev) && truthyNum (prevLon prev).

(** A previous coordinate is set: present and not zero. *)
Definition isSet (o : option R) : Prop := ∃ x, o = Some x ∧ x ≠ 0.

(** The precondition of the animation, as a proposition. *)
Definition animationPrecondition (prev : prevPos) (v : modalVehicle) : Prop :=
  currentTimeToStation v < prevTimeToStation prev
  ∧ is_Some (nextStopCoords v)
  ∧ isSet (prevLat prev) ∧ isSet (prevLon prev).

(** [currentLat !== prevData.lat || currentLon !== prevData.lon]. *)
Definition positionChanged (prev : prevPos) (v : modalVehicle) : bool :=
  bool_decide (Some (currentLatOf v) ≠ prevLat prev)
  || bool_decide (Some (currentLonOf v) ≠ prevLon prev).

(** The animation effect: the action on the marker and the ref afterwards.
    The animation branch returns its cleanup before the ref is updated. *)
Definition effect (prev : prevPos) (v : modalVehicle) : markerAction * prevPos :=
  let updated :=
    {| prevLat := Some (currentLatOf v); prevLon := Some (currentLonOf v);
       prevTimeToStation := currentTimeToStation v |} in
  match shouldAnimate prev v, nextStopCoords v with
  | true, Some next =>
      (Animate (toNumber (prevLat prev), toNumber (prevLon prev)) next
               (timeProgress (prevTimeToStation prev) (currentTimeToStation v)),
       prev)
  | _, _ =>
      if positionChanged prev v
      then (SetDirectly (currentLatOf v, currentLonOf v), updated)
      else (NoChange, updated)
  end.

(** Ease-out-quad: [1 - (1 - t) * (1 - t)]. *)
Definition eased (t : R) : R := 1 - (1 - t) * (1 - t).

Definition duration : R := 2000.

(** [t = Math.min(1, (timestamp - start) / duration)]. *)
Definition frameT (start timestamp : R) : R := Rmin 1 ((timestamp - start) / duration).

(** The position a frame at progress [t] gives to [setAnimatedPosition]. *)
Definition framePos (from to : R * R) (tp t : R) : R * R :=
  (from.1 + (to.1 - from.1) * eased t * tp,
   from.2 + (to.2 - from.2) * eased t * tp).

(** The point [p] lies on the segment from [from] to [to]. *)
Definition onSegment (from to p : R * R) : Prop :=
  ∃ l : R, 0 <= l <= 1
    ∧ p = (from.1 + l * (to.1 - from.1), from.2 + l * (to.2 - from.2)).

(** Where the last frame ([t = 1]) leaves the marker. *)
Definition endPos (from to : R * R) (tp : R) : R * R :=
  (from.1 + (to.1 - from.1) * tp, from.2 + (to.2 - from.2) * tp).

(** One call of [step]: [start] is set on the first call, the position is
    set, and another frame is requested iff [t < 1]. *)
Definition step (from to : R * R) (tp : R) (start : option R) (timestamp : R)
    : option R * (R * R) * bool :=
  let start' := if truthyNum start then toNumber start else timestamp in
  let t := frameT start' timestamp in
  (Some start', framePos from to tp t, bool_decide (t < 1)).

(** The frames the browser delivers, in order, until [step] stops asking for
    more; the result is the last position set and whether the animation is
    still running. *)
Fixpoint runFrames (from to : R * R) (tp : R) (start : option R)
    (timestamps : list R) (pos : R * R) : (R * R) * bool :=
  match timestamps with
  | [] => (pos, true)
  | ts :: rest =>
      let '(start', pos', more) := step from to tp start ts in
      if more then runFrames from to tp start' rest pos' else (pos', false)
  end.

End Modal.

(** ** The LiveVehicles fetch loop *)

Module LiveVehicles.

Record state : Type := State {
  vehicles : list vehicle;
  isInitialLoad : bool;
  error : option string;
  selectedVehicle : option vehicle
}.

(** What one run of [fetchVehicles] meets. *)
Inductive fetchOutcome : Type :=
  | Threw (message : string)
  | NotOk
  | Ok (data : list vehicle).

(** [data.find(v => v.vehicleId === prev.vehicleId)]. *)
Definition findById (data : list vehicle) (prev : vehicle) : option vehicle :=
  List.find (fun v => bool_decide (vehicleId v = vehicleId prev)) data.

(** The updater passed to [setSelectedVehicle] on success. *)
Definition refreshSelected (data : list vehicle) (prev : option vehicle)
    : option vehicle :=
  match prev with
  | None => None
  | Some p => Some (default p (findById data p))
  end.

(** One run of [fetchVehicles], with its [try]/[catch]/[finally]. *)
Definition fetchVehicles (o : fetchOutcome) (st : state) : state :=
  let st' :=
    match o with
    | Ok data =>
        {| vehicles := data; isInitialLoad := isInitialLoad st; error := None;
           selectedVehicle := refreshSelected data (selectedVehicle st) |}
    | NotOk =>
        {| vehicles := vehicles st; isInitialLoad := isInitialLoad st;
           error := Some "Failed to fetch vehicles";
           selectedVehicle := selectedVehicle st |}
    | Threw message =>
        {| vehicles := vehicles st; isInitialLoad := isInitialLoad st;
           error := Some message; selectedVehicle := selectedVehicle st |}
    end in
  {| vehicles := vehicles st'; isInitialLoad := false; error := error st';
     selectedVehicle := selectedVehicle st' |}.

(** What the component renders. *)
Inductive screen : Type :=
  | Loading
  | ErrorScreen (message : string)
  | Grid (shown : list vehicle) (modal : option vehicle).

Definition render (st : state) : screen :=
  if isInitialLoad st then Loading
  else if JS.truthyStr (error st) && bool_decide (vehicles st = [])
  then ErrorScreen (default "" (error st))
  else Grid (vehicles st) (selectedVehicle st).

End LiveVehicles.

(** ** Integer polynomials

    Used to show that two jittered positions with different indices never
    coincide: the angles differ by a rational number, and PI is irrational. *)

Module Poly.

Local Open Scope R_scope.

(** Evaluation of a polynomial with integer coefficients, lowest degree
    first. *)
Fixpoint peval (p : list Z) (x : R) : R :=
  match p with
  | [] => 0
  | c :: q => IZR c + x * peval q x
  end.

(** Multiply the coefficients by [k], [k + 1], ... *)
Fixpoint scaleFrom (k : Z) (p : list Z) : list Z :=
  match p with
  | [] => []
  | c :: q => (k * c)%Z :: scaleFrom (k + 1) q
  end.

(** The formal derivative. *)
Definition pderiv (p : list Z) : list Z :=
  match p with
  | [] => []
  | _ :: q => scaleFrom 1 q
  end.

Fixpoint padd (p q : list Z) : list Z :=
  match p, q with
  | [], _ => q
  | _, [] => p
  | c :: p', d :: q' => (c + d)%Z :: padd p' q'
  end.

Fixpoint pmul (p q : list Z) : list Z :=
  match p with
  | [] => []
  | c :: p' => padd (map (Z.mul c) q) (0%Z :: pmul p' q)
  end.

(** [x^n * (a - b x)^n]. *)
Definition niven (a b : Z) (n : nat) : list Z :=
  repeat 0%Z n ++ Nat.iter n (pmul [a; (- b)%Z]) [1%Z].

(** [p - p'' + p'''' - ...], with [m + 1] terms. *)
Fixpoint altSum (m : nat) (p : list Z) (x : R) : R :=
  match m with
  | O => peval p x
  | S m' => peval p x - altSum m' (pderiv (pderiv p)) x
  end.

(** The function whose derivative is [x^n * (a - b x)^n * sin x]. *)
Definition nivenG (a b : Z) (n : nat) (x : R) : R :=
  altSum (length (niven a b n)) (pderiv (niven a b n)) x * sin x
  - altSum (length (niven a b n)) (niven a b n) x * cos x.

End Poly.

(** ** Sample data *)

Module Samples.

Local Open Scope R_scope.

(** A bus reporting coordinates near Trafalgar Square. *)
Definition busA : vehicle :=
  {| id := Some "a1"; vehicleId := Some "LTZ1001"; lineName := Some "12";
     direction := Some "inbound"; bearing := Some "0";
     lat := Some 51.5; lon := Some (-0.12); heading := None;
     timeToStation := Some 120; currentLocation := None; lastUpdated := None;
     hasRealPosition := Some true; positionSource := None |}.

(** Another bus reporting the same coordinates. *)
Definition busB : vehicle :=
  {| id := Some "b1"; vehicleId := Some "LTZ1002"; lineName := Some "12";
     direction := Some "outbound"; bearing := Some "";
     lat := Some 51.5; lon := Some (-0.12); heading := Some 0;
     timeToStation := Some 300; currentLocation := None; lastUpdated := None;
     hasRealPosition := None; positionSource := None |}.

(** A vehicle without coordinates. *)
Definition ghost : vehicle :=
  {| id := None; vehicleId := Some "LX59ABC"; lineName := Some "73";
     direction := None; bearing := None;
     lat := None; lon := None; heading := None;
     timeToStation := None; currentLocation := None; lastUpdated := None;
     hasRealPosition := None; positionSource := None |}.

(** A cache entry for [busA], made when it reported the same coordinates. *)
Definition entryA : cachedPos := CachedPos 51.503 (-0.118) 51.5 (-0.12).

Definition cacheA : vehiclePositionCache := {[ "LTZ1001" := entryA ]}.

(** [busA] as the map displays it from [cacheA]. *)
Definition shownA : displayVehicle :=
  {| p_rest := busA; p_id := "a1"; p_vehicleId := Some "LTZ1001";
     currentLat := 51.503; currentLon := -0.118;
     p_lat := 51.503; p_lon := -0.118;
     p_heading := Some (JS.Num 0); p_timeToStation := Some 120;
     p_currentLocation := None; p_lastUpdated := None;
     p_hasRealPosition := Some true; vehicleIndex := 0;
     p_positionSource := Some "text_location" |}.

(** [busB] on display, jittered away from the shared coordinates. *)
Definition shownB : displayVehicle :=
  {| p_rest := busB; p_id := "b1"; p_vehicleId := Some "LTZ1002";
     currentLat := 51.497; currentLon := -0.124;
     p_lat := 51.497; p_lon := -0.124;
     p_heading := Some (JS.Num 0); p_timeToStation := Some 300;
     p_currentLocation := None; p_lastUpdated := None;
     p_hasRealPosition := Some false; vehicleIndex := 1;
     p_positionSource := Some "simulated" |}.

(** A position the backend returns for the selected [busB]. *)
Definition updateB : SelectedUpdate.updatedPosition :=
  {| SelectedUpdate.u_vehicleId := Some "LTZ1002";
     SelectedUpdate.u_lat := 51.5; SelectedUpdate.u_lon := -0.12;
     SelectedUpdate.u_heading := Some 90;
     SelectedUpdate.u_currentLocation := None;
     SelectedUpdate.u_timeToStation := Some 280;
     SelectedUpdate.u_lastUpdated := None;
     SelectedUpdate.u_hasRealPosition := Some true;
     SelectedUpdate.u_positionSource := Some "route_based" |}.

Definition stateAB : SelectedUpdate.mapState :=
  {| SelectedUpdate.cache := cacheA;
     SelectedUpdate.displayVehicles := [shownA; shownB];
     SelectedUpdate.selectedVehiclePositionSource := None |}.

(** LiveVehicles with two vehicles on display and the modal open. *)
Definition liveState : LiveVehicles.state :=
  {| LiveVehicles.vehicles := [busA; busB];
     LiveVehicles.isInitialLoad := false;
     LiveVehicles.error := None;
     LiveVehicles.selectedVehicle := Some busA |}.

(** LiveVehicles after a first fetch that failed. *)
Definition failedEmpty : LiveVehicles.state :=
  {| LiveVehicles.vehicles := [];
     LiveVehicles.isInitialLoad := false;
     LiveVehicles.error := Some "Failed to fetch vehicles";
     LiveVehicles.selectedVehicle := None |}.

(** The modal's ref after a poll that saw the bus 120 s from its stop. *)
Definition prevStop : Modal.prevPos :=
  {| Modal.prevLat := Some 51.5; Modal.prevLon := Some (-0.1);
     Modal.prevTimeToStation := 120 |}.

(** The next poll: 90 s from the stop, whose coordinates are known. *)
Definition closer : Modal.modalVehicle :=
  {| Modal.m_lat := Some 51.5; Modal.m_lon := Some (-0.1);
     Modal.m_timeToStation := Some 90;
     Modal.nextStopCoords := Some (51.51, -0.11) |}.

(** A poll that reports new coordinates and no next stop. *)
Definition moved : Modal.modalVehicle :=
  {| Modal.m_lat := Some 51.52; Modal.m_lon := Some (-0.1);
     Modal.m_timeToStation := Some 90;
     Modal.nextStopCoords := None |}.

(** A ref holding a time to station already ten seconds overdue. *)
Definition prevOverdue : Modal.prevPos :=
  {| Modal.prevLat := Some 51.5; Modal.prevLon := Some (-0.1);
     Modal.prevTimeToStation := -10 |}.

(** The next poll, forty seconds overdue. *)
Definition moreOverdue : Modal.modalVehicle :=
  {| Modal.m_lat := Some 51.5; Modal.m_lon := Some (-0.1);
     Modal.m_timeToStation := Some (-40);
     Modal.nextStopCoords := Some (51.51, -0.11) |}.

(** A bus with a fractional bearing string and no heading. *)
Definition northbound : vehicle :=
  {| id := None; vehicleId := Some "BX11AAA"; lineName := Some "94";
     direction := Some "outbound"; bearing := Some "47.5";
     lat := Some 51.51; lon := Some (-0.15); heading := Some 0;
     timeToStation := None; currentLocation := None; lastUpdated := None;
     hasRealPosition := None; positionSource := None |}.

(** A bus whose bearing is not numeric. *)
Definition unparsed : vehicle :=
  {| id := None; vehicleId := Some "BX11BBB"; lineName := Some "94";
     direction := Some "inbound"; bearing := Some "N/A";
     lat := Some 51.51; lon := Some (-0.15); heading := None;
     timeToStation := None; currentLocation := None; lastUpdated := None;
     hasRealPosition := None; positionSource := None |}.

(** What the cache holds for a vehicle whose backend position was stored as
    it is. *)
Definition realEntry : cachedPos := CachedPos 51.5 (-0.12) 51.5 (-0.12).

(** A session on the map: [busA] is selected; then [busB] is selected and
    its position update arrives; then the selection is dropped. *)
Definition afterSelectA : list displayVehicle * vehiclePositionCache :=
  Processing.processVehicles (Some busA) [busA; busB] ∅.

Definition afterSelectB : list displayVehicle * vehiclePositionCache :=
  Processing.processVehicles (Some busB) [busA; busB] afterSelectA.2.

Definition afterUpdateB : SelectedUpdate.mapState :=
  SelectedUpdate.updateSelectedVehiclePosition "LTZ1002" (Some updateB)
    {| SelectedUpdate.cache := afterSelectB.2;
       SelectedUpdate.displayVehicles := afterSelectB.1;
       SelectedUpdate.selectedVehiclePositionSource := None |}.

Definition afterDeselect : list displayVehicle * vehiclePositionCache :=
  Processing.processVehicles None [busA; busB] (SelectedUpdate.cache afterUpdateB).

End Samples.

(** ** Facts about a pass over the list *)

Module Pass.

Import Processing.

(** No two vehicles of the list, from [index] on, have the same id. *)
Definition distinctFrom (index : nat) (rest : list vehicle) : Prop :=
  ∀ i j u w, i ≠ j → rest !! i = Some u → rest !! j = Some w →
    vehicleIdOf u (index + i) ≠ vehicleIdOf w (index + j).

Definition distinctIds (vehicles : list vehicle) : Prop := distinctFrom 0 vehicles.

(** The cache holds an entry for the vehicle that the next pass will reuse:
    any entry when the vehicle is selected or has no valid coordinates, an
    entry with a base within 0.001 of the reported coordinates otherwise. *)
Definition settled (selectedVehicle : option vehicle)
    (cache : vehiclePositionCache) (index : nat) (v : vehicle) (c : cachedPos)
    : Prop :=
  cache !! vehicleIdOf v index = Some c
  ∧ (hasValidCoords v = true →
     isSelected selectedVehicle (vehicleIdOf v index) = false →
     ∀ la lo, lat v = Some la → lon v = Some lo → cacheUsable c la lo = true).

End Pass.

(** ** The processing effect of the map as a whole *)

Module MapEffect.

(** [data?.vehicleTracking || initialVehicles || []]: an array is truthy
    even when it is empty, so only a missing value falls through. *)
Definition vehiclesSource (vehicleTracking initialVehicles : option (list vehicle))
    : list vehicle :=
  match vehicleTracking, initialVehicles with
  | Some l, _ => l
  | None, Some l => l
  | None, None => []
  end.

(** [processedVehicles.filter(v => v.hasRealPosition === true).length]. *)
Definition realCount (processedVehicles : list displayVehicle) : nat :=
  length (List.filter (fun d => bool_decide (p_hasRealPosition d = Some true))
            processedVehicles).

(** [vehiclesToDisplay]: the filter on [v.vehicleId === selectedVehicle.vehicleId]
    when [showOnlySelected && selectedVehicle]. *)
Definition vehiclesToDisplay (showOnlySelected : bool)
    (selectedVehicle : option vehicle) (processedVehicles : list displayVehicle)
    : list displayVehicle :=
  match showOnlySelected, selectedVehicle with
  | true, Some sv =>
      List.filter (fun d => bool_decide (p_vehicleId d = vehicleId sv))
        processedVehicles
  | _, _ => processedVehicles
  end.

(** The ref and the state the effect writes. *)
Record state : Type := State {
  cache : vehiclePositionCache;
  displayVehicles : list displayVehicle;
  realVehicleCount : nat
}.

(** The effect on [data?.vehicleTracking], [initialVehicles],
    [showOnlySelected] and [selectedVehicle]: nothing at all on an empty
    list, else one pass and the three writes. *)
Definition processingEffect (showOnlySelected : bool)
    (selectedVehicle : option vehicle)
    (vehicleTracking initialVehicles : option (list vehicle)) (st : state) : state :=
  let vehicles := vehiclesSource vehicleTracking initialVehicles in
  match vehicles with
  | [] => st
  | _ :: _ =>
      let r := Processing.processVehicles selectedVehicle vehicles (cache st) in
      {| cache := r.2;
         displayVehicles := vehiclesToDisplay showOnlySelected selectedVehicle r.1;
         realVehicleCount := realCount r.1 |}
  end.

(** The component when it mounts: [useRef(new Map())], [useState([])],
    [useState(0)]. *)
Definition mounted : state :=
  {| cache := ∅; displayVehicles := []; realVehicleCount := 0 |}.

(** What the modal body shows: the three conditional blocks of the JSX. *)
Record body : Type := Body {
  loadingShown : bool;
  errorShown : bool;
  contentShown : bool
}.

Definition renderBody (loading error isInitialLoad : bool)
    (displayed : list displayVehicle) : body :=
  {| loadingShown := loading && isInitialLoad;
     errorShown := error && isInitialLoad;
     contentShown :=
       (negb isInitialLoad || bool_decide (0 < length displayed)%nat)
       && negb error |}.

(** The effect that ends the initial load: once [data?.vehicleTracking] is
    there. *)
Definition trackInitialLoad (vehicleTracking : option (list vehicle))
    (isInitialLoad : bool) : bool :=
  match vehicleTracking with
  | Some _ => false
  | None => isInitialLoad
  end.

(** *** The initial bounds of the map *)

(** A command sent to the Leaflet map. *)
Inductive mapCommand : Type :=
  | SetView (center : R * R) (zoom : Z)
  | FitBounds (positions : list (R * R)) (maxZoom : Z).

(** [displayVehicles.find(v => v.vehicleId === selectedVehicle.vehicleId)]. *)
Definition findSelected (selectedVehicle : vehicle)
    (displayed : list displayVehicle) : option displayVehicle :=
  List.find (fun d => bool_decide (p_vehicleId d = vehicleId selectedVehicle))
    displayed.

(** What one run of the effect sees besides [initialBoundsSet]. *)
Record boundsInput : Type := BoundsInput {
  mapPresent : bool;
  mapReady : bool;
  shown : list displayVehicle;
  onlySelected : bool;
  selected : option vehicle
}.

(** One run of the effect that sets the initial bounds: the command it
    sends, if any, and [initialBoundsSet] afterwards. *)
Definition initialBounds (i : boundsInput) (initialBoundsSet : bool)
    : option mapCommand * bool :=
  if mapPresent i && bool_decide (0 < length (shown i))%nat
     && negb initialBoundsSet && mapReady i
  then
    match onlySelected i, selected i with
    | true, Some sv =>
        match findSelected sv (shown i) with
        | Some d => (Some (SetView (currentLat d, currentLon d) 16), true)
        | None => (None, initialBoundsSet)
        end
    | _, _ =>
        (Some (FitBounds ((fun d => (currentLat d, currentLon d)) <$> shown i) 13),
         true)
    end
  else (None, initialBoundsSet).

(** The effect run again and again, on whatever it then sees. *)
Fixpoint boundsRuns (inputs : list boundsInput) (initialBoundsSet : bool)
    : list mapCommand * bool :=
  match inputs with
  | [] => ([], initialBoundsSet)
  | i :: rest =>
      let r := initialBounds i initialBoundsSet in
      let rs := boundsRuns rest r.2 in
      (match r.1 with Some c => c :: rs.1 | None => rs.1 end, rs.2)
  end.

(** *** The zoom buttons *)

(** The positions the markers are drawn at:
    [position={[vehicle.currentLat, vehicle.currentLon]}]. *)
Definition markers (displayed : list displayVehicle) : list (R * R) :=
  (fun d => (currentLat d, currentLon d)) <$> displayed.

(** [handleZoomToAll]. *)
Definition handleZoomToAll (mapPresent : bool) (displayed : list displayVehicle)
    : option mapCommand :=
  if mapPresent && bool_decide (0 < length displayed)%nat
  then Some (FitBounds ((fun d => (currentLat d, currentLon d)) <$> displayed) 13)
  else None.

(** [handleZoomToSelected]: the view is computed from [lat] and [lon], and
    only when both are truthy. *)
Definition handleZoomToSelected (mapPresent : bool)
    (selectedVehicle : option vehicle) (displayed : list displayVehicle)
    : option mapCommand :=
  match mapPresent, selectedVehicle with
  | true, Some sv =>
      match findSelected sv displayed with
      | Some d =>
          if JS.truthyNum (Some (p_lat d)) && JS.truthyNum (Some (p_lon d))
          then Some (SetView (p_lat d, p_lon d) 16)
          else None
      | None => None
      end
  | _, _ => None
  end.

(** The lists [displayVehicles] can hold: empty at the mount, then set by
    the processing effect and mapped by the update of the selected vehicle. *)
Inductive reachableDisplay : list displayVehicle → Prop :=
  | display_mount : reachableDisplay []
  | display_pass showOnlySelected selectedVehicle vehicles cache :
      reachableDisplay
        (vehiclesToDisplay showOnlySelected selectedVehicle
           (Processing.processVehicles selectedVehicle vehicles cache).1)
  | display_update sel u displayed :
      reachableDisplay displayed →
      reachableDisplay (SelectedUpdate.updateDisplay sel u displayed).

End MapEffect.

(** ** Grouping the displayed vehicles by area *)

Module Areas.

(** The names every plain object inherits from [Object.prototype]. *)
Definition inherited : list string :=
  ["constructor"; "__defineGetter__"; "__defineSetter__"; "hasOwnProperty";
   "__lookupGetter__"; "__lookupSetter__"; "isPrototypeOf";
   "propertyIsEnumerable"; "toString"; "valueOf"; "__proto__";
   "toLocaleString"].

Definition digitOf (a : ascii) : option N :=
  let n := N.of_nat (Ascii.nat_of_ascii a) in
  if ((48 <=? n) && (n <=? 57))%N then Some (n - 48)%N else None.

Fixpoint decimal (acc : N) (l : list ascii) : option N :=
  match l with
  | [] => Some acc
  | a :: l' =>
      match digitOf a with
      | Some d => decimal (acc * 10 + d)%N l'
      | None => None
      end
  end.

(** A property name that is an array index: the canonical decimal form of an
    integer below [2^32 - 1]. *)
Definition arrayIndex (name : string) : option N :=
  match String.list_ascii_of_string name with
  | [] => None
  | "0"%char :: _ :: _ => None
  | l =>
      match decimal 0 l with
      | Some n => if decide (n < 2 ^ 32 - 1)%N then Some n else None
      | None => None
      end
  end.

Section Grouping.

(** The vehicles on display and their [routeArea] field. *)
Context {A : Type} (routeArea : A → option string).

(** [vehicle.routeArea || 'Unknown Area']. *)
Definition areaOf (a : A) : string := JS.orStr (routeArea a) "Unknown Area".

(** The own properties of the object [vehiclesByArea], in the order of their
    creation, and the lookup of one of them. *)
Fixpoint get (area : string) (groups : list (string * list A))
    : option (list A) :=
  match groups with
  | [] => None
  | (k, l) :: rest => if decide (k = area) then Some l else get area rest
  end.

(** [vehiclesByArea[area] = []] when the property is not there, and
    [vehiclesByArea[area].push(vehicle)]. *)
Fixpoint insertInto (area : string) (a : A) (groups : list (string * list A))
    : list (string * list A) :=
  match groups with
  | [] => [(area, [a])]
  | (k, l) :: rest =>
      if decide (k = area) then (k, l ++ [a]) :: rest
      else (k, l) :: insertInto area a rest
  end.

(** The body of the [forEach] callback.  For a name the object inherits,
    [vehiclesByArea[area]] is the inherited value, which is truthy and has no
    [push]: the call throws ([None]). *)
Definition push (area : string) (a : A) (groups : list (string * list A))
    : option (list (string * list A)) :=
  if decide (area ∈ inherited) then None else Some (insertInto area a groups).

(** [displayVehicles.forEach(...)] from the given groups on. *)
Fixpoint groupInto (displayed : list A) (groups : list (string * list A))
    : option (list (string * list A)) :=
  match displayed with
  | [] => Some groups
  | a :: rest =>
      match push (areaOf a) a groups with
      | Some groups' => groupInto rest groups'
      | None => None
      end
  end.

(** [const vehiclesByArea = {}; displayVehicles.forEach(...)]. *)
Definition vehiclesByArea (displayed : list A) : option (list (string * list A)) :=
  groupInto displayed [].

(** The order of two groups whose names are array indices. *)
Definition indexLe (g1 g2 : string * list A) : Prop :=
  (default 0 (arrayIndex g1.1) <= default 0 (arrayIndex g2.1))%N.

#[global] Instance indexLe_dec : RelDecision indexLe.
Proof. intros g1 g2. unfold indexLe. apply _. Defined.

(** [Object.entries(vehiclesByArea)]: the properties whose names are array
    indices come first, in ascending order, then the others in the order of
    their creation. *)
Definition entries (groups : list (string * list A)) : list (string * list A) :=
  merge_sort indexLe (base.filter (fun g => is_Some (arrayIndex g.1)) groups)
  ++ base.filter (fun g => ¬ is_Some (arrayIndex g.1)) groups.






End Grouping.

End Areas.

(** ** The dashboard *)

Module Dashboard.

Import JS.
Local Open Scope R_scope.

(** [!vehicle.lat || !vehicle.lon || Math.abs(vehicle.lat) < 0.1]. *)
Definition missingPosition (v : vehicle) : bool :=
  negb (truthyNum (lat v)) || negb (truthyNum (lon v))
  || bool_decide (Rabs (toNumber (lat v)) < 0.1).

(** [{ ...vehicle, lat: baseLat, lon: baseLon }]. *)
Definition withPosition (v : vehicle) (la lo : R) : vehicle :=
  {| id := id v; vehicleId := vehicleId v; lineName := lineName v;
     direction := direction v; bearing := bearing v;
     lat := Some la; lon := Some lo; heading := heading v;
     timeToStation := timeToStation v; currentLocation := currentLocation v;
     lastUpdated := lastUpdated v; hasRealPosition := hasRealPosition v;
     positionSource := positionSource v |}.

(** The callback of [data.vehicleTracking.map]: the vehicle, with a position
    assigned from its index when it has none, and [hasAssignedPosition]. *)
Definition assignPosition (index : nat) (v : vehicle) : vehicle * bool :=
  if missingPosition v
  then (withPosition v (51.5074 + INR index * 0.005) (-0.1278 + INR index * 0.005),
        true)
  else (v, false).

Definition vehiclesWithPositions (vehicleTracking : list vehicle)
    : list (vehicle * bool) :=
  imap assignPosition vehicleTracking.

(** The state behind the modals. *)
Record state : Type := State {
  selectedLocation : option (R * R);
  selectedTab : string;
  selectedVehicle : option vehicle;
  allVehicles : list vehicle;
  showVehicleModal : bool;
  showAnimatedVehicleModal : bool;
  showJourneyModal : bool;
  selectedJourney : option string
}.

(** [useState] initial values. *)
Definition initial : state :=
  {| selectedLocation := None;
     selectedTab := "journey"; selectedVehicle := None; allVehicles := [];
     showVehicleModal := false; showAnimatedVehicleModal := false;
     showJourneyModal := false; selectedJourney := None |}.

(** The handlers and the effect that stores the vehicles. *)
Inductive event : Type :=
  | MapClick (latlng : R * R)
  | TabChange (tab : string)
  | DataLoaded (vehicleTracking : list vehicle)
  | VehicleLocationClick (v : vehicle)
  | CloseVehicleModal
  | CloseAnimatedVehicleModal
  | JourneySelect (journey : option string)
  | CloseJourneyModal.

(** What is on screen, as the JSX conditions say. *)
Definition animatedModalShown (st : state) : bool :=
  showAnimatedVehicleModal st && bool_decide (0 < length (allVehicles st))%nat.

Definition vehicleModalShown (st : state) : bool :=
  showVehicleModal st && bool_decide (is_Some (selectedVehicle st)).

Definition journeyModalShown (st : state) : bool :=
  showJourneyModal st && bool_decide (is_Some (selectedJourney st)).

(** [!('journey' === selectedTab || 'live' === selectedTab)]. *)
Definition mapShown (st : state) : bool :=
  negb (bool_decide (selectedTab st = "journey")
        || bool_decide (selectedTab st = "live")).

(** A close handler can run only from the modal that carries it, a map
    click only on the map. *)
Definition enabled (st : state) (e : event) : bool :=
  match e with
  | MapClick _ => mapShown st
  | CloseVehicleModal => vehicleModalShown st
  | CloseAnimatedVehicleModal => animatedModalShown st
  | CloseJourneyModal => journeyModalShown st
  | _ => true
  end.

Definition handle (st : state) (e : event) : state :=
  match e with
  | MapClick latlng =>
      {| selectedLocation := Some latlng;
         selectedTab := selectedTab st; selectedVehicle := selectedVehicle st;
         allVehicles := allVehicles st; showVehicleModal := showVehicleModal st;
         showAnimatedVehicleModal := showAnimatedVehicleModal st;
         showJourneyModal := showJourneyModal st;
         selectedJourney := selectedJourney st |}
  | TabChange tab =>
      {| selectedLocation := selectedLocation st;
         selectedTab := tab; selectedVehicle := selectedVehicle st;
         allVehicles := allVehicles st; showVehicleModal := showVehicleModal st;
         showAnimatedVehicleModal := showAnimatedVehicleModal st;
         showJourneyModal := showJourneyModal st;
         selectedJourney := selectedJourney st |}
  | DataLoaded vehicleTracking =>
      {| selectedLocation := selectedLocation st;
         selectedTab := selectedTab st; selectedVehicle := selectedVehicle st;
         allVehicles := fst <$> vehiclesWithPositions vehicleTracking;
         showVehicleModal := showVehicleModal st;
         showAnimatedVehicleModal := showAnimatedVehicleModal st;
         showJourneyModal := showJourneyModal st;
         selectedJourney := selectedJourney st |}
  | VehicleLocationClick v =>
      {| selectedLocation := selectedLocation st;
         selectedTab := selectedTab st; selectedVehicle := Some v;
         allVehicles := allVehicles st; showVehicleModal := false;
         showAnimatedVehicleModal := true;
         showJourneyModal := showJourneyModal st;
         selectedJourney := selectedJourney st |}
  | CloseVehicleModal =>
      {| selectedLocation := selectedLocation st;
         selectedTab := selectedTab st; selectedVehicle := None;
         allVehicles := allVehicles st; showVehicleModal := false;
         showAnimatedVehicleModal := showAnimatedVehicleModal st;
         showJourneyModal := showJourneyModal st;
         selectedJourney := selectedJourney st |}
  | CloseAnimatedVehicleModal =>
      {| selectedLocation := selectedLocation st;
         selectedTab := selectedTab st; selectedVehicle := None;
         allVehicles := allVehicles st; showVehicleModal := showVehicleModal st;
         showAnimatedVehicleModal := false;
         showJourneyModal := showJourneyModal st;
         selectedJourney := selectedJourney st |}
  | JourneySelect journey =>
      {| selectedLocation := selectedLocation st;
         selectedTab := selectedTab st; selectedVehicle := selectedVehicle st;
         allVehicles := allVehicles st; showVehicleModal := showVehicleModal st;
         showAnimatedVehicleModal := showAnimatedVehicleModal st;
         showJourneyModal := true; selectedJourney := journey |}
  | CloseJourneyModal =>
      {| selectedLocation := selectedLocation st;
         selectedTab := selectedTab st; selectedVehicle := selectedVehicle st;
         allVehicles := allVehicles st; showVehicleModal := showVehicleModal st;
         showAnimatedVehicleModal := showAnimatedVehicleModal st;
         showJourneyModal := false; selectedJourney := None |}
  end.

(** The states the dashboard can be in. *)
Inductive reachable : state → Prop :=
  | reachable_initial : reachable initial
  | reachable_step st e :
      reachable st → enabled st e = true → reachable (handle st e).

End Dashboard.

(** ** The vehicle modal over several polls *)

Module ModalRuns.

Local Open Scope R_scope.

(** The test of the [setRoutePath] updater on the last point of the path. *)
Definition movedFrom (lastPoint from : R * R) : bool :=
  bool_decide (0.0001 < Rabs (lastPoint.1 - from.1))
  || bool_decide (0.0001 < Rabs (lastPoint.2 - from.2)).

(** The updater passed to [setRoutePath], on a path of points whose
    coordinates are numbers. *)
Definition addToRoutePath (from : R * R) (prev : list (R * R)) : list (R * R) :=
  match last prev with
  | None => prev ++ [from]
  | Some lastPoint =>
      if movedFrom lastPoint from then prev ++ [from] else prev
  end.

(** One run of the animation effect with the route path: only the animation
    branch touches the path. *)
Definition poll (prev : Modal.prevPos) (routePath : list (R * R))
    (v : Modal.modalVehicle)
    : Modal.markerAction * Modal.prevPos * list (R * R) :=
  let r := Modal.effect prev v in
  (r.1, r.2,
   match r.1 with
   | Modal.Animate from _ _ => addToRoutePath from routePath
   | _ => routePath
   end).

(** The effect run on one [vehicle] prop after the other. *)
Fixpoint polls (prev : Modal.prevPos) (routePath : list (R * R))
    (vs : list Modal.modalVehicle)
    : list Modal.markerAction * Modal.prevPos * list (R * R) :=
  match vs with
  | [] => ([], prev, routePath)
  | v :: rest =>
      let r := poll prev routePath v in
      let rs := polls r.1.2 r.2 rest in
      (r.1.1 :: rs.1.1, rs.1.2, rs.2)
  end.

(** Consecutive points of a path are more than 0.0001 apart in latitude or
    in longitude. *)
Fixpoint spaced (path : list (R * R)) : Prop :=
  match path with
  | p :: (q :: _) as rest => movedFrom p q = true ∧ spaced rest
  | _ => True
  end.

End ModalRuns.

(** ** The LiveVehicles loop over several fetches *)

Module LiveRuns.

(** [fetchVehicles] run on the outcomes of successive fetches. *)
Definition fetches (outcomes : list LiveVehicles.fetchOutcome)
    (st : LiveVehicles.state) : LiveVehicles.state :=
  fold_left (fun st o => LiveVehicles.fetchVehicles o st) outcomes st.

(** The data of the last successful fetch of a run, if any. *)
Fixpoint lastOk (outcomes : list LiveVehicles.fetchOutcome)
    : option (list vehicle) :=
  match outcomes with
  | [] => None
  | o :: rest =>
      match lastOk rest, o with
      | Some data, _ => Some data
      | None, LiveVehicles.Ok data => Some data
      | None, _ => None
      end
  end.

End LiveRuns.

(** ** The hash on UTF-16 code units *)

Module CodeUnits.

(** The loop of the hash and [Math.abs] on the values [charCodeAt] gives for
    the characters of an id, one code unit per index. *)
Definition hashOfUnits (units : list Z) : Z := Z.abs (fold_left Hash.round units 0).

(** A UTF-16 code unit. *)
Definition codeUnit (c : Z) : Prop := 0 <= c <= 65535.

End CodeUnits.

(** ** The cache over a session of the map *)

Module Session.

Local Open Scope R_scope.

(** The displayed position of an entry is close to the base it was made
    for. *)
Definition nearBase (c : cachedPos) : Prop :=
  Rabs (c_lat c - c_baseLat c) <= 0.095 ∧ Rabs (c_lon c - c_baseLon c) <= 0.12.

Definition cacheBounded (cache : vehiclePositionCache) : Prop :=
  ∀ key c, cache !! key = Some c → nearBase c.

(** The caches the component can hold: empty at the mount, then written by
    passes over whatever list with whatever selection, and by updates of the
    selected vehicle. *)
Inductive reachableCache : vehiclePositionCache → Prop :=
  | reachable_mount : reachableCache ∅
  | reachable_pass selectedVehicle vehicles cache :
      reachableCache cache →
      reachableCache (Processing.processVehicles selectedVehicle vehicles cache).2
  | reachable_update sel u cache :
      reachableCache cache →
      reachableCache (SelectedUpdate.updateCache sel u cache).

End Session.

(** ** More sample data *)

Module Samples2.

Local Open Scope R_scope.

(** The map with the two buses on display. *)
Definition shownState : MapEffect.state :=
  {| MapEffect.cache := Samples.cacheA;
     MapEffect.displayVehicles := [Samples.shownA; Samples.shownB];
     MapEffect.realVehicleCount := 1 |}.

(** [busA] once it has driven on. *)
Definition busAmoved : vehicle :=
  {| id := Some "a1"; vehicleId := Some "LTZ1001"; lineName := Some "12";
     direction := Some "inbound"; bearing := Some "0";
     lat := Some 51.52; lon := Some (-0.1); heading := None;
     timeToStation := Some 60; currentLocation := None; lastUpdated := None;
     hasRealPosition := Some true; positionSource := None |}.

(** A position fetched for the selected [busA]. *)
Definition updateA : SelectedUpdate.updatedPosition :=
  {| SelectedUpdate.u_vehicleId := Some "LTZ1001";
     SelectedUpdate.u_lat := 51.501; SelectedUpdate.u_lon := -0.119;
     SelectedUpdate.u_heading := Some 90;
     SelectedUpdate.u_currentLocation := None;
     SelectedUpdate.u_timeToStation := Some 100;
     SelectedUpdate.u_lastUpdated := None;
     SelectedUpdate.u_hasRealPosition := Some true;
     SelectedUpdate.u_positionSource := Some "text_location" |}.

(** A vehicle that comes without vehicleId. *)
Definition anon : vehicle :=
  {| id := None; vehicleId := None; lineName := Some "38";
     direction := None; bearing := None;
     lat := Some 51.5; lon := Some (-0.12); heading := None;
     timeToStation := None; currentLocation := None; lastUpdated := None;
     hasRealPosition := None; positionSource := None |}.

(** A vehicle whose vehicleId reads like a fallback key. *)
Definition named : vehicle :=
  {| id := None; vehicleId := Some "vehicle-0"; lineName := Some "55";
     direction := None; bearing := None;
     lat := Some 51.6; lon := Some (-0.2); heading := None;
     timeToStation := None; currentLocation := None; lastUpdated := None;
     hasRealPosition := None; positionSource := None |}.

(** The entry made for [named] around the coordinates it reports. *)
Definition entryNamed : cachedPos := CachedPos 51.603 (-0.198) 51.6 (-0.2).

Definition cacheNamed : vehiclePositionCache := {[ "vehicle-0" := entryNamed ]}.

End Samples2.

(** * Properties *)

(** ** Samples *)

Example spreadMultiplier_samples :
  map spreadMultiplier [0; 1; 5; 6; 10; 11; 20; 21; 50; 51; 400]
  = [1; 1; 1; 3; 3; 5; 5; 7; 7; 10; 10].
Proof. reflexivity. Qed.

Example hashOf_samples :
  map Hash.hashOf ["LTZ1001"; "A"; "vehicle-0"; ""]
  = [1220276018; 65; 2310830543; 0].
Proof. vm_compute. reflexivity. Qed.

Example parseInt_samples :
  map JS.parseInt ["135"; " 90deg"; "-45"; "0"; "0x1A"; "12.7"; "abc"; ""]
  = [JS.Num 135; JS.Num 90; JS.Num (-45); JS.Num 0; JS.Num 26; JS.Num 12;
     JS.NaN; JS.NaN].
Proof. reflexivity. Qed.

Example fallbackId_sample : Processing.fallbackId 12 = "vehicle-12".
Proof. reflexivity. Qed.

(** ** Deciding guards on numbers *)

(** Split every [Rabs] and [Rmin] in sight, then close the goal by linear
    arithmetic. *)
Ltac split_R :=
  repeat match goal with
  | |- context [Rabs ?x] => unfold Rabs; destruct (Rcase_abs x)
  | H : context [Rabs ?x] |- _ => unfold Rabs in H; destruct (Rcase_abs x)
  | |- context [Rmin ?x ?y] => unfold Rmin; destruct (Rle_dec x y)
  | H : context [Rmin ?x ?y] |- _ => unfold Rmin in H; destruct (Rle_dec x y)
  end.

Ltac solve_R := split_R; try lra.

Lemma bool_decide_R_true (P : Prop) `{Decision P} : P → bool_decide P = true.
Proof. intros. by apply bool_decide_eq_true. Qed.

Lemma bool_decide_R_false (P : Prop) `{Decision P} : ¬ P → bool_decide P = false.
Proof. intros. by apply bool_decide_eq_false. Qed.

(** Evaluate a decided guard whose truth [solve_R] can establish. *)
Ltac eval_guard :=
  match goal with
  | |- context [bool_decide ?P] =>
      first [ rewrite (bool_decide_R_true P) by (first [done | solve_R])
            | rewrite (bool_decide_R_false P) by (first [done | intro; solve_R | solve_R]) ]
  | |- context [decide ?P] =>
      first [ rewrite (decide_True (P:=P)) by (first [done | solve_R])
            | rewrite (decide_False (P:=P)) by (first [done | intro; solve_R | solve_R]) ]
  end.

(** ** The hash *)

Lemma hashOf_nonneg (s : string) : 0 <= Hash.hashOf s.
Proof. unfold Hash.hashOf. lia. Qed.

Lemma jsrem_range (h m : Z) : 0 <= h → 0 < m → 0 <= Hash.jsrem h m < m.
Proof. intros. unfold Hash.jsrem. by apply Z.rem_bound_pos. Qed.

Lemma jsrem_range_R (h m : Z) :
  0 <= h → 0 < m → (0 <= IZR (Hash.jsrem h m) <= IZR m - 1)%R.
Proof.
  intros Hh Hm. destruct (jsrem_range h m Hh Hm) as [H0 H1].
  split.
  - by apply IZR_le.
  - rewrite <- minus_IZR. apply IZR_le. lia.
Qed.

(** ** Size of the hash *)

Lemma toInt32_range (z : Z) : - 2 ^ 31 <= Hash.toInt32 z < 2 ^ 31.
Proof.
  unfold Hash.toInt32.
  pose proof (Z.mod_pos_bound (z + 2 ^ 31) (2 ^ 32) ltac:(lia)). lia.
Qed.

Lemma round_bound (hash c : Z) :
  0 <= c < 256 → Z.abs (Hash.round hash c) <= Z.abs hash + (2 ^ 31 + 255).
Proof.
  intros Hc. unfold Hash.round, Hash.shl5.
  pose proof (toInt32_range (Z.shiftl (Hash.toInt32 hash) 5)). lia.
Qed.

Lemma fold_round_bound (codes : list Z) (hash : Z) :
  Forall (fun c => 0 <= c < 256) codes →
  Z.abs (fold_left Hash.round codes hash)
  <= Z.abs hash + Z.of_nat (length codes) * (2 ^ 31 + 255).
Proof.
  revert hash. induction codes as [|c codes IH]; intros hash Hall; simpl.
  - lia.
  - apply Forall_cons in Hall as [Hc Hall].
    pose proof (IH (Hash.round hash c) Hall).
    pose proof (round_bound hash c Hc). lia.
Qed.

(** The hash grows at most linearly with the length of the identifier, far
    below [2^53] for any identifier in use: the number arithmetic of the loop
    is exact. *)
Lemma hashOf_bound (s : string) :
  Hash.hashOf s <= Z.of_nat (String.length s) * (2 ^ 31 + 255).
Proof.
  unfold Hash.hashOf, Hash.rawHash.
  assert (length (Hash.charCodes s) = String.length s) as Hlen.
  { unfold Hash.charCodes. rewrite length_fmap.
    induction s as [|a s IH]; simpl; [done | by f_equal]. }
  pose proof (fold_round_bound (Hash.charCodes s) 0) as H.
  rewrite Hlen in H. simpl in H. apply H.
  unfold Hash.charCodes. apply Forall_fmap, Forall_forall. intros a _. simpl.
  pose proof (Ascii.nat_ascii_bounded a). lia.
Qed.

(** ** C10: spread multiplier *)

Lemma spreadMultiplier_cases (n : Z) :
  spreadMultiplier n =
    if decide (n <= 5) then 1
    else if decide (n <= 10) then 3
    else if decide (n <= 20) then 5
    else if decide (n <= 50) then 7 else 10.
Proof.
  unfold spreadMultiplier.
  repeat case_decide; repeat (case_match; try lia); lia.
Qed.

(** C10. The spread multiplier is a non-decreasing function of the number of
    vehicles sharing the coordinates, and takes exactly the values 1, 3, 5, 7
    and 10 on the counts at most 5, 6 to 10, 11 to 20, 21 to 50 and above 50. *)
Theorem spreadMultiplier_monotone_table :
  (∀ m n : Z, m <= n → spreadMultiplier m <= spreadMultiplier n)
  ∧ (∀ n : Z,
       (n <= 5 → spreadMultiplier n = 1)
       ∧ (6 <= n <= 10 → spreadMultiplier n = 3)
       ∧ (11 <= n <= 20 → spreadMultiplier n = 5)
       ∧ (21 <= n <= 50 → spreadMultiplier n = 7)
       ∧ (50 < n → spreadMultiplier n = 10)).
Proof.
  split.
  - intros m n Hmn. rewrite !spreadMultiplier_cases.
    repeat case_decide; lia.
  - intros n. rewrite spreadMultiplier_cases.
    repeat split; intros; repeat case_decide; lia.
Qed.

Lemma spreadMultiplier_monotone_table_witness :
  spreadMultiplier 7 <= spreadMultiplier 30
  ∧ spreadMultiplier 7 = 3 ∧ spreadMultiplier 30 = 7.
Proof.
  destruct spreadMultiplier_monotone_table as [Hmono Htab].
  split; [apply Hmono; lia |].
  split; [apply (Htab 7); lia | apply (Htab 30); lia].
Defined.

(** The multiplier as the processing step uses it, on the count of vehicles
    sharing the base coordinates: it grows with the list. *)
Lemma sameCoordCount_app (l1 l2 : list vehicle) (la lo : R) :
  Processing.sameCoordCount l1 la lo <= Processing.sameCoordCount (l1 ++ l2) la lo.
Proof.
  unfold Processing.sameCoordCount.
  rewrite List.filter_app, length_app. lia.
Qed.

Lemma spreadMultiplier_positive (n : Z) : 1 <= spreadMultiplier n <= 10.
Proof. rewrite spreadMultiplier_cases. repeat case_decide; lia. Qed.

(** ** The processing step: validity of coordinates and the cache *)

Section ProcessingFacts.

Import JS Processing.
Local Open Scope R_scope.

Variable selectedVehicle : option vehicle.
Variable vehicles : list vehicle.

Lemma hasValidCoords_true (v : vehicle) :
  hasValidCoords v = true ↔
  ∃ la lo, lat v = Some la ∧ lon v = Some lo ∧ 0.1 < Rabs la ∧ 0.1 < Rabs lo.
Proof.
  unfold hasValidCoords. split.
  - destruct (lat v) as [la|], (lon v) as [lo|]; try done.
    rewrite !andb_true_iff, !bool_decide_eq_true.
    intros [[[_ _] Hla] Hlo]. by exists la, lo.
  - intros (la & lo & -> & -> & Hla & Hlo).
    rewrite !andb_true_iff, !bool_decide_eq_true.
    repeat split; try done; intros ->; rewrite Rabs_R0 in *; lra.
Qed.

Lemma hasValidCoords_false (v : vehicle) :
  hasValidCoords v = false ↔ coordsMissingOrNearZero v.
Proof.
  rewrite <- not_true_iff_false, hasValidCoords_true.
  unfold coordsMissingOrNearZero. split.
  - intros Hn. destruct (lat v) as [la|]; [| by left].
    destruct (lon v) as [lo|]; [| by right; left].
    destruct (Rle_dec (Rabs la) 0.1) as [Hla|Hla]; [right; right; left; eauto |].
    destruct (Rle_dec (Rabs lo) 0.1) as [Hlo|Hlo]; [right; right; right; eauto |].
    exfalso. apply Hn. exists la, lo. repeat split; try done; lra.
  - intros H (la & lo & Ela & Elo & Hla & Hlo).
    destruct H as [H | [H | [(x & H & Hx) | (y & H & Hy)]]]; simplify_eq; lra.
Qed.

(** Every write of the processing step goes to the vehicle's own key. *)
Lemma position_cache_write (index : nat) (v : vehicle) (cache : vehiclePositionCache) :
  let r := position selectedVehicle vehicles index v cache in
  r.2 = cache
  ∨ (∃ baseLat baseLon,
       r.2 = <[vehicleIdOf v index := CachedPos r.1.1 r.1.2 baseLat baseLon]> cache).
Proof.
  unfold position. cbv zeta.
  repeat case_match; simpl; eauto.
Qed.

Lemma position_cached_valid (index : nat) (v : vehicle) (cache : vehiclePositionCache)
    (c : cachedPos) (la lo : R) :
  hasValidCoords v = true → lat v = Some la → lon v = Some lo →
  cache !! vehicleIdOf v index = Some c →
  Rabs (c_baseLat c - la) < 0.001 → Rabs (c_baseLon c - lo) < 0.001 →
  position selectedVehicle vehicles index v cache = ((c_lat c, c_lon c), cache).
Proof.
  intros Hv Hla Hlo Hc Hbl Hbo. unfold position. cbv zeta.
  rewrite Hv, Hla, Hlo, Hc.
  destruct (isSelected _ _); [done |].
  unfold cacheUsable.
  rewrite (bool_decide_R_true _ Hbl), (bool_decide_R_true _ Hbo). done.
Qed.

Lemma position_generated (index : nat) (v : vehicle) (cache : vehiclePositionCache) :
  hasValidCoords v = false →
  cache !! vehicleIdOf v index = None →
  position selectedVehicle vehicles index v cache =
    (generated (Hash.hashOf (vehicleIdOf v index)) index,
     <[vehicleIdOf v index :=
         CachedPos (generated (Hash.hashOf (vehicleIdOf v index)) index).1
                   (generated (Hash.hashOf (vehicleIdOf v index)) index).2
                   centralLat centralLon]> cache).
Proof.
  intros Hv Hc. unfold position. cbv zeta. rewrite Hv, Hc.
  by repeat case_match.
Qed.

Lemma processVehicle_position (index : nat) (v : vehicle) (cache : vehiclePositionCache) :
  let r := processVehicle selectedVehicle vehicles index v cache in
  (currentLat r.1, currentLon r.1) = (position selectedVehicle vehicles index v cache).1
  ∧ (p_lat r.1, p_lon r.1) = (position selectedVehicle vehicles index v cache).1
  ∧ r.2 = (position selectedVehicle vehicles index v cache).2.
Proof.
  unfold processVehicle.
  destruct (position selectedVehicle vehicles index v cache) as [[la lo] cache'].
  done.
Qed.

End ProcessingFacts.

(** The generated position stays in the box around central London. *)
Lemma generated_in_box (hash : Z) (index : nat) :
  0 <= hash →
  (Rabs ((Processing.generated hash index).1 - 51.5074) <= 0.075 + 0.02
   ∧ Rabs ((Processing.generated hash index).2 - -0.1278) <= 0.1 + 0.02)%R.
Proof.
  intros Hh. unfold Processing.generated, Processing.centralLat,
    Processing.centralLon, Processing.latSpread, Processing.lonSpread. simpl.
  pose proof (jsrem_range_R hash 1000 Hh ltac:(lia)) as H1.
  pose proof (jsrem_range_R (hash * 7) 1000 ltac:(lia) ltac:(lia)) as H7.
  pose proof (SIN_bound (INR index * 0.618)) as Hs.
  pose proof (COS_bound (INR index * 0.618)) as Hc.
  split; apply Rabs_le; lra.
Qed.

Lemma processVehicle_cache_write (selectedVehicle : option vehicle)
    (vehicles : list vehicle) (index : nat) (v : vehicle) (cache : vehiclePositionCache) :
  let r := Processing.processVehicle selectedVehicle vehicles index v cache in
  r.2 = cache
  ∨ (∃ e : cachedPos, r.2 = <[Processing.vehicleIdOf v index := e]> cache).
Proof.
  intros r.
  destruct (processVehicle_position selectedVehicle vehicles index v cache)
    as (_ & _ & Hc). fold r in Hc. rewrite Hc.
  destruct (position_cache_write selectedVehicle vehicles index v cache)
    as [H | (bla & blo & H)]; [by left | right; eauto].
Qed.

(** ** Reprocessing a whole list *)

Section WholeList.

Import JS Processing.
Local Open Scope R_scope.

Variable selectedVehicle : option vehicle.
Variable vehicles : list vehicle.

Lemma processFrom_cons (index : nat) (v : vehicle) (rest : list vehicle)
    (cache : vehiclePositionCache) :
  processFrom selectedVehicle vehicles index (v :: rest) cache =
    let r := processVehicle selectedVehicle vehicles index v cache in
    let rs := processFrom selectedVehicle vehicles (S index) rest r.2 in
    (r.1 :: rs.1, rs.2).
Proof.
  simpl. destruct (processVehicle _ _ _ _ _) as [d c1]. simpl.
  by destruct (processFrom _ _ _ _ _) as [ds c2].
Qed.

Lemma processFrom_length (rest : list vehicle) (index : nat) (cache : vehiclePositionCache) :
  length (processFrom selectedVehicle vehicles index rest cache).1 = length rest.
Proof.
  revert index cache. induction rest as [|v rest IH]; intros index cache; [done |].
  rewrite processFrom_cons. cbv zeta. simpl. by rewrite IH.
Qed.

(** Entries under keys that no vehicle of the list uses are not touched. *)
Lemma processFrom_frame (rest : list vehicle) (index : nat)
    (cache : vehiclePositionCache) (key : string) :
  (∀ j w, rest !! j = Some w → vehicleIdOf w (index + j) ≠ key) →
  (processFrom selectedVehicle vehicles index rest cache).2 !! key = cache !! key.
Proof.
  revert index cache. induction rest as [|v rest IH]; intros index cache Hkeys;
    [done |].
  rewrite processFrom_cons. cbv zeta. cbn [snd].
  rewrite IH.
  - destruct (processVehicle_cache_write selectedVehicle vehicles index v cache)
      as [-> | (e & ->)]; [done |].
    rewrite lookup_insert_ne; [done |].
    specialize (Hkeys 0%nat v eq_refl). by rewrite Nat.add_0_r in Hkeys.
  - intros j w Hj. specialize (Hkeys (S j) w Hj).
    by rewrite Nat.add_succ_r in Hkeys.
Qed.

(** Position stability over the list: a vehicle whose id is not used by an
    earlier element finds its entry as it was before the pass. *)
Lemma processFrom_stability (rest : list vehicle) (index : nat)
    (cache : vehiclePositionCache) (k : nat) (v : vehicle) (c : cachedPos) (la lo : R) :
  rest !! k = Some v →
  hasValidCoords v = true → lat v = Some la → lon v = Some lo →
  cache !! vehicleIdOf v (index + k) = Some c →
  Rabs (c_baseLat c - la) < 0.001 → Rabs (c_baseLon c - lo) < 0.001 →
  (∀ j w, (j < k)%nat → rest !! j = Some w →
          vehicleIdOf w (index + j) ≠ vehicleIdOf v (index + k)) →
  ∃ d, (processFrom selectedVehicle vehicles index rest cache).1 !! k = Some d
    ∧ currentLat d = c_lat c ∧ currentLon d = c_lon c.
Proof.
  revert index cache k.
  induction rest as [|w rest IH]; intros index cache k Hk Hv Hla Hlo Hc Hbl Hbo Hfresh;
    [done |].
  rewrite processFrom_cons. cbv zeta. cbn [fst].
  destruct k as [|k].
  - simpl in Hk. injection Hk as ->. rewrite Nat.add_0_r in Hc.
    eexists. split; [reflexivity |].
    destruct (processVehicle_position selectedVehicle vehicles index v cache)
      as (Hcur & _).
    rewrite (position_cached_valid _ _ _ _ _ c la lo) in Hcur by done.
    by injection Hcur.
  - simpl in Hk. rewrite Nat.add_succ_r in Hc.
    destruct (IH (S index) (processVehicle selectedVehicle vehicles index w cache).2
                k Hk Hv Hla Hlo) as (d & Hd & Hpos); try done.
    + destruct (processVehicle_cache_write selectedVehicle vehicles index w cache)
        as [-> | (e & ->)]; [done |].
      rewrite lookup_insert_ne; [done |].
      specialize (Hfresh 0%nat w ltac:(lia) eq_refl).
      by rewrite Nat.add_0_r, Nat.add_succ_r in Hfresh.
    + intros j u Hj Hu. specialize (Hfresh (S j) u ltac:(lia) Hu).
      by rewrite !Nat.add_succ_r in Hfresh.
    + exists d. done.
Qed.

(** If moreover no other element has the vehicle's id, the entry is still
    there, unchanged, after the pass. *)
Lemma processFrom_stability_cache (rest : list vehicle) (index : nat)
    (cache : vehiclePositionCache) (k : nat) (v : vehicle) (c : cachedPos) (la lo : R) :
  rest !! k = Some v →
  hasValidCoords v = true → lat v = Some la → lon v = Some lo →
  cache !! vehicleIdOf v (index + k) = Some c →
  Rabs (c_baseLat c - la) < 0.001 → Rabs (c_baseLon c - lo) < 0.001 →
  (∀ j w, j ≠ k → rest !! j = Some w →
          vehicleIdOf w (index + j) ≠ vehicleIdOf v (index + k)) →
  (processFrom selectedVehicle vehicles index rest cache).2
    !! vehicleIdOf v (index + k) = Some c.
Proof.
  revert index cache k.
  induction rest as [|w rest IH]; intros index cache k Hk Hv Hla Hlo Hc Hbl Hbo Hother;
    [done |].
  rewrite processFrom_cons. cbv zeta. cbn [snd].
  destruct k as [|k].
  - simpl in Hk. injection Hk as ->. rewrite Nat.add_0_r in *.
    destruct (processVehicle_position selectedVehicle vehicles index v cache)
      as (_ & _ & ->).
    rewrite (position_cached_valid _ _ _ _ _ c la lo) by done. cbn [snd].
    rewrite processFrom_frame; [done |].
    intros j u Hu. specialize (Hother (S j) u ltac:(lia) Hu).
    by rewrite Nat.add_succ_r in Hother.
  - simpl in Hk. rewrite Nat.add_succ_r in *.
    apply (IH (S index) _ k Hk Hv Hla Hlo); try done.
    + destruct (processVehicle_cache_write selectedVehicle vehicles index w cache)
        as [-> | (e & ->)]; [done |].
      rewrite lookup_insert_ne; [done |].
      specialize (Hother 0%nat w ltac:(lia) eq_refl).
      by rewrite Nat.add_0_r in Hother.
    + intros j u Hj Hu. specialize (Hother (S j) u ltac:(lia) Hu).
      by rewrite !Nat.add_succ_r in Hother.
Qed.

Lemma processVehicles_stability (cache : vehiclePositionCache) (k : nat) (v : vehicle)
    (c : cachedPos) (la lo : R) :
  vehicles !! k = Some v →
  hasValidCoords v = true → lat v = Some la → lon v = Some lo →
  cache !! vehicleIdOf v k = Some c →
  Rabs (c_baseLat c - la) < 0.001 → Rabs (c_baseLon c - lo) < 0.001 →
  (∀ j w, j ≠ k → vehicles !! j = Some w →
          vehicleIdOf w j ≠ vehicleIdOf v k) →
  (∃ d, (processVehicles selectedVehicle vehicles cache).1 !! k = Some d
     ∧ currentLat d = c_lat c ∧ currentLon d = c_lon c)
  ∧ (processVehicles selectedVehicle vehicles cache).2 !! vehicleIdOf v k = Some c.
Proof.
  intros Hk Hv Hla Hlo Hc Hbl Hbo Hother. split.
  - apply (processFrom_stability vehicles 0 cache k v c la lo); try done.
    intros j w Hj. apply Hother. lia.
  - by apply (processFrom_stability_cache vehicles 0 cache k v c la lo).
Qed.

(** A vehicle with missing coordinates never counts as sharing valid base
    coordinates, whether the missing value is [null] or [undefined]. *)
Lemma sharesCoords_missing (baseLat baseLon : R) (w : vehicle) :
  0.1 < Rabs baseLat → lat w = None → sharesCoords baseLat baseLon w = false.
Proof.
  intros Hb Hw. unfold sharesCoords. rewrite Hw. simpl.
  rewrite bool_decide_R_false; [done |].
  rewrite Rminus_0_l, Rabs_Ropp. lra.
Qed.

End WholeList.

(** ** C1: position stability *)

(** C1. A vehicle with valid reported coordinates whose cache entry has base
    coordinates within 0.001 of the reported ones is given exactly the cached
    display position, and the cache is left as it was. Over a whole list, in
    which no other vehicle has the same vehicleId, the vehicle is displayed
    at the position cached before the pass and its entry is the same after
    the pass. *)
Theorem position_stability (selectedVehicle : option vehicle)
    (vehicles : list vehicle) (index : nat) (v : vehicle)
    (cache : vehiclePositionCache) (c : cachedPos) (la lo : R) :
  Processing.hasValidCoords v = true →
  lat v = Some la → lon v = Some lo →
  cache !! Processing.vehicleIdOf v index = Some c →
  (Rabs (c_baseLat c - la) < 0.001)%R →
  (Rabs (c_baseLon c - lo) < 0.001)%R →
  let r := Processing.processVehicle selectedVehicle vehicles index v cache in
  (currentLat r.1 = c_lat c ∧ currentLon r.1 = c_lon c
   ∧ r.2 !! Processing.vehicleIdOf v index = Some c
   ∧ r.2 = cache)
  ∧ (vehicles !! index = Some v →
     (∀ j w, j ≠ index → vehicles !! j = Some w →
             Processing.vehicleIdOf w j ≠ Processing.vehicleIdOf v index) →
     let rs := Processing.processVehicles selectedVehicle vehicles cache in
     (∃ d, rs.1 !! index = Some d
        ∧ currentLat d = c_lat c ∧ currentLon d = c_lon c)
     ∧ rs.2 !! Processing.vehicleIdOf v index = Some c).
Proof.
  intros Hv Hla Hlo Hc Hbl Hbo r. split.
  - destruct (processVehicle_position selectedVehicle vehicles index v cache)
      as (Hcur & _ & Hcache).
    fold r in Hcur, Hcache.
    rewrite (position_cached_valid _ _ _ _ _ c la lo) in Hcur, Hcache by done.
    simpl in *. rewrite Hcache. by simplify_eq.
  - intros Hk Hother rs.
    by apply (processVehicles_stability selectedVehicle vehicles cache index v c la lo).
Qed.

Lemma position_stability_witness :
  let r := Processing.processVehicle None [Samples.busA; Samples.busB] 0
             Samples.busA Samples.cacheA in
  let rs := Processing.processVehicles None [Samples.busA; Samples.busB]
              Samples.cacheA in
  (currentLat r.1 = 51.503%R ∧ currentLon r.1 = (-0.118)%R
   ∧ r.2 !! "LTZ1001" = Some Samples.entryA
   ∧ r.2 = Samples.cacheA)
  ∧ (∃ d, rs.1 !! 0%nat = Some d
       ∧ currentLat d = 51.503%R ∧ currentLon d = (-0.118)%R)
  ∧ rs.2 !! "LTZ1001" = Some Samples.entryA.
Proof.
  destruct (position_stability None [Samples.busA; Samples.busB] 0 Samples.busA
              Samples.cacheA Samples.entryA 51.5 (-0.12)) as [Hstep Hlist].
  - apply hasValidCoords_true. exists 51.5%R, (-0.12)%R.
    repeat split; solve_R.
  - reflexivity.
  - reflexivity.
  - reflexivity.
  - simpl. solve_R.
  - simpl. solve_R.
  - split; [exact Hstep |]. apply Hlist; [reflexivity |].
    intros j w Hj Hw. destruct j as [|[|j]]; [done | | done].
    injection Hw as <-. discriminate.
Defined.

(** ** C5: fallback position generation *)

(** C5. A vehicle whose reported coordinates are missing, zero or within 0.1
    of zero, and which has no cache entry, is given a position that is a
    function of the vehicleId hash and the index only, inside the box
    51.5074 ± (0.075 + 0.02) by -0.1278 ± (0.1 + 0.02); any other run on the
    same vehicleId and index gives the same position. *)
Theorem fallback_generation (selectedVehicle : option vehicle)
    (vehicles : list vehicle) (index : nat) (v : vehicle) (cache : vehiclePositionCache) :
  Processing.coordsMissingOrNearZero v →
  cache !! Processing.vehicleIdOf v index = None →
  let r := Processing.processVehicle selectedVehicle vehicles index v cache in
  (currentLat r.1, currentLon r.1)
    = Processing.generated (Hash.hashOf (Processing.vehicleIdOf v index)) index
  ∧ (Rabs (currentLat r.1 - 51.5074) <= 0.075 + 0.02)%R
  ∧ (Rabs (currentLon r.1 - -0.1278) <= 0.1 + 0.02)%R
  ∧ ∀ (selectedVehicle' : option vehicle) (vehicles' : list vehicle)
      (v' : vehicle) (cache' : vehiclePositionCache),
      Processing.coordsMissingOrNearZero v' →
      cache' !! Processing.vehicleIdOf v' index = None →
      Processing.vehicleIdOf v' index = Processing.vehicleIdOf v index →
      let r' := Processing.processVehicle selectedVehicle' vehicles' index v' cache' in
      (currentLat r'.1, currentLon r'.1) = (currentLat r.1, currentLon r.1).
Proof.
  intros Hv Hc r.
  assert (Hgen : ∀ sel vs w (m : vehiclePositionCache),
            Processing.coordsMissingOrNearZero w →
            m !! Processing.vehicleIdOf w index = None →
            let q := Processing.processVehicle sel vs index w m in
            (currentLat q.1, currentLon q.1)
            = Processing.generated
                (Hash.hashOf (Processing.vehicleIdOf w index)) index).
  { intros sel vs w m Hw Hm q.
    destruct (processVehicle_position sel vs index w m) as (Hcur & _ & _).
    fold q in Hcur. rewrite Hcur.
    rewrite position_generated; [done | by apply hasValidCoords_false | done]. }
  pose proof (Hgen selectedVehicle vehicles v cache Hv Hc) as Hr. fold r in Hr.
  pose proof (generated_in_box (Hash.hashOf (Processing.vehicleIdOf v index)) index
                (hashOf_nonneg _)) as [Hla Hlo].
  rewrite <- Hr in Hla, Hlo. simpl in Hla, Hlo.
  repeat split; try done.
  intros sel' vs' v' m' Hv' Hc' Hid r'.
  unfold r'. rewrite (Hgen sel' vs' v' m' Hv' Hc'), Hid. by rewrite <- Hr.
Qed.

Lemma fallback_generation_witness :
  let r := Processing.processVehicle None [Samples.busA; Samples.ghost] 1
             Samples.ghost ∅ in
  (currentLat r.1, currentLon r.1) = Processing.generated 1300877586 1
  ∧ (Rabs (currentLat r.1 - 51.5074) <= 0.075 + 0.02)%R
  ∧ (Rabs (currentLon r.1 - -0.1278) <= 0.1 + 0.02)%R.
Proof.
  destruct (fallback_generation None [Samples.busA; Samples.ghost] 1
              Samples.ghost ∅) as (H1 & H2 & H3 & _).
  - left. reflexivity.
  - reflexivity.
  - split; [exact H1 | split; [exact H2 | exact H3]].
Defined.

(** ** C6: the cache is keyed by vehicle id *)

Lemma updateDisplay_lookup (sel : string) (u : SelectedUpdate.updatedPosition)
    (ds : list displayVehicle) (i : nat) :
  SelectedUpdate.updateDisplay sel u ds !! i =
    (fun d => if bool_decide (p_vehicleId d = Some sel)
              then SelectedUpdate.merge d u else d) <$> ds !! i.
Proof. unfold SelectedUpdate.updateDisplay. apply list_lookup_fmap. Qed.

(** The key of a vehicle is its [vehicleId] when that is a non-empty string,
    and [vehicle-<index>] otherwise. *)
Lemma vehicleIdOf_field (v : vehicle) (index : nat) :
  (∀ s, vehicleId v = Some s → s ≠ "" → Processing.vehicleIdOf v index = s)
  ∧ (vehicleId v = None ∨ vehicleId v = Some "" →
     Processing.vehicleIdOf v index = Processing.fallbackId index).
Proof.
  unfold Processing.vehicleIdOf, JS.orStr. split.
  - intros s -> Hs. by rewrite decide_False.
  - by intros [-> | ->].
Qed.

(** After the step the vehicle's key has an entry. *)
Lemma processVehicle_entry (selectedVehicle : option vehicle)
    (vehicles : list vehicle) (index : nat) (v : vehicle)
    (cache : vehiclePositionCache) :
  is_Some ((Processing.processVehicle selectedVehicle vehicles index v cache).2
             !! Processing.vehicleIdOf v index).
Proof.
  destruct (processVehicle_position selectedVehicle vehicles index v cache)
    as (_ & _ & ->).
  unfold Processing.position. cbv zeta.
  destruct (cache !! Processing.vehicleIdOf v index) as [c|] eqn:Hc;
    repeat case_match; cbn [snd]; rewrite ?lookup_insert_eq, ?Hc; by eexists.
Qed.

(** C6. Every cache write of the processing step stores under the vehicle's
    key, which is its vehicleId when that is a non-empty string and
    [vehicle-<index>] otherwise, and after the step that key has an entry; so
    the entry of any other key is untouched, and of two vehicles with
    distinct non-empty vehicleIds, caching the position of one leaves the
    entry of the other unchanged.  The selected-vehicle update writes the
    selected id's entry only and maps every display vehicle with another
    vehicleId to itself. *)
Theorem cache_keyed_by_vehicleId :
  (∀ (selectedVehicle : option vehicle) (vehicles : list vehicle) (index : nat)
     (v : vehicle) (cache : vehiclePositionCache),
     let r := Processing.processVehicle selectedVehicle vehicles index v cache in
     let key := Processing.vehicleIdOf v index in
     (∀ s, vehicleId v = Some s → s ≠ "" → key = s)
     ∧ (vehicleId v = None ∨ vehicleId v = Some "" →
        key = Processing.fallbackId index)
     ∧ is_Some (r.2 !! key)
     ∧ (r.2 = cache ∨ ∃ e : cachedPos, r.2 = <[key := e]> cache)
     ∧ (∀ other : string, other ≠ key → r.2 !! other = cache !! other)
     ∧ (∀ (w : vehicle) (j : nat) (s t : string),
          vehicleId v = Some s → s ≠ "" →
          vehicleId w = Some t → t ≠ "" → s ≠ t →
          r.2 !! Processing.vehicleIdOf w j = cache !! Processing.vehicleIdOf w j
          ∧ Processing.vehicleIdOf w j = t))
  ∧ (∀ (sel : string) (response : option SelectedUpdate.updatedPosition)
       (st : SelectedUpdate.mapState),
       let st' := SelectedUpdate.updateSelectedVehiclePosition sel response st in
       (∀ other : string,
          other ≠ sel →
          SelectedUpdate.cache st' !! other = SelectedUpdate.cache st !! other)
       ∧ length (SelectedUpdate.displayVehicles st')
           = length (SelectedUpdate.displayVehicles st)
       ∧ ∀ (i : nat) (d : displayVehicle),
           SelectedUpdate.displayVehicles st !! i = Some d →
           p_vehicleId d ≠ Some sel →
           SelectedUpdate.displayVehicles st' !! i = Some d).
Proof.
  split.
  - intros selectedVehicle vehicles index v cache r key.
    pose proof (processVehicle_cache_write selectedVehicle vehicles index v cache)
      as Hw. fold r key in Hw.
    destruct (vehicleIdOf_field v index) as [Hfield Hfallback].
    assert (Hframe : ∀ other : string, other ≠ key → r.2 !! other = cache !! other).
    { intros other Hne. destruct Hw as [-> | (e & ->)]; [done |].
      by rewrite lookup_insert_ne. }
    split; [exact Hfield |]. split; [exact Hfallback |].
    split; [apply processVehicle_entry |].
    split; [exact Hw |]. split; [exact Hframe |].
    intros w j s t Hs Hs' Ht Ht' Hst.
    destruct (vehicleIdOf_field w j) as [Hw_field _].
    rewrite (Hw_field t Ht Ht'). split; [| done].
    apply Hframe. unfold key. rewrite (Hfield s Hs Hs'). congruence.
  - intros sel [u|] st st'; subst st'; simpl; [| done].
    split; [| split].
    + intros other Hne. unfold SelectedUpdate.updateCache.
      by rewrite lookup_insert_ne.
    + unfold SelectedUpdate.updateDisplay. by rewrite length_fmap.
    + intros i d Hd Hne. rewrite updateDisplay_lookup, Hd. simpl.
      by rewrite bool_decide_eq_false_2.
Qed.

Lemma cache_keyed_by_vehicleId_witness :
  (Processing.processVehicle None [Samples.busA; Samples.busB] 1 Samples.busB
     Samples.cacheA).2 !! "LTZ1001" = Some Samples.entryA
  ∧ SelectedUpdate.cache
      (SelectedUpdate.updateSelectedVehiclePosition "LTZ1002"
         (Some Samples.updateB) Samples.stateAB) !! "LTZ1001"
    = Some Samples.entryA
  ∧ SelectedUpdate.displayVehicles
      (SelectedUpdate.updateSelectedVehiclePosition "LTZ1002"
         (Some Samples.updateB) Samples.stateAB) !! 0%nat
    = Some Samples.shownA.
Proof.
  destruct cache_keyed_by_vehicleId as [Hproc Hupd].
  split; [| split].
  - destruct (Hproc None [Samples.busA; Samples.busB] 1%nat Samples.busB
                Samples.cacheA) as (_ & _ & _ & _ & _ & Hother).
    destruct (Hother Samples.busA 0%nat "LTZ1002" "LTZ1001") as [Hframe _];
      try done.
  - destruct (Hupd "LTZ1002" (Some Samples.updateB) Samples.stateAB)
      as (Hframe & _ & _).
    rewrite (Hframe "LTZ1001"); [reflexivity | discriminate].
  - destruct (Hupd "LTZ1002" (Some Samples.updateB) Samples.stateAB)
      as (_ & _ & Hmap).
    apply Hmap; [reflexivity | discriminate].
Defined.

(** A vehicle without vehicleId at index 0 and a vehicle whose vehicleId is
    ["vehicle-0"] have different vehicleIds, yet caching the position of the
    first rewrites the entry of the second: the first is stored under its
    fallback key, which is the second one's vehicleId. *)
Lemma cache_keyed_by_vehicleId_counterexample :
  vehicleId Samples2.anon ≠ vehicleId Samples2.named
  ∧ vehicleId Samples2.named = Some "vehicle-0"
  ∧ Samples2.cacheNamed !! "vehicle-0" = Some Samples2.entryNamed
  ∧ (Processing.processVehicle None [Samples2.anon; Samples2.named] 0
       Samples2.anon Samples2.cacheNamed).2 !! "vehicle-0"
    ≠ Some Samples2.entryNamed.
Proof.
  split; [discriminate |]. split; [reflexivity |]. split; [reflexivity |].
  destruct (processVehicle_position None [Samples2.anon; Samples2.named] 0
              Samples2.anon Samples2.cacheNamed) as (_ & _ & ->).
  assert (Processing.hasValidCoords Samples2.anon = true) as Hvalid.
  { apply hasValidCoords_true. exists 51.5%R, (-0.12)%R.
    split; [done |]. split; [done |]. split; solve_R. }
  unfold Processing.position. cbv zeta. rewrite Hvalid.
  change (Processing.vehicleIdOf Samples2.anon 0) with "vehicle-0".
  change (Samples2.cacheNamed !! "vehicle-0") with (Some Samples2.entryNamed).
  cbn [lat lon Samples2.anon Processing.isSelected].
  assert (Processing.cacheUsable Samples2.entryNamed 51.5 (-0.12) = false) as ->.
  { unfold Processing.cacheUsable, Samples2.entryNamed. cbn [c_baseLat c_baseLon].
    rewrite (bool_decide_R_false (Rabs (51.6 - 51.5) < 0.001)%R); [done |].
    solve_R. }
  cbv zeta. cbn [snd]. rewrite lookup_insert_eq.
  intros [= _ _ Hbase _]. lra.
Qed.

(** ** C7: a failed fetch keeps what is displayed *)

(** C7. When the fetch throws or the response is not ok, the error is set
    while the vehicles list and the selected vehicle stay as they were; the
    error screen is rendered only when the vehicles list is empty, so with
    vehicles on display the grid stays. *)
Theorem fetch_failure_keeps_vehicles :
  (∀ (o : LiveVehicles.fetchOutcome) (st : LiveVehicles.state),
     (∀ data, o ≠ LiveVehicles.Ok data) →
     let st' := LiveVehicles.fetchVehicles o st in
     is_Some (LiveVehicles.error st')
     ∧ LiveVehicles.vehicles st' = LiveVehicles.vehicles st
     ∧ LiveVehicles.selectedVehicle st' = LiveVehicles.selectedVehicle st
     ∧ (LiveVehicles.vehicles st ≠ [] →
        LiveVehicles.render st'
        = LiveVehicles.Grid (LiveVehicles.vehicles st)
                            (LiveVehicles.selectedVehicle st)))
  ∧ (∀ (st : LiveVehicles.state) (message : string),
       LiveVehicles.render st = LiveVehicles.ErrorScreen message →
       LiveVehicles.vehicles st = [] ∧ LiveVehicles.error st = Some message
       ∧ message ≠ "").
Proof.
  split.
  - intros o st Hfail st'.
    assert (Hgrid : ∀ e : option string,
              LiveVehicles.vehicles st ≠ [] →
              LiveVehicles.render
                {| LiveVehicles.vehicles := LiveVehicles.vehicles st;
                   LiveVehicles.isInitialLoad := false;
                   LiveVehicles.error := e;
                   LiveVehicles.selectedVehicle := LiveVehicles.selectedVehicle st |}
              = LiveVehicles.Grid (LiveVehicles.vehicles st)
                                  (LiveVehicles.selectedVehicle st)).
    { intros e Hne. unfold LiveVehicles.render.
      cbn [LiveVehicles.isInitialLoad LiveVehicles.vehicles LiveVehicles.error
           LiveVehicles.selectedVehicle].
      case_bool_decide; [done | by rewrite andb_false_r]. }
    destruct o as [message| |data]; [| | by destruct (Hfail data)]; subst st';
      (split; [by eexists |]); (split; [reflexivity |]);
      (split; [reflexivity |]); apply Hgrid.
  - intros st message. unfold LiveVehicles.render.
    destruct (LiveVehicles.isInitialLoad st); [done |].
    destruct (LiveVehicles.error st) as [e|] eqn:He; simpl; [| done].
    case_bool_decide as Hmsg; simpl; [| done].
    case_bool_decide as Hv; simpl; [| done].
    intros [= <-]. done.
Qed.

Lemma fetch_failure_keeps_vehicles_witness :
  let st' := LiveVehicles.fetchVehicles LiveVehicles.NotOk Samples.liveState in
  LiveVehicles.error st' = Some "Failed to fetch vehicles"
  ∧ LiveVehicles.vehicles st' = [Samples.busA; Samples.busB]
  ∧ LiveVehicles.selectedVehicle st' = Some Samples.busA
  ∧ LiveVehicles.render st'
    = LiveVehicles.Grid [Samples.busA; Samples.busB] (Some Samples.busA)
  ∧ LiveVehicles.vehicles Samples.failedEmpty = [].
Proof.
  destruct fetch_failure_keeps_vehicles as [Hfail Hscreen].
  destruct (Hfail LiveVehicles.NotOk Samples.liveState) as (_ & Hv & Hs & Hr);
    [discriminate |].
  split; [reflexivity |].
  split; [exact Hv |].
  split; [exact Hs |].
  split; [apply Hr; discriminate |].
  apply (Hscreen Samples.failedEmpty "Failed to fetch vehicles"). reflexivity.
Defined.

(** ** The marker animation *)

Section Animation.

Import JS Modal.
Local Open Scope R_scope.

Lemma truthyNum_isSet (o : option R) : truthyNum o = true ↔ isSet o.
Proof.
  unfold truthyNum, isSet. destruct o as [x|].
  - rewrite bool_decide_eq_true. split.
    + intros Hx. by exists x.
    + by intros (x' & [= <-] & Hx).
  - split; [done |]. by intros (x & ? & _).
Qed.

Lemma shouldAnimate_true (prev : prevPos) (v : modalVehicle) :
  shouldAnimate prev v = true ↔ animationPrecondition prev v.
Proof.
  unfold shouldAnimate, animationPrecondition.
  rewrite !andb_true_iff, !bool_decide_eq_true, !truthyNum_isSet. tauto.
Qed.

Lemma effect_animate (prev : prevPos) (v : modalVehicle) :
  animationPrecondition prev v →
  ∃ next, nextStopCoords v = Some next
    ∧ effect prev v =
        (Animate (toNumber (prevLat prev), toNumber (prevLon prev)) next
           (timeProgress (prevTimeToStation prev) (currentTimeToStation v)),
         prev).
Proof.
  intros Hpre. pose proof Hpre as (_ & [next Hnext] & _).
  apply shouldAnimate_true in Hpre.
  exists next. split; [done |].
  unfold effect. by rewrite Hpre, Hnext.
Qed.

Lemma effect_not_animate (prev : prevPos) (v : modalVehicle) :
  ¬ animationPrecondition prev v →
  effect prev v =
    let updated :=
      {| prevLat := Some (currentLatOf v); prevLon := Some (currentLonOf v);
         prevTimeToStation := currentTimeToStation v |} in
    if positionChanged prev v
    then (SetDirectly (currentLatOf v, currentLonOf v), updated)
    else (NoChange, updated).
Proof.
  intros Hpre. rewrite <- shouldAnimate_true in Hpre.
  apply not_true_is_false in Hpre.
  unfold effect. rewrite Hpre. done.
Qed.

Lemma effect_animate_inv (prev : prevPos) (v : modalVehicle) :
  (∃ from to tp, (effect prev v).1 = Animate from to tp) →
  animationPrecondition prev v.
Proof.
  intros (from & to & tp & Heff).
  destruct (decide (shouldAnimate prev v = true)) as [H|H].
  - by apply shouldAnimate_true.
  - rewrite shouldAnimate_true in H.
    rewrite (effect_not_animate prev v H) in Heff. cbv zeta in Heff.
    by destruct (positionChanged prev v).
Qed.

Lemma eased_0 : eased 0 = 0.
Proof. unfold eased. lra. Qed.

Lemma eased_1 : eased 1 = 1.
Proof. unfold eased. lra. Qed.

Lemma eased_monotone (s t : R) : 0 <= s → s <= t → t <= 1 → eased s <= eased t.
Proof. intros. unfold eased. nra. Qed.

Lemma eased_range (t : R) : 0 <= t <= 1 → 0 <= eased t <= 1.
Proof. intros. unfold eased. nra. Qed.

Lemma frameT_range (start timestamp : R) :
  start <= timestamp → 0 <= frameT start timestamp <= 1.
Proof.
  intros Hle. unfold frameT, duration.
  assert (0 <= (timestamp - start) / 2000) by lra.
  solve_R.
Qed.

(** With a positive previous time the guard [|| 60] is not taken. *)
Lemma timeProgress_positive_prev (prevTts currentTts : R) :
  0 < prevTts →
  timeProgress prevTts currentTts = Rmin 1 ((prevTts - currentTts) / prevTts).
Proof.
  intros Hp. unfold timeProgress, orNum.
  rewrite decide_False by lra. done.
Qed.

Lemma timeProgress_range (prevTts currentTts : R) :
  0 < prevTts → currentTts < prevTts →
  0 < timeProgress prevTts currentTts <= 1.
Proof.
  intros Hp Hlt. rewrite timeProgress_positive_prev by done.
  assert (0 < (prevTts - currentTts) / prevTts)
    by (apply Rdiv_lt_0_compat; lra).
  solve_R.
Qed.

(** A bus that has not yet reached its stop and has come closer was away
    from it before. *)
Lemma animation_prev_positive (prev : prevPos) (v : modalVehicle) :
  animationPrecondition prev v → 0 <= currentTimeToStation v →
  0 < prevTimeToStation prev.
Proof. intros (Hlt & _) Hcur. lra. Qed.

(** The start time a frame works with is never after the frame, when the
    browser's timestamps do not go back. *)
Lemma step_position (from to : R * R) (tp : R) (start : option R) (timestamp : R) :
  (∀ s, start = Some s → s <= timestamp) →
  ∃ t, 0 <= t <= 1
    ∧ (step from to tp start timestamp).1.2 = framePos from to tp t
    ∧ ((step from to tp start timestamp).2 = false → t = 1).
Proof.
  intros Hmono. unfold step. cbv zeta. simpl.
  set (start' := if truthyNum start then toNumber start else timestamp).
  assert (start' <= timestamp) as Hle.
  { subst start'. destruct start as [s|]; simpl; [| lra].
    case_bool_decide; [by apply Hmono | lra]. }
  exists (frameT start' timestamp).
  pose proof (frameT_range start' timestamp Hle) as Hr.
  split; [done |]. split; [done |].
  rewrite bool_decide_eq_false. lra.
Qed.

End Animation.

(** ** C4: when the animation runs *)

(** C4. The animation toward the next stop runs exactly when the previous
    timeToStation is strictly greater than the current one, nextStopCoords is
    present and the previous latitude and longitude are both set; in every
    other case in which the position changed, the marker is set directly to
    the new coordinates. *)
Theorem animation_trigger (prev : Modal.prevPos) (v : Modal.modalVehicle) :
  ((∃ from to tp, (Modal.effect prev v).1 = Modal.Animate from to tp)
   ↔ Modal.animationPrecondition prev v)
  ∧ (¬ Modal.animationPrecondition prev v →
     (Some (Modal.currentLatOf v) ≠ Modal.prevLat prev
      ∨ Some (Modal.currentLonOf v) ≠ Modal.prevLon prev) →
     (Modal.effect prev v).1
     = Modal.SetDirectly (Modal.currentLatOf v, Modal.currentLonOf v)).
Proof.
  split; [split |].
  - apply effect_animate_inv.
  - intros Hpre. destruct (effect_animate prev v Hpre) as (next & _ & ->).
    simpl. eauto.
  - intros Hpre Hchanged. rewrite (effect_not_animate prev v Hpre). cbv zeta.
    assert (Modal.positionChanged prev v = true) as ->; [| done].
    unfold Modal.positionChanged.
    rewrite orb_true_iff, !bool_decide_eq_true. done.
Qed.

Lemma animation_trigger_witness :
  (∃ from to tp,
     (Modal.effect Samples.prevStop Samples.closer).1 = Modal.Animate from to tp)
  ∧ (Modal.effect Samples.prevStop Samples.moved).1
    = Modal.SetDirectly (51.52%R, (-0.1)%R).
Proof.
  split.
  - apply (animation_trigger Samples.prevStop Samples.closer).
    unfold Modal.animationPrecondition, Modal.isSet. simpl.
    split; [| split; [| split]].
    + unfold Modal.currentTimeToStation, JS.orNum. simpl.
      rewrite decide_False by lra. lra.
    + by eexists.
    + eexists. split; [reflexivity | lra].
    + eexists. split; [reflexivity | lra].
  - assert (Modal.currentLatOf Samples.moved = 51.52%R) as Hla.
    { unfold Modal.currentLatOf, JS.orNum. simpl. rewrite decide_False by lra. done. }
    assert (Modal.currentLonOf Samples.moved = (-0.1)%R) as Hlo.
    { unfold Modal.currentLonOf, JS.orNum. simpl. rewrite decide_False by lra. done. }
    rewrite <- Hla, <- Hlo.
    apply (animation_trigger Samples.prevStop Samples.moved).
    + intros (_ & [next Hnext] & _). discriminate Hnext.
    + left. rewrite Hla. simpl. intros [= H]. lra.
Defined.

(** ** C3: eased interpolation *)

Section Easing.

Import JS Modal.
Local Open Scope R_scope.

Variables (from to : R * R) (tp : R).

Lemma framePos_onSegment (t : R) :
  0 <= t <= 1 → 0 <= tp <= 1 → onSegment from to (framePos from to tp t).
Proof.
  intros Ht Htp. pose proof (eased_range t Ht) as He.
  exists (eased t * tp). split; [nra |].
  unfold framePos. f_equal; lra.
Qed.

Lemma framePos_end : framePos from to tp 1 = endPos from to tp.
Proof. unfold framePos, endPos. rewrite eased_1. f_equal; lra. Qed.

Lemma step_last (start : option R) (timestamp : R) :
  (step from to tp start timestamp).2 = false →
  (step from to tp start timestamp).1.2 = endPos from to tp.
Proof.
  unfold step. cbv zeta. simpl. rewrite bool_decide_eq_false. intros Hge.
  set (t := frameT _ _) in *.
  assert (t = 1) as ->; [| apply framePos_end].
  subst t. unfold frameT in *. solve_R.
Qed.

Lemma runFrames_cons (start : option R) (ts : R) (rest : list R) (pos : R * R) :
  runFrames from to tp start (ts :: rest) pos =
    if (step from to tp start ts).2
    then runFrames from to tp (step from to tp start ts).1.1 rest
           (step from to tp start ts).1.2
    else ((step from to tp start ts).1.2, false).
Proof. reflexivity. Qed.

(** When the frames stop, the marker is at the end position. *)
Lemma runFrames_end (timestamps : list R) (start : option R) (pos p : R * R) :
  runFrames from to tp start timestamps pos = (p, false) → p = endPos from to tp.
Proof.
  revert start pos. induction timestamps as [|ts rest IH]; intros start pos.
  - simpl. intros [= _ ?].
  - rewrite runFrames_cons.
    pose proof (step_last start ts) as Hlast.
    destruct ((step from to tp start ts).2).
    + apply IH.
    + intros [= <-]. by apply Hlast.
Qed.

(** Once a start time is fixed, a frame 2000 ms later ends the animation. *)
Lemma runFrames_finishes_from (s : R) (rest : list R) (pos : R * R) (tend : R) :
  s ≠ 0 → tend ∈ rest → s + 2000 <= tend →
  (runFrames from to tp (Some s) rest pos).2 = false.
Proof.
  intros Hs Hin Hend. revert pos.
  induction rest as [|ts rest IH]; intros pos; [by apply elem_of_nil in Hin |].
  rewrite runFrames_cons. unfold step. cbv zeta. simpl.
  rewrite (bool_decide_R_true (s ≠ 0) Hs).
  case_bool_decide as Hlt; [| done].
  apply IH. apply elem_of_cons in Hin as [Heq | Hin]; [| done].
  exfalso. subst ts. unfold frameT, duration in Hlt.
  assert (1 <= (tend - s) / 2000) by lra.
  revert Hlt. solve_R.
Qed.

Lemma runFrames_finishes (t0 : R) (rest : list R) (pos : R * R) (tend : R) :
  t0 ≠ 0 → tend ∈ rest → t0 + 2000 <= tend →
  runFrames from to tp None (t0 :: rest) pos = (endPos from to tp, false).
Proof.
  intros Ht0 Hin Hend.
  pose proof (runFrames_end (t0 :: rest) None pos) as Hfin.
  assert ((runFrames from to tp None (t0 :: rest) pos).2 = false) as Hstop.
  { rewrite runFrames_cons. unfold step. cbv zeta. simpl.
    assert (frameT t0 t0 = 0) as ->.
    { unfold frameT, duration. replace ((t0 - t0) / 2000) with 0 by lra. solve_R. }
    rewrite bool_decide_R_true by lra.
    by apply (runFrames_finishes_from t0 rest _ tend). }
  destruct (runFrames from to tp None (t0 :: rest) pos) as [p b].
  simpl in Hstop. subst b. by rewrite (Hfin p eq_refl).
Qed.

End Easing.

(** C3, as the code has it. The easing [eased t = 1 - (1 - t)^2] is
    non-decreasing on [0, 1] with [eased 0 = 0] and [eased 1 = 1]. When the
    animation runs from a positive previous timeToStation, its time progress
    is [min(1, (prev - current) / prev)], every frame puts the marker on the
    segment from the previous position to the next stop, and the frames end
    with the marker at [prev + (next - prev) * timeProgress]. *)
Theorem eased_interpolation (prev : Modal.prevPos) (v : Modal.modalVehicle)
    (from to : R * R) (tp : R) :
  (0 < Modal.prevTimeToStation prev)%R →
  (Modal.effect prev v).1 = Modal.Animate from to tp →
  (∀ s t : R, (0 <= s)%R → (s <= t)%R → (t <= 1)%R →
     (Modal.eased s <= Modal.eased t)%R)
  ∧ Modal.eased 0 = 0%R ∧ Modal.eased 1 = 1%R
  ∧ Modal.prevLat prev = Some from.1 ∧ Modal.prevLon prev = Some from.2
  ∧ Modal.nextStopCoords v = Some to
  ∧ tp = Rmin 1 ((Modal.prevTimeToStation prev - Modal.currentTimeToStation v)
                 / Modal.prevTimeToStation prev)
  ∧ (0 < tp <= 1)%R
  ∧ (∀ (start : option R) (timestamp : R),
       (∀ s, start = Some s → (s <= timestamp)%R) →
       Modal.onSegment from to (Modal.step from to tp start timestamp).1.2)
  ∧ (∀ (timestamps : list R) (pos p : R * R),
       Modal.runFrames from to tp None timestamps pos = (p, false) →
       p = ((from.1 + (to.1 - from.1) * tp)%R, (from.2 + (to.2 - from.2) * tp)%R))
  ∧ (∀ (t0 tend : R) (rest : list R) (pos : R * R),
       t0 ≠ 0%R → tend ∈ rest → (t0 + 2000 <= tend)%R →
       (Modal.runFrames from to tp None (t0 :: rest) pos).2 = false).
Proof.
  intros Hprev Heff.
  assert (Modal.animationPrecondition prev v) as Hpre.
  { apply effect_animate_inv. eauto. }
  destruct (effect_animate prev v Hpre) as (next & Hnext & Heq).
  rewrite Heq in Heff. simpl in Heff. injection Heff as <- <- <-.
  destruct Hpre as (Hlt & _ & (x & Hx & _) & (y & Hy & _)).
  pose proof (timeProgress_range _ _ Hprev Hlt) as Htp.
  split; [exact eased_monotone |].
  split; [exact eased_0 |]. split; [exact eased_1 |].
  split; [by rewrite Hx |]. split; [by rewrite Hy |]. split; [done |].
  split; [by apply timeProgress_positive_prev |].
  split; [done |].
  set (from := (JS.toNumber (Modal.prevLat prev), JS.toNumber (Modal.prevLon prev))).
  split; [| split].
  - intros start timestamp Hmono.
    destruct (step_position from next
                (Modal.timeProgress (Modal.prevTimeToStation prev)
                   (Modal.currentTimeToStation v)) start timestamp Hmono)
      as (t & Ht & -> & _).
    apply framePos_onSegment; [done | lra].
  - intros timestamps pos p Hrun. by apply runFrames_end in Hrun.
  - intros t0 tend rest pos Ht0 Hin Hend.
    by rewrite (runFrames_finishes _ _ _ t0 rest pos tend).
Qed.

Lemma eased_interpolation_witness :
  Modal.onSegment (51.5%R, (-0.1)%R) (51.51%R, (-0.11)%R)
    (Modal.step (51.5%R, (-0.1)%R) (51.51%R, (-0.11)%R)
       (Modal.timeProgress 120 90) (Some 1000%R) 1500%R).1.2
  ∧ Modal.timeProgress 120 90 = Rmin 1 ((120 - 90) / 120).
Proof.
  assert (Modal.currentTimeToStation Samples.closer = 90%R) as Hcur.
  { unfold Modal.currentTimeToStation, JS.orNum. simpl.
    rewrite decide_False by lra. done. }
  assert ((Modal.effect Samples.prevStop Samples.closer).1
          = Modal.Animate (51.5%R, (-0.1)%R) (51.51%R, (-0.11)%R)
              (Modal.timeProgress 120 90)) as Heff.
  { unfold Modal.effect.
    assert (Modal.shouldAnimate Samples.prevStop Samples.closer = true) as ->.
    { apply shouldAnimate_true.
      unfold Modal.animationPrecondition, Modal.isSet. rewrite Hcur. simpl.
      split; [lra |]. split; [by eexists |].
      split; eexists; (split; [reflexivity | lra]). }
    simpl. by rewrite Hcur. }
  destruct (eased_interpolation Samples.prevStop Samples.closer
              (51.5%R, (-0.1)%R) (51.51%R, (-0.11)%R) (Modal.timeProgress 120 90))
    as (_ & _ & _ & _ & _ & _ & Htp & _ & Hseg & _).
  - simpl. lra.
  - exact Heff.
  - split.
    + apply Hseg. intros s [= <-]. lra.
    + rewrite Htp, Hcur. reflexivity.
Defined.

(** With negative times to station the animation still runs, and its time
    progress is negative: the marker ends behind the previous position, off
    the segment toward the next stop. *)
Lemma eased_interpolation_counterexample :
  ∃ from to tp,
    (Modal.effect Samples.prevOverdue Samples.moreOverdue).1
      = Modal.Animate from to tp
    ∧ tp = (-3)%R
    ∧ Modal.framePos from to tp 1 = (51.47%R, (-0.07)%R)
    ∧ ¬ Modal.onSegment from to (Modal.framePos from to tp 1).
Proof.
  assert (Modal.currentTimeToStation Samples.moreOverdue = (-40)%R) as Hcur.
  { unfold Modal.currentTimeToStation, JS.orNum. simpl.
    rewrite decide_False by lra. done. }
  assert (Modal.timeProgress (-10) (-40) = (-3)%R) as Htp.
  { unfold Modal.timeProgress, JS.orNum. rewrite decide_False by lra.
    replace ((-10 - -40) / -10)%R with (-3)%R by lra. solve_R. }
  exists (51.5%R, (-0.1)%R), (51.51%R, (-0.11)%R), (-3)%R.
  split; [| split; [done | split]].
  - unfold Modal.effect.
    assert (Modal.shouldAnimate Samples.prevOverdue Samples.moreOverdue = true) as ->.
    { apply shouldAnimate_true.
      unfold Modal.animationPrecondition, Modal.isSet. rewrite Hcur. simpl.
      split; [lra |]. split; [by eexists |].
      split; eexists; (split; [reflexivity | lra]). }
    simpl. by rewrite Hcur, Htp.
  - unfold Modal.framePos. rewrite eased_1. simpl. f_equal; lra.
  - unfold Modal.framePos. rewrite eased_1. simpl.
    intros (l & Hl & [= H1 H2]). lra.
Qed.

(** With a previous time of zero the guard [|| 60] sets the scale. *)
Lemma timeProgress_zero_prev : Modal.timeProgress 0 (-30) = (1 / 2)%R.
Proof.
  unfold Modal.timeProgress, JS.orNum. rewrite decide_True by done.
  replace ((0 - -30) / 60)%R with (1 / 2)%R by lra. solve_R.
Qed.

(** ** C9: heading *)

Section Heading.

Import JS Processing.
Local Open Scope R_scope.

Lemma Int_part_IZR (z : Z) : Int_part (IZR z) = z.
Proof. symmetry. apply Int_part_spec. lra. Qed.

Lemma truthyNum_zero : truthyNum (Some 0) = false.
Proof. simpl. apply bool_decide_eq_false_2. tauto. Qed.

Lemma floor_integer (n : jsnum) : n = NaN ∨ isInteger (floor n).
Proof. destruct n as [|x]; [by left | right]. simpl. eauto. Qed.

Lemma floor_NaN (n : jsnum) : floor n = NaN ↔ n = NaN.
Proof. by destruct n. Qed.

Lemma parseInt_integer (s : string) :
  parseInt s = NaN ∨ ∃ z : Z, parseInt s = Num (IZR z).
Proof.
  unfold parseInt.
  destruct (match skipWhite _ with "-"%char :: l' => _ | _ => _ end) as [sign l].
  destruct (radixOf l) as [radix l'].
  destruct (digits radix None l') as [n|]; eauto.
Qed.

Lemma floor_parseInt (s : string) : floor (parseInt s) = parseInt s.
Proof.
  destruct (parseInt_integer s) as [-> | [z ->]]; [done |].
  simpl. by rewrite Int_part_IZR.
Qed.

Lemma rawHeading_reported (v : vehicle) (h : R) :
  heading v = Some h → h ≠ 0 → rawHeading v = Num h.
Proof.
  intros Hh Hne. unfold rawHeading. rewrite Hh. simpl.
  by rewrite bool_decide_eq_true_2.
Qed.

Lemma rawHeading_bearing (v : vehicle) (b : string) :
  truthyNum (heading v) = false → bearing v = Some b → b ≠ "" →
  rawHeading v = parseInt b.
Proof.
  intros Hh Hb Hne. unfold rawHeading. rewrite Hh, Hb. simpl.
  by rewrite bool_decide_eq_true_2.
Qed.

Lemma rawHeading_direction (v : vehicle) :
  truthyNum (heading v) = false → truthyStr (bearing v) = false →
  rawHeading v = if bool_decide (direction v = Some "inbound")
                 then Num 180 else Num 0.
Proof.
  intros Hh Hb. unfold rawHeading. rewrite Hh, Hb. by case_bool_decide.
Qed.

Lemma processVehicle_heading (selectedVehicle : option vehicle)
    (vehicles : list vehicle) (index : nat) (v : vehicle) (cache : vehiclePositionCache) :
  p_heading (processVehicle selectedVehicle vehicles index v cache).1
  = Some (floor (rawHeading v)).
Proof.
  unfold processVehicle.
  by destruct (position selectedVehicle vehicles index v cache) as [[la lo] c].
Qed.

End Heading.

(** C9, as the code has it. The processed heading is the floor of: the
    reported heading when that is truthy; otherwise, when the bearing string
    is non-empty, [parseInt] of the bearing, whatever it parses to (also [0],
    also [NaN]); otherwise 180 for direction ['inbound'] and 0 for any other.
    It is an integer unless the bearing that was taken does not parse, and a
    reported heading of 0 falls through to the bearing or the default. *)
Theorem heading_normalization (selectedVehicle : option vehicle)
    (vehicles : list vehicle) (index : nat) (v : vehicle) (cache : vehiclePositionCache) :
  ∃ n : JS.jsnum,
    p_heading (Processing.processVehicle selectedVehicle vehicles index v cache).1
      = Some n
    ∧ (∀ h : R, heading v = Some h → h ≠ 0%R → n = JS.Num (IZR (Int_part h)))
    ∧ (∀ b : string,
         JS.truthyNum (heading v) = false → bearing v = Some b → b ≠ "" →
         n = JS.parseInt b)
    ∧ (JS.truthyNum (heading v) = false → JS.truthyStr (bearing v) = false →
       n = if bool_decide (direction v = Some "inbound")
           then JS.Num 180 else JS.Num 0)
    ∧ (JS.isInteger n
       ∨ n = JS.NaN
         ∧ JS.truthyNum (heading v) = false
         ∧ ∃ b : string, bearing v = Some b ∧ b ≠ "" ∧ JS.parseInt b = JS.NaN).
Proof.
  exists (JS.floor (Processing.rawHeading v)).
  split; [apply processVehicle_heading |].
  split; [| split; [| split]].
  - intros h Hh Hne. by rewrite (rawHeading_reported v h Hh Hne).
  - intros b Hh Hb Hne.
    by rewrite (rawHeading_bearing v b Hh Hb Hne), floor_parseInt.
  - intros Hh Hb. rewrite (rawHeading_direction v Hh Hb).
    case_bool_decide; simpl; by rewrite Int_part_IZR.
  - destruct (floor_integer (Processing.rawHeading v)) as [Hnan | Hint];
      [right | by left].
    rewrite Hnan. split; [done |].
    unfold Processing.rawHeading in Hnan.
    destruct (JS.truthyNum (heading v)) eqn:Hh; [done |]. split; [done |].
    destruct (JS.truthyStr (bearing v)) eqn:Hb;
      [| by case_bool_decide].
    destruct (bearing v) as [b|]; [| done]. simpl in Hb, Hnan.
    apply bool_decide_eq_true in Hb. eauto.
Qed.

Lemma heading_normalization_witness :
  p_heading (Processing.processVehicle None [Samples.busA; Samples.busB] 1
               Samples.busB ∅).1 = Some (JS.Num 0)
  ∧ p_heading (Processing.processVehicle None [Samples.northbound] 0
                 Samples.northbound ∅).1 = Some (JS.Num 47).
Proof.
  split.
  - destruct (heading_normalization None [Samples.busA; Samples.busB] 1
                Samples.busB ∅) as (n & Hn & _ & _ & Hdir & _).
    rewrite Hn, Hdir; [reflexivity | apply truthyNum_zero | reflexivity].
  - destruct (heading_normalization None [Samples.northbound] 0
                Samples.northbound ∅) as (n & Hn & _ & Hb & _ & _).
    rewrite Hn, (Hb "47.5");
      [reflexivity | apply truthyNum_zero | reflexivity | discriminate].
Defined.

(** A bus whose bearing string is ["0"], heading inbound: the code takes the
    parsed bearing 0, while the first truthy value among heading, parsed
    bearing and default is the default 180. *)
Lemma heading_normalization_counterexample :
  p_heading (Processing.processVehicle None [Samples.busA] 0 Samples.busA ∅).1
    = Some (JS.Num 0)
  ∧ Processing.claimedHeading Samples.busA = JS.Num 180
  ∧ JS.Num 0 ≠ JS.Num 180.
Proof.
  split; [| split].
  - rewrite processVehicle_heading.
    rewrite (rawHeading_bearing Samples.busA "0"), ?floor_parseInt; done.
  - unfold Processing.claimedHeading, Processing.parsedBearing, JS.firstTruthy.
    simpl. rewrite bool_decide_eq_false_2 by tauto. simpl.
    by rewrite Int_part_IZR.
  - intros [= H]. lra.
Qed.

(** A bearing that does not start with a digit gives a heading that is not a
    number. *)
Lemma heading_not_a_number :
  p_heading (Processing.processVehicle None [Samples.unparsed] 0
               Samples.unparsed ∅).1 = Some JS.NaN.
Proof. rewrite processVehicle_heading. reflexivity. Qed.

(** ** Polynomials and their derivatives *)

Section PolyFacts.

Import Poly.
Local Open Scope R_scope.

Lemma peval_scaleFrom_succ (p : list Z) (k : Z) (x : R) :
  peval (scaleFrom (k + 1) p) x = peval (scaleFrom k p) x + peval p x.
Proof.
  revert k. induction p as [|c q IH]; intros k; simpl; [lra |].
  rewrite IH, !mult_IZR, plus_IZR. ring.
Qed.

Lemma peval_pderiv_cons (c : Z) (q : list Z) (x : R) :
  peval (pderiv (c :: q)) x = peval q x + x * peval (pderiv q) x.
Proof.
  simpl. rewrite (peval_scaleFrom_succ q 0).
  destruct q as [|d q]; simpl; [ring |].
  change (0 + 1)%Z with 1%Z. rewrite Z.mul_0_l. ring.
Qed.

Lemma peval_derivable (p : list Z) (x : R) :
  derivable_pt_lim (peval p) x (peval (pderiv p) x).
Proof.
  induction p as [|c q IH].
  - simpl. apply (derivable_pt_lim_const 0).
  - rewrite peval_pderiv_cons.
    apply (derivable_pt_lim_ext (fct_cte (IZR c) + Datatypes.id * peval q)%F); [done |].
    replace (peval q x + x * peval (pderiv q) x)
      with (0 + (1 * peval q x + Datatypes.id x * peval (pderiv q) x))
      by (unfold Datatypes.id; lra).
    apply derivable_pt_lim_plus; [apply derivable_pt_lim_const |].
    apply derivable_pt_lim_mult; [apply derivable_pt_lim_id | apply IH].
Qed.


(** *** Coefficients of iterated derivatives *)

Lemma peval_0 (p : list Z) : peval p 0 = IZR (nth 0 p 0%Z).
Proof. destruct p as [|c q]; simpl; [done | ring]. Qed.

Lemma nth_scaleFrom (p : list Z) (m : Z) (k : nat) :
  nth k (scaleFrom m p) 0%Z = ((m + Z.of_nat k) * nth k p 0%Z)%Z.
Proof.
  revert m k. induction p as [|c q IH]; intros m k.
  - destruct k; simpl; lia.
  - destruct k as [|k]; simpl; [f_equal; lia |].
    rewrite IH. f_equal. lia.
Qed.

Lemma nth_pderiv (p : list Z) (k : nat) :
  nth k (pderiv p) 0%Z = (Z.of_nat (S k) * nth (S k) p 0%Z)%Z.
Proof.
  destruct p as [|c q]; simpl pderiv.
  - destruct k; simpl; lia.
  - rewrite nth_scaleFrom. simpl nth. f_equal. lia.
Qed.

Lemma nth_iter_pderiv (j : nat) (p : list Z) (k : nat) :
  (Z.of_nat (fact k) * nth k (Nat.iter j pderiv p) 0)%Z
  = (Z.of_nat (fact (k + j)) * nth (k + j) p 0)%Z.
Proof.
  revert k. induction j as [|j IH]; intros k.
  - simpl. by rewrite Nat.add_0_r.
  - simpl Nat.iter. rewrite nth_pderiv.
    replace (k + S j)%nat with (S k + j)%nat by lia.
    rewrite <- IH.
    change (fact (S k)) with ((S k) * fact k)%nat. lia.
Qed.

Lemma fact_divide (n j : nat) : (n <= j)%nat → (Z.of_nat (fact n) | Z.of_nat (fact j))%Z.
Proof.
  induction 1 as [|j Hle IH]; [done |].
  change (fact (S j)) with ((S j) * fact j)%nat.
  rewrite Nat2Z.inj_mul. by apply Z.divide_mul_r.
Qed.

(** The derivatives at 0 of a polynomial whose [n] lowest coefficients
    vanish are multiples of [n!]. *)
Lemma iter_pderiv_0_divide (n : nat) (p : list Z) (j : nat) :
  (∀ k, (k < n)%nat → nth k p 0%Z = 0%Z) →
  (Z.of_nat (fact n) | nth 0 (Nat.iter j pderiv p) 0)%Z.
Proof.
  intros Hlow. pose proof (nth_iter_pderiv j p 0) as H.
  simpl in H. rewrite Z.mul_1_l in H.
  replace (nth 0 (Nat.iter j pderiv p) 0%Z)
    with (Z.of_nat (fact j) * nth j p 0)%Z by lia.
  destruct (Nat.lt_ge_cases j n) as [Hlt | Hge].
  - rewrite (Hlow j Hlt), Z.mul_0_r. apply Z.divide_0_r.
  - apply Z.divide_mul_l. by apply fact_divide.
Qed.

Lemma length_scaleFrom (p : list Z) (m : Z) : length (scaleFrom m p) = length p.
Proof. revert m. induction p as [|c q IH]; intros m; simpl; [done | by rewrite IH]. Qed.

Lemma length_pderiv (p : list Z) : length (pderiv p) = pred (length p).
Proof. destruct p as [|c q]; simpl; [done | apply length_scaleFrom]. Qed.

(** *** Sums, products and the polynomial of the argument *)

Lemma peval_padd (p q : list Z) (x : R) : peval (padd p q) x = peval p x + peval q x.
Proof.
  revert q. induction p as [|c p IH]; intros [|d q]; simpl; try ring.
  rewrite IH, plus_IZR. ring.
Qed.

Lemma peval_map_mul (c : Z) (q : list Z) (x : R) :
  peval (map (Z.mul c) q) x = IZR c * peval q x.
Proof.
  induction q as [|d q IH]; simpl; [ring |].
  rewrite IH, mult_IZR. ring.
Qed.

Lemma peval_pmul (p q : list Z) (x : R) : peval (pmul p q) x = peval p x * peval q x.
Proof.
  induction p as [|c p IH]; simpl; [ring |].
  rewrite peval_padd, peval_map_mul. simpl. rewrite IH. ring.
Qed.

Lemma peval_shift (n : nat) (q : list Z) (x : R) :
  peval (repeat 0%Z n ++ q) x = x ^ n * peval q x.
Proof.
  induction n as [|n IH]; simpl; [ring |].
  rewrite IH. ring.
Qed.

Lemma peval_niven (a b : Z) (n : nat) (x : R) :
  peval (niven a b n) x = x ^ n * (IZR a - IZR b * x) ^ n.
Proof.
  unfold niven. rewrite peval_shift. f_equal.
  induction n as [|n IH]; [simpl; ring |].
  rewrite Nat.iter_succ, peval_pmul, IH. simpl. rewrite opp_IZR. ring.
Qed.

Lemma niven_low (a b : Z) (n k : nat) :
  (k < n)%nat → nth k (niven a b n) 0%Z = 0%Z.
Proof.
  intros Hk. unfold niven.
  rewrite app_nth1 by (by rewrite repeat_length).
  apply nth_repeat.
Qed.


(** *** The alternating sum of even derivatives *)

Lemma altSum_derivable (m : nat) (p : list Z) (x : R) :
  derivable_pt_lim (altSum m p) x (altSum m (pderiv p) x).
Proof.
  revert p. induction m as [|m IH]; intros p.
  - apply peval_derivable.
  - apply (derivable_pt_lim_ext (peval p - altSum m (pderiv (pderiv p)))%F);
      [done |].
    simpl altSum. apply derivable_pt_lim_minus; [apply peval_derivable | apply IH].
Qed.

Lemma altSum_telescope (m : nat) (p : list Z) (x : R) :
  (length p <= 2 * m + 2)%nat →
  altSum m p x + altSum m (pderiv (pderiv p)) x = peval p x.
Proof.
  revert p. induction m as [|m IH]; intros p Hlen.
  - simpl altSum.
    assert (pderiv (pderiv p) = []) as ->.
    { apply length_zero_iff_nil. rewrite !length_pderiv. lia. }
    simpl. ring.
  - simpl altSum.
    pose proof (IH (pderiv (pderiv p)) ltac:(rewrite !length_pderiv; lia)).
    lra.
Qed.

Lemma altSum_0_divide (N : Z) (m : nat) (p : list Z) :
  (∀ j, (N | nth 0 (Nat.iter j pderiv p) 0)%Z) →
  ∃ z : Z, altSum m p 0 = IZR (N * z).
Proof.
  revert p. induction m as [|m IH]; intros p Hdiv.
  - destruct (Hdiv 0%nat) as [z Hz]. simpl in Hz.
    exists z. simpl. rewrite peval_0, Hz. f_equal. lia.
  - destruct (Hdiv 0%nat) as [z1 Hz1]. simpl in Hz1.
    destruct (IH (pderiv (pderiv p))) as [z2 Hz2].
    { intros j. specialize (Hdiv (S (S j))).
      by rewrite !Nat.iter_succ_r in Hdiv. }
    exists (z1 - z2)%Z. simpl altSum.
    rewrite peval_0, Hz1, Hz2, <- minus_IZR. f_equal. lia.
Qed.

(** *** Reflection about a point *)

Section Reflection.

Variable s : R.

Lemma reflect_derivable (p : list Z) (x : R) :
  derivable_pt_lim (fun y => peval p (s - y)) x (- peval (pderiv p) (s - x)).
Proof.
  replace (- peval (pderiv p) (s - x)) with (peval (pderiv p) (s - x) * (0 - 1))
    by ring.
  apply (derivable_pt_lim_comp (fct_cte s - Datatypes.id)%F (peval p)).
  - apply derivable_pt_lim_minus;
      [apply derivable_pt_lim_const | apply derivable_pt_lim_id].
  - apply peval_derivable.
Qed.

Lemma symmetric_pderiv (p : list Z) :
  (∀ x, peval p (s - x) = peval p x) →
  ∀ x, peval (pderiv p) (s - x) = - peval (pderiv p) x.
Proof.
  intros Hsym x.
  pose proof (reflect_derivable p x) as H1.
  pose proof (derivable_pt_lim_ext (peval p) (fun y => peval p (s - y)) x _
                (fun z => eq_sym (Hsym z)) (peval_derivable p x)) as H2.
  pose proof (uniqueness_limite _ _ _ _ H1 H2). lra.
Qed.

Lemma antisymmetric_pderiv (p : list Z) :
  (∀ x, peval p (s - x) = - peval p x) →
  ∀ x, peval (pderiv p) (s - x) = peval (pderiv p) x.
Proof.
  intros Hanti x.
  pose proof (reflect_derivable p x) as H1.
  pose proof (derivable_pt_lim_ext (- peval p)%F (fun y => peval p (s - y)) x _
                (fun z => eq_sym (Hanti z))
                (derivable_pt_lim_opp _ _ _ (peval_derivable p x))) as H2.
  pose proof (uniqueness_limite _ _ _ _ H1 H2). lra.
Qed.

Lemma altSum_symmetric (m : nat) (p : list Z) :
  (∀ x, peval p (s - x) = peval p x) →
  ∀ x, altSum m p (s - x) = altSum m p x.
Proof.
  revert p. induction m as [|m IH]; intros p Hsym x; [apply Hsym |].
  simpl altSum. rewrite Hsym, IH; [done |].
  by apply antisymmetric_pderiv, symmetric_pderiv.
Qed.

End Reflection.

End PolyFacts.

(** ** PI is irrational *)

Section Irrational.

Import Poly.
Local Open Scope R_scope.

Variables (a b : Z) (n : nat).
Hypothesis b_pos : (0 < b)%Z.
Hypothesis PI_ratio : PI = IZR a / IZR b.

Local Abbreviation P := (niven a b n).
Local Abbreviation m := (length (niven a b n)).
Local Abbreviation G := (nivenG a b n).

Lemma ratio_numerator : IZR a = IZR b * PI.
Proof.
  assert (0 < IZR b) by (by apply IZR_lt).
  rewrite PI_ratio. field. lra.
Qed.

Lemma niven_symmetric (x : R) : peval P (PI - x) = peval P x.
Proof.
  rewrite !peval_niven, ratio_numerator, <- !Rpow_mult_distr.
  f_equal. ring.
Qed.

Lemma G_derivable (x : R) : derivable_pt_lim G x (peval P x * sin x).
Proof.
  pose proof (altSum_telescope m P x ltac:(lia)) as Htel.
  replace (peval P x * sin x)
    with ((altSum m (pderiv (pderiv P)) x * sin x
           + altSum m (pderiv P) x * cos x)
          - (altSum m (pderiv P) x * cos x + altSum m P x * (- sin x)))
    by (rewrite <- Htel; ring).
  apply (derivable_pt_lim_ext
           (altSum m (pderiv P) * sin - altSum m P * cos)%F); [done |].
  apply derivable_pt_lim_minus; apply derivable_pt_lim_mult;
    try apply altSum_derivable;
    [apply derivable_pt_lim_sin | apply derivable_pt_lim_cos].
Qed.

Lemma G_ends : G PI - G 0 = 2 * altSum m P 0.
Proof.
  unfold nivenG. rewrite sin_PI, cos_PI, sin_0, cos_0.
  pose proof (altSum_symmetric PI m P niven_symmetric 0) as Hsym.
  rewrite Rminus_0_r in Hsym. rewrite Hsym. ring.
Qed.

Lemma altSum_multiple : ∃ z : Z, altSum m P 0 = IZR (Z.of_nat (fact n) * z).
Proof.
  apply altSum_0_divide. intros j.
  apply iter_pderiv_0_divide. intros k Hk. by apply niven_low.
Qed.

Lemma niven_bounds (c : R) :
  0 < c < PI → 0 < peval P c <= (PI * IZR a) ^ n.
Proof.
  intros [Hc0 HcPI].
  assert (0 < IZR b) as Hb by (by apply IZR_lt).
  pose proof ratio_numerator as Ha.
  assert (0 < IZR a - IZR b * c) as Hpos by nra.
  assert (IZR a - IZR b * c <= IZR a) as Hle by nra.
  rewrite peval_niven. split.
  - apply Rmult_lt_0_compat; by apply pow_lt.
  - rewrite Rpow_mult_distr.
    apply Rmult_le_compat; try (apply pow_le; lra); apply pow_incr; lra.
Qed.

Lemma ratio_contradiction :
  PI * (PI * IZR a) ^ n < INR (fact n) → False.
Proof.
  intros Hsmall.
  destruct (MVT_cor2 G (fun x => peval P x * sin x) 0 PI PI_RGT_0
              (fun c _ => G_derivable c)) as (c & Hmvt & Hc).
  rewrite G_ends in Hmvt.
  destruct altSum_multiple as [z Hz]. rewrite Hz in Hmvt.
  destruct (niven_bounds c Hc) as [Hp0 Hp1].
  pose proof (sin_gt_0 c (proj1 Hc) (proj2 Hc)) as Hs0.
  pose proof (SIN_bound c) as [_ Hs1].
  pose proof PI_RGT_0 as Hpi.
  rewrite Rminus_0_r in Hmvt.
  assert (0 < peval P c * sin c) as Hprod by (by apply Rmult_lt_0_compat).
  assert (peval P c * sin c <= (PI * IZR a) ^ n) as Hup by nra.
  rewrite mult_IZR, <- INR_IZR_INZ in Hmvt.
  pose proof (INR_fact_lt_0 n) as Hfact.
  assert (0 < IZR z) as Hz0 by nra.
  assert (1 <= z)%Z as Hz1 by (apply lt_0_IZR in Hz0; lia).
  apply IZR_le in Hz1. nra.
Qed.

End Irrational.

Theorem PI_irrational (a b : Z) : b ≠ 0%Z → PI ≠ (IZR a / IZR b)%R.
Proof.
  assert (Hpos : ∀ a b : Z, (0 < b)%Z → PI ≠ (IZR a / IZR b)%R).
  { clear a b. intros a b Hb Hpi.
    destruct (cv_speed_pow_fact (PI * IZR a) (/ PI)%R) as [N HN].
    { apply Rinv_0_lt_compat, PI_RGT_0. }
    specialize (HN N (Nat.le_refl N)).
    unfold Rdist in HN. rewrite Rminus_0_r in HN.
    apply (ratio_contradiction a b N Hb Hpi).
    pose proof PI_RGT_0 as Hpi0. pose proof (INR_fact_lt_0 N) as Hfact.
    assert (0 < IZR b)%R as Hb' by (by apply IZR_lt).
    assert (0 <= PI * IZR a)%R as Hx.
    { rewrite (ratio_numerator a b Hb Hpi). nra. }
    rewrite Rabs_right in HN
      by (apply Rle_ge, Rmult_le_pos;
          [by apply pow_le | left; by apply Rinv_0_lt_compat]).
    apply (Rmult_lt_compat_r (INR (fact N))) in HN; [| done].
    unfold Rdiv in HN. rewrite Rmult_assoc, Rinv_l, Rmult_1_r in HN by lra.
    apply (Rmult_lt_compat_l PI) in HN; [| done].
    rewrite <- Rmult_assoc, Rinv_r, Rmult_1_l in HN by lra. exact HN. }
  intros Hb.
  destruct (Z.lt_trichotomy b 0) as [Hneg | [-> | Hgt]]; [| done | by apply Hpos].
  intros Hpi. apply (Hpos (- a)%Z (- b)%Z ltac:(lia)).
  rewrite Hpi, !opp_IZR. field.
  apply not_0_IZR. lia.
Qed.

(** ** C2: hash jitter *)

Section Jitter.

Import JS Processing.
Local Open Scope R_scope.

Variable selectedVehicle : option vehicle.
Variable vehicles : list vehicle.

(** The first time a selected vehicle is seen its real coordinates are used
    and cached. *)
Lemma position_selected_first (index : nat) (v : vehicle) (cache : vehiclePositionCache)
    (la lo : R) :
  hasValidCoords v = true → lat v = Some la → lon v = Some lo →
  isSelected selectedVehicle (vehicleIdOf v index) = true →
  cache !! vehicleIdOf v index = None →
  position selectedVehicle vehicles index v cache =
    ((la, lo), <[vehicleIdOf v index := CachedPos la lo la lo]> cache).
Proof.
  intros Hv Hla Hlo Hsel Hc. unfold position. cbv zeta.
  by rewrite Hv, Hla, Hlo, Hsel, Hc.
Qed.

(** A selected vehicle with a cache entry keeps the cached position. *)
Lemma position_selected_cached (index : nat) (v : vehicle) (cache : vehiclePositionCache)
    (c : cachedPos) (la lo : R) :
  hasValidCoords v = true → lat v = Some la → lon v = Some lo →
  isSelected selectedVehicle (vehicleIdOf v index) = true →
  cache !! vehicleIdOf v index = Some c →
  position selectedVehicle vehicles index v cache = ((c_lat c, c_lon c), cache).
Proof.
  intros Hv Hla Hlo Hsel Hc. unfold position. cbv zeta.
  by rewrite Hv, Hla, Hlo, Hsel, Hc.
Qed.

(** A vehicle that is not selected and has no usable cache entry is jittered
    around its reported coordinates, and the result is cached. *)
Lemma position_jitter (index : nat) (v : vehicle) (cache : vehiclePositionCache)
    (la lo : R) :
  hasValidCoords v = true → lat v = Some la → lon v = Some lo →
  isSelected selectedVehicle (vehicleIdOf v index) = false →
  (∀ c, cache !! vehicleIdOf v index = Some c → cacheUsable c la lo = false) →
  let p := jitter (Hash.hashOf (vehicleIdOf v index)) index
             (spreadMultiplier (sameCoordCount vehicles la lo)) la lo in
  position selectedVehicle vehicles index v cache =
    (p, <[vehicleIdOf v index := CachedPos p.1 p.2 la lo]> cache).
Proof.
  intros Hv Hla Hlo Hsel Hc p. unfold position. cbv zeta.
  rewrite Hv, Hla, Hlo, Hsel.
  destruct (cache !! vehicleIdOf v index) as [c|] eqn:Hcache; [| done].
  by rewrite (Hc c eq_refl).
Qed.

End Jitter.

Lemma radius_bounds (hash mult : Z) :
  0 <= hash →
  (0.005 * IZR mult <= Processing.radius hash mult < 0.005 * IZR mult + 0.003)%R.
Proof.
  intros Hh. unfold Processing.radius.
  pose proof (jsrem_range_R hash 100 Hh ltac:(lia)). lra.
Qed.

Lemma radius_positive (hash n : Z) :
  0 <= hash → (0.005 <= Processing.radius hash (spreadMultiplier n))%R.
Proof.
  intros Hh. pose proof (radius_bounds hash (spreadMultiplier n) Hh) as [Hlo _].
  pose proof (spreadMultiplier_positive n) as [H1 _].
  apply IZR_le in H1. lra.
Qed.

(** The jittered position lies on the circle of the given radius around the
    reported coordinates. *)
Lemma jitter_on_circle (hash : Z) (index : nat) (mult : Z) (la lo : R) :
  let p := Processing.jitter hash index mult la lo in
  ((p.1 - la) * (p.1 - la) + (p.2 - lo) * (p.2 - lo)
   = Processing.radius hash mult * Processing.radius hash mult)%R.
Proof.
  unfold Processing.jitter. simpl.
  pose proof (sin2_cos2 (Processing.angle hash index)) as H.
  unfold Rsqr in H. nra.
Qed.

Lemma jitter_moves (hash : Z) (index : nat) (n : Z) (la lo : R) :
  0 <= hash →
  Processing.jitter hash index (spreadMultiplier n) la lo ≠ (la, lo).
Proof.
  intros Hh Heq.
  pose proof (jitter_on_circle hash index (spreadMultiplier n) la lo) as Hc.
  cbv zeta in Hc. rewrite Heq in Hc. simpl in Hc.
  pose proof (radius_positive hash n Hh). nra.
Qed.

(** Two jittered positions around the same coordinates with different radii
    are different. *)
Lemma jitter_distinct_radius (h1 h2 : Z) (i1 i2 : nat) (n : Z) (la lo : R) :
  0 <= h1 → 0 <= h2 →
  Hash.jsrem h1 100 ≠ Hash.jsrem h2 100 →
  Processing.jitter h1 i1 (spreadMultiplier n) la lo
  ≠ Processing.jitter h2 i2 (spreadMultiplier n) la lo.
Proof.
  intros H1 H2 Hne Heq.
  pose proof (jitter_on_circle h1 i1 (spreadMultiplier n) la lo) as Hc1.
  pose proof (jitter_on_circle h2 i2 (spreadMultiplier n) la lo) as Hc2.
  cbv zeta in Hc1, Hc2. rewrite Heq in Hc1. rewrite Hc1 in Hc2.
  pose proof (radius_positive h1 n H1) as Hr1.
  pose proof (radius_positive h2 n H2) as Hr2.
  assert (Processing.radius h1 (spreadMultiplier n)
          = Processing.radius h2 (spreadMultiplier n))%R as Hr by nra.
  unfold Processing.radius in Hr.
  apply Hne. apply eq_IZR. lra.
Qed.

(** One vehicle: not selected, valid coordinates, no usable cache entry. It
    is displayed on the circle of radius [radius] around the reported
    coordinates, at the angle [angle], hence off the reported coordinates. *)
Lemma jitter_step (selectedVehicle : option vehicle) (vehicles : list vehicle)
    (index : nat) (v : vehicle) (cache : vehiclePositionCache) (la lo : R) :
  Processing.hasValidCoords v = true → lat v = Some la → lon v = Some lo →
  Processing.isSelected selectedVehicle (Processing.vehicleIdOf v index) = false →
  (∀ c, cache !! Processing.vehicleIdOf v index = Some c →
        Processing.cacheUsable c la lo = false) →
  let r := Processing.processVehicle selectedVehicle vehicles index v cache in
  let hash := Hash.hashOf (Processing.vehicleIdOf v index) in
  let mult := spreadMultiplier (Processing.sameCoordCount vehicles la lo) in
  currentLat r.1
    = (la + sin (Processing.angle hash index) * Processing.radius hash mult)%R
  ∧ currentLon r.1
    = (lo + cos (Processing.angle hash index) * Processing.radius hash mult)%R
  ∧ (0.005 * IZR mult <= Processing.radius hash mult < 0.005 * IZR mult + 0.003)%R
  ∧ ((currentLat r.1 - la) * (currentLat r.1 - la)
     + (currentLon r.1 - lo) * (currentLon r.1 - lo)
     = Processing.radius hash mult * Processing.radius hash mult)%R
  ∧ (currentLat r.1, currentLon r.1) ≠ (la, lo).
Proof.
  intros Hv Hla Hlo Hsel Hc r hash mult.
  destruct (processVehicle_position selectedVehicle vehicles index v cache)
    as (Hr & _).
  fold r in Hr.
  rewrite (position_jitter selectedVehicle vehicles index v cache la lo) in Hr
    by done.
  cbv zeta in Hr. cbn [fst] in Hr. fold hash mult in Hr.
  pose proof (hashOf_nonneg (Processing.vehicleIdOf v index)) as Hh. fold hash in Hh.
  pose proof (jitter_on_circle hash index mult la lo) as Hcirc.
  pose proof (jitter_moves hash index (Processing.sameCoordCount vehicles la lo)
                la lo Hh) as Hmove.
  fold mult in Hmove. cbv zeta in Hcirc. rewrite <- Hr in Hcirc, Hmove.
  simpl in Hcirc.
  unfold Processing.jitter in Hr. injection Hr as Hr1 Hr2.
  split; [done |]. split; [done |].
  split; [by apply radius_bounds |].
  split; done.
Qed.

(** *** Different indices give different positions *)

Lemma angles_apart (h1 h2 : Z) (i1 i2 : nat) (k : Z) :
  (Processing.angle h1 i1 - Processing.angle h2 i2 = IZR k * PI)%R → i1 = i2.
Proof.
  unfold Processing.angle. intros Hk.
  set (d1 := Hash.jsrem h1 360) in *. set (d2 := Hash.jsrem h2 360) in *.
  set (q := (180 * k - d1 + d2)%Z).
  assert (PI * IZR q = IZR (9 * (Z.of_nat i1 - Z.of_nat i2)))%R as Hq.
  { unfold q.
    repeat (rewrite plus_IZR || rewrite minus_IZR || rewrite mult_IZR).
    rewrite <- !INR_IZR_INZ. lra. }
  destruct (decide (q = 0)) as [Hq0 | Hq0].
  - rewrite Hq0, Rmult_0_r in Hq.
    symmetry in Hq. apply eq_IZR in Hq. lia.
  - exfalso. apply (PI_irrational (9 * (Z.of_nat i1 - Z.of_nat i2)) q Hq0).
    rewrite <- Hq. field. by apply not_0_IZR.
Qed.

Lemma jitter_distinct_index (h1 h2 : Z) (i1 i2 : nat) (n : Z) (la lo : R) :
  0 <= h1 → 0 <= h2 → i1 ≠ i2 →
  Processing.jitter h1 i1 (spreadMultiplier n) la lo
  ≠ Processing.jitter h2 i2 (spreadMultiplier n) la lo.
Proof.
  intros H1 H2 Hne Heq.
  destruct (decide (Hash.jsrem h1 100 = Hash.jsrem h2 100)) as [Hr | Hr];
    [| by apply (jitter_distinct_radius h1 h2 i1 i2 n la lo)].
  assert (Processing.radius h1 (spreadMultiplier n)
          = Processing.radius h2 (spreadMultiplier n)) as Hrad
    by (unfold Processing.radius; by rewrite Hr).
  pose proof (radius_positive h2 n H2) as Hpos.
  unfold Processing.jitter in Heq. rewrite Hrad in Heq.
  injection Heq as Hsin Hcos.
  set (a1 := Processing.angle h1 i1) in *. set (a2 := Processing.angle h2 i2) in *.
  set (r := Processing.radius h2 (spreadMultiplier n)) in *.
  assert (sin a1 = sin a2) as Hs by (apply (Rmult_eq_reg_r r); lra).
  assert (cos a1 = cos a2) as Hc by (apply (Rmult_eq_reg_r r); lra).
  assert (sin (a1 - a2) = 0%R) as H0 by (rewrite sin_minus, Hs, Hc; ring).
  destruct (sin_eq_0_0 _ H0) as [k Hk].
  by apply Hne, (angles_apart h1 h2 i1 i2 k).
Qed.

(** *** The pass over the list *)

Section Pass.

Import JS Processing.

Variable selectedVehicle : option vehicle.
Variable vehicles : list vehicle.

(** The position depends on the cache through the vehicle's own entry only. *)
Lemma position_local (index : nat) (v : vehicle) (cache1 cache2 : vehiclePositionCache) :
  cache1 !! vehicleIdOf v index = cache2 !! vehicleIdOf v index →
  (position selectedVehicle vehicles index v cache1).1
  = (position selectedVehicle vehicles index v cache2).1.
Proof.
  intros Heq. unfold position. cbv zeta. rewrite Heq.
  repeat case_match; done.
Qed.

(** The element at position [k] of the result is the callback applied to the
    [k]-th vehicle, on a cache that agrees with the initial one at the
    vehicle's id as long as no earlier vehicle has that id. *)
Lemma processFrom_lookup (rest : list vehicle) (index : nat)
    (cache : vehiclePositionCache) (k : nat) (v : vehicle) :
  rest !! k = Some v →
  (∀ j w, (j < k)%nat → rest !! j = Some w →
          vehicleIdOf w (index + j) ≠ vehicleIdOf v (index + k)) →
  ∃ cache_k : vehiclePositionCache,
    (processFrom selectedVehicle vehicles index rest cache).1 !! k
      = Some (processVehicle selectedVehicle vehicles (index + k) v cache_k).1
    ∧ cache_k !! vehicleIdOf v (index + k) = cache !! vehicleIdOf v (index + k).
Proof.
  revert index cache k.
  induction rest as [|w rest IH]; intros index cache k Hk Hfresh; [done |].
  rewrite processFrom_cons. cbv zeta. cbn [fst].
  destruct k as [|k].
  - simpl in Hk. injection Hk as ->. rewrite Nat.add_0_r. by exists cache.
  - simpl in Hk.
    destruct (IH (S index) (processVehicle selectedVehicle vehicles index w cache).2
                k Hk) as (cache_k & Hd & Hc).
    { intros j u Hj Hu. specialize (Hfresh (S j) u ltac:(lia) Hu).
      by rewrite !Nat.add_succ_r in Hfresh. }
    rewrite Nat.add_succ_r. simpl in Hd, Hc. exists cache_k.
    split; [exact Hd |]. rewrite Hc.
    destruct (processVehicle_cache_write selectedVehicle vehicles index w cache)
      as [-> | (e & ->)]; [done |].
    rewrite lookup_insert_ne; [done |].
    specialize (Hfresh 0%nat w ltac:(lia) eq_refl).
    by rewrite Nat.add_0_r, Nat.add_succ_r in Hfresh.
Qed.

(** A vehicle of the list that is not selected and has no usable entry in
    the cache the pass starts from is displayed at its jittered position. *)
Lemma processVehicles_jitter (cache : vehiclePositionCache) (k : nat) (v : vehicle)
    (la lo : R) :
  vehicles !! k = Some v →
  hasValidCoords v = true → lat v = Some la → lon v = Some lo →
  isSelected selectedVehicle (vehicleIdOf v k) = false →
  (∀ c, cache !! vehicleIdOf v k = Some c → cacheUsable c la lo = false) →
  (∀ j w, (j < k)%nat → vehicles !! j = Some w →
          vehicleIdOf w j ≠ vehicleIdOf v k) →
  ∃ d, (processVehicles selectedVehicle vehicles cache).1 !! k = Some d
    ∧ (currentLat d, currentLon d)
      = jitter (Hash.hashOf (vehicleIdOf v k)) k
          (spreadMultiplier (sameCoordCount vehicles la lo)) la lo.
Proof.
  intros Hk Hv Hla Hlo Hsel Hc Hfresh.
  destruct (processFrom_lookup vehicles 0 cache k v Hk Hfresh)
    as (cache_k & Hd & Hck).
  simpl in Hd, Hck. eexists. split; [exact Hd |].
  destruct (processVehicle_position selectedVehicle vehicles k v cache_k)
    as (-> & _).
  rewrite (position_jitter selectedVehicle vehicles k v cache_k la lo); try done.
  intros c. rewrite Hck. apply Hc.
Qed.

End Pass.

(** C2, as the code has it. Take two vehicles of the list that are not
    selected, report the same valid coordinates, have no cache entry whose
    base is within 0.001 of these coordinates, and whose vehicleIds no
    earlier vehicle of the list has. Each is displayed at the reported
    coordinates plus an offset computed from the hash of its vehicleId, its
    index and the spread multiplier, and the two display positions differ. *)
Theorem hash_jitter (selectedVehicle : option vehicle) (vehicles : list vehicle)
    (cache : vehiclePositionCache) (i j : nat) (v w : vehicle) (la lo : R) :
  i ≠ j → vehicles !! i = Some v → vehicles !! j = Some w →
  Processing.hasValidCoords v = true → lat v = Some la → lon v = Some lo →
  Processing.hasValidCoords w = true → lat w = Some la → lon w = Some lo →
  Processing.isSelected selectedVehicle (Processing.vehicleIdOf v i) = false →
  Processing.isSelected selectedVehicle (Processing.vehicleIdOf w j) = false →
  (∀ c, cache !! Processing.vehicleIdOf v i = Some c →
        Processing.cacheUsable c la lo = false) →
  (∀ c, cache !! Processing.vehicleIdOf w j = Some c →
        Processing.cacheUsable c la lo = false) →
  (∀ k u, (k < i)%nat → vehicles !! k = Some u →
          Processing.vehicleIdOf u k ≠ Processing.vehicleIdOf v i) →
  (∀ k u, (k < j)%nat → vehicles !! k = Some u →
          Processing.vehicleIdOf u k ≠ Processing.vehicleIdOf w j) →
  let mult := spreadMultiplier (Processing.sameCoordCount vehicles la lo) in
  ∃ dv dw : displayVehicle,
    (Processing.processVehicles selectedVehicle vehicles cache).1 !! i = Some dv
    ∧ (Processing.processVehicles selectedVehicle vehicles cache).1 !! j = Some dw
    ∧ (currentLat dv, currentLon dv)
      = Processing.jitter (Hash.hashOf (Processing.vehicleIdOf v i)) i mult la lo
    ∧ (currentLat dw, currentLon dw)
      = Processing.jitter (Hash.hashOf (Processing.vehicleIdOf w j)) j mult la lo
    ∧ (currentLat dv, currentLon dv) ≠ (currentLat dw, currentLon dw).
Proof.
  intros Hij Hi Hj Hv Hvla Hvlo Hw Hwla Hwlo Hvsel Hwsel Hvc Hwc Hvfresh Hwfresh mult.
  destruct (processVehicles_jitter selectedVehicle vehicles cache i v la lo)
    as (dv & Hdv & Hpv); try done.
  destruct (processVehicles_jitter selectedVehicle vehicles cache j w la lo)
    as (dw & Hdw & Hpw); try done.
  exists dv, dw. fold mult in Hpv, Hpw.
  split; [done |]. split; [done |]. split; [done |]. split; [done |].
  rewrite Hpv, Hpw.
  apply jitter_distinct_index; [apply hashOf_nonneg | apply hashOf_nonneg | done].
Qed.

Lemma hash_jitter_witness :
  ∃ dA dB : displayVehicle,
    (Processing.processVehicles None [Samples.busA; Samples.busB] ∅).1 !! 0%nat
      = Some dA
    ∧ (Processing.processVehicles None [Samples.busA; Samples.busB] ∅).1 !! 1%nat
      = Some dB
    ∧ (currentLat dA, currentLon dA) = Processing.jitter 1220276018 0 1 51.5 (-0.12)
    ∧ (currentLat dB, currentLon dB) = Processing.jitter 1220276019 1 1 51.5 (-0.12)
    ∧ (currentLat dA, currentLon dA) ≠ (currentLat dB, currentLon dB).
Proof.
  assert (Processing.sameCoordCount [Samples.busA; Samples.busB] 51.5 (-0.12)
          = 2%Z) as Hcount.
  { unfold Processing.sameCoordCount, Processing.sharesCoords. simpl.
    repeat eval_guard. reflexivity. }
  assert (∀ v la lo, lat v = Some la → lon v = Some lo →
            (0.1 < Rabs la)%R → (0.1 < Rabs lo)%R →
            Processing.hasValidCoords v = true) as Hvalid.
  { intros v la lo Hla Hlo Ha Ho. apply hasValidCoords_true. eauto 6. }
  destruct (hash_jitter None [Samples.busA; Samples.busB] ∅ 0 1
              Samples.busA Samples.busB 51.5 (-0.12))
    as (dA & dB & HA & HB & HpA & HpB & Hne).
  - lia.
  - reflexivity.
  - reflexivity.
  - apply (Hvalid _ 51.5%R (-0.12)%R); [reflexivity | reflexivity | solve_R | solve_R].
  - reflexivity.
  - reflexivity.
  - apply (Hvalid _ 51.5%R (-0.12)%R); [reflexivity | reflexivity | solve_R | solve_R].
  - reflexivity.
  - reflexivity.
  - reflexivity.
  - reflexivity.
  - intros c Hc. by rewrite lookup_empty in Hc.
  - intros c Hc. by rewrite lookup_empty in Hc.
  - intros k u Hk. lia.
  - intros k u Hk Hu. assert (k = 0%nat) as -> by lia.
    injection Hu as <-. discriminate.
  - exists dA, dB. rewrite Hcount in HpA, HpB.
    split; [exact HA |]. split; [exact HB |].
    split; [exact HpA |]. split; [exact HpB | exact Hne].
Defined.

(** *** Two vehicles at one display position *)

Section SharedPosition.

Import JS Processing.
Local Open Scope R_scope.

Lemma processVehicles_two (sel : option vehicle) (a b : vehicle)
    (cache : vehiclePositionCache) :
  processVehicles sel [a; b] cache =
    let r1 := processVehicle sel [a; b] 0 a cache in
    let r2 := processVehicle sel [a; b] 1 b r1.2 in
    ([r1.1; r2.1], r2.2).
Proof.
  unfold processVehicles. simpl.
  destruct (processVehicle sel [a; b] 0 a cache) as [d1 c1]. simpl.
  by destruct (processVehicle sel [a; b] 1 b c1) as [d2 c2].
Qed.

Lemma processVehicles_two_cache (sel : option vehicle) (a b : vehicle)
    (cache : vehiclePositionCache) :
  (processVehicles sel [a; b] cache).2 =
    (position sel [a; b] 1 b (position sel [a; b] 0 a cache).2).2.
Proof.
  rewrite processVehicles_two. cbv zeta. cbn [snd].
  destruct (processVehicle_position sel [a; b] 0 a cache) as (_ & _ & ->).
  by destruct (processVehicle_position sel [a; b] 1 b
                 (position sel [a; b] 0 a cache).2) as (_ & _ & ->).
Qed.

Lemma busA_valid : hasValidCoords Samples.busA = true.
Proof.
  apply hasValidCoords_true. exists 51.5, (-0.12). repeat split; solve_R.
Qed.

Lemma busB_valid : hasValidCoords Samples.busB = true.
Proof.
  apply hasValidCoords_true. exists 51.5, (-0.12). repeat split; solve_R.
Qed.

Lemma realEntry_usable : cacheUsable Samples.realEntry 51.5 (-0.12) = true.
Proof.
  unfold cacheUsable, Samples.realEntry. simpl.
  rewrite !bool_decide_R_true by solve_R. done.
Qed.

(** Selecting [busA]: its real coordinates are cached, [busB] is jittered. *)
Lemma afterSelectA_cache :
  ∃ eB : cachedPos,
    Samples.afterSelectA.2 = <["LTZ1002" := eB]> (<["LTZ1001" := Samples.realEntry]> ∅).
Proof.
  unfold Samples.afterSelectA. rewrite processVehicles_two_cache.
  set (l := [Samples.busA; Samples.busB]).
  rewrite (position_selected_first (Some Samples.busA) l 0 Samples.busA ∅
             51.5 (-0.12) busA_valid eq_refl eq_refl eq_refl (lookup_empty _)).
  cbn [fst snd].
  rewrite (position_jitter (Some Samples.busA) l 1 Samples.busB _ 51.5 (-0.12)
             busB_valid eq_refl eq_refl eq_refl).
  - cbn [fst snd]. eexists. reflexivity.
  - intros c. change (vehicleIdOf Samples.busB 1) with "LTZ1002".
    change (vehicleIdOf Samples.busA 0) with "LTZ1001".
    rewrite lookup_insert_ne by done. by rewrite lookup_empty.
Qed.

(** Selecting [busB] next changes nothing in the cache. *)
Lemma afterSelectB_cache : Samples.afterSelectB.2 = Samples.afterSelectA.2.
Proof.
  destruct afterSelectA_cache as [eB HA].
  unfold Samples.afterSelectB. rewrite processVehicles_two_cache.
  set (l := [Samples.busA; Samples.busB]). rewrite HA.
  rewrite (position_cached_valid (Some Samples.busB) l 0 Samples.busA _
             Samples.realEntry 51.5 (-0.12) busA_valid eq_refl eq_refl).
  - cbn [fst snd].
    rewrite (position_selected_cached (Some Samples.busB) l 1 Samples.busB _
               eB 51.5 (-0.12) busB_valid eq_refl eq_refl eq_refl); [done |].
    change (vehicleIdOf Samples.busB 1) with "LTZ1002".
    by rewrite lookup_insert_eq.
  - change (vehicleIdOf Samples.busA 0) with "LTZ1001".
    rewrite lookup_insert_ne by done. by rewrite lookup_insert_eq.
  - simpl. solve_R.
  - simpl. solve_R.
Qed.

(** The backend position of the selected [busB] overwrites its entry. *)
Lemma afterUpdateB_cache :
  SelectedUpdate.cache Samples.afterUpdateB !! "LTZ1001" = Some Samples.realEntry
  ∧ SelectedUpdate.cache Samples.afterUpdateB !! "LTZ1002" = Some Samples.realEntry.
Proof.
  destruct afterSelectA_cache as [eB HA].
  unfold Samples.afterUpdateB. simpl. unfold SelectedUpdate.updateCache.
  rewrite afterSelectB_cache, HA. split.
  - rewrite !lookup_insert_ne by done. by rewrite lookup_insert_eq.
  - by rewrite lookup_insert_eq.
Qed.

End SharedPosition.

(** Two distinct buses report the same coordinates and neither is selected,
    yet both are displayed at one position: each was selected earlier, so
    the cache holds its real coordinates, and the cached positions are
    reused. *)
Lemma hash_jitter_counterexample :
  ∃ dA dB : displayVehicle,
    Samples.afterDeselect.1 = [dA; dB]
    ∧ p_vehicleId dA = Some "LTZ1001" ∧ p_vehicleId dB = Some "LTZ1002"
    ∧ lat Samples.busA = lat Samples.busB ∧ lon Samples.busA = lon Samples.busB
    ∧ (currentLat dA, currentLon dA) = (currentLat dB, currentLon dB).
Proof.
  destruct afterUpdateB_cache as [HA HB].
  unfold Samples.afterDeselect. rewrite processVehicles_two. cbv zeta.
  set (l := [Samples.busA; Samples.busB]).
  set (m := SelectedUpdate.cache Samples.afterUpdateB) in *.
  destruct (processVehicle_position None l 0 Samples.busA m) as (HcurA & _ & HmA).
  rewrite (position_cached_valid None l 0 Samples.busA m Samples.realEntry 51.5 (-0.12)
             busA_valid eq_refl eq_refl HA) in HcurA, HmA
    by (simpl; solve_R).
  simpl in HmA. rewrite HmA.
  destruct (processVehicle_position None l 1 Samples.busB m) as (HcurB & _ & _).
  rewrite (position_cached_valid None l 1 Samples.busB m Samples.realEntry 51.5 (-0.12)
             busB_valid eq_refl eq_refl HB) in HcurB
    by (simpl; solve_R).
  eexists _, _. split; [reflexivity |].
  split; [| split; [| split; [done | split; [done |]]]].
  - unfold Processing.processVehicle.
    by destruct (Processing.position None l 0 Samples.busA m) as [[? ?] ?].
  - unfold Processing.processVehicle.
    by destruct (Processing.position None l 1 Samples.busB m) as [[? ?] ?].
  - by rewrite HcurA, HcurB.
Qed.

(** * Further properties of the code *)

(** ** Passes over the list: what the cache holds afterwards *)

Section Settling.

Import JS Processing Pass.
Local Open Scope R_scope.

Variable selectedVehicle : option vehicle.
Variable vehicles : list vehicle.

Lemma cacheUsable_refl (la lo lat' lon' : R) :
  cacheUsable (CachedPos lat' lon' la lo) la lo = true.
Proof.
  unfold cacheUsable. simpl.
  rewrite !bool_decide_R_true; [done | solve_R | solve_R].
Qed.

(** A settled vehicle is displayed at its entry and the cache is not
    written. *)
Lemma position_settled (cache : vehiclePositionCache) (index : nat) (v : vehicle)
    (c : cachedPos) :
  settled selectedVehicle cache index v c →
  position selectedVehicle vehicles index v cache = ((c_lat c, c_lon c), cache).
Proof.
  intros [Hc Huse]. unfold position. cbv zeta. rewrite Hc.
  destruct (hasValidCoords v) eqn:Hv; [| by repeat case_match].
  destruct (proj1 (hasValidCoords_true v) Hv) as (la & lo & Hla & Hlo & _).
  rewrite Hla, Hlo.
  destruct (isSelected selectedVehicle (vehicleIdOf v index)) eqn:Hsel; [done |].
  by rewrite (Huse eq_refl eq_refl la lo Hla Hlo).
Qed.

(** Whatever the cache was, after the step the vehicle is settled, at the
    position the step returned. *)
Lemma position_settles (cache : vehiclePositionCache) (index : nat) (v : vehicle) :
  let r := position selectedVehicle vehicles index v cache in
  ∃ c, settled selectedVehicle r.2 index v c ∧ (c_lat c, c_lon c) = r.1.
Proof.
  unfold position, settled. cbv zeta.
  destruct (hasValidCoords v) eqn:Hv.
  - destruct (proj1 (hasValidCoords_true v) Hv) as (la & lo & Hla & Hlo & _).
    rewrite Hla, Hlo.
    destruct (isSelected selectedVehicle (vehicleIdOf v index)) eqn:Hsel.
    + destruct (cache !! vehicleIdOf v index) as [c|] eqn:Hc; simpl.
      * exists c. done.
      * eexists. rewrite lookup_insert_eq. done.
    + destruct (cache !! vehicleIdOf v index) as [c|] eqn:Hc; simpl.
      * destruct (cacheUsable c la lo) eqn:Hu; simpl.
        -- exists c. split; [split; [done |] | done].
           intros _ _ la' lo' [= <-] [= <-]. done.
        -- eexists. rewrite lookup_insert_eq. split; [split; [done |] | done].
           intros _ _ la' lo' [= <-] [= <-]. apply cacheUsable_refl.
      * eexists. rewrite lookup_insert_eq. split; [split; [done |] | done].
        intros _ _ la' lo' [= <-] [= <-]. apply cacheUsable_refl.
  - destruct (cache !! vehicleIdOf v index) as [c|] eqn:Hc; simpl.
    + exists c. done.
    + eexists. rewrite lookup_insert_eq. split; [done |].
      reflexivity.
Qed.

(** The display vehicle is a function of the input vehicle, its index and
    the position. *)
Lemma processVehicle_same_position (index : nat) (v : vehicle)
    (cache1 cache2 : vehiclePositionCache) :
  (position selectedVehicle vehicles index v cache1).1
  = (position selectedVehicle vehicles index v cache2).1 →
  (processVehicle selectedVehicle vehicles index v cache1).1
  = (processVehicle selectedVehicle vehicles index v cache2).1.
Proof.
  unfold processVehicle.
  destruct (position selectedVehicle vehicles index v cache1) as [[la1 lo1] c1].
  destruct (position selectedVehicle vehicles index v cache2) as [[la2 lo2] c2].
  simpl. by intros [= -> ->].
Qed.

(** An entry, once there, is never removed by a pass. *)
Lemma processFrom_keeps (rest : list vehicle) (index : nat)
    (cache : vehiclePositionCache) (key : string) :
  is_Some (cache !! key) →
  is_Some ((processFrom selectedVehicle vehicles index rest cache).2 !! key).
Proof.
  revert index cache. induction rest as [|w rest IH]; intros index cache Hkey;
    [done |].
  rewrite processFrom_cons. cbv zeta. cbn [snd]. apply IH.
  destruct (processVehicle_cache_write selectedVehicle vehicles index w cache)
    as [-> | (e & ->)]; [done |].
  destruct (decide (vehicleIdOf w index = key)) as [-> | Hne].
  - rewrite lookup_insert_eq. by eexists.
  - by rewrite lookup_insert_ne.
Qed.

(** The [k]-th element of the result, with no condition on the ids. *)
Lemma processFrom_lookup_any (rest : list vehicle) (index : nat)
    (cache : vehiclePositionCache) (k : nat) (v : vehicle) :
  rest !! k = Some v →
  ∃ cache_k : vehiclePositionCache,
    (processFrom selectedVehicle vehicles index rest cache).1 !! k
      = Some (processVehicle selectedVehicle vehicles (index + k) v cache_k).1
    ∧ is_Some ((processFrom selectedVehicle vehicles index rest cache).2
                 !! vehicleIdOf v (index + k)).
Proof.
  revert index cache k.
  induction rest as [|w rest IH]; intros index cache k Hk; [done |].
  rewrite processFrom_cons. cbv zeta. cbn [fst snd].
  destruct k as [|k].
  - simpl in Hk. injection Hk as ->. rewrite Nat.add_0_r. exists cache.
    split; [done |]. apply processFrom_keeps.
    destruct (processVehicle_position selectedVehicle vehicles index v cache)
      as (_ & _ & ->).
    destruct (position_settles cache index v) as (c & [Hc _] & _).
    by eexists.
  - simpl in Hk. rewrite Nat.add_succ_r.
    apply (IH (S index) _ k Hk).
Qed.

Lemma distinctFrom_tail (index : nat) (w : vehicle) (rest : list vehicle) :
  distinctFrom index (w :: rest) → distinctFrom (S index) rest.
Proof.
  intros Hd i j u x Hij Hi Hj.
  specialize (Hd (S i) (S j) u x ltac:(lia) Hi Hj).
  by rewrite !Nat.add_succ_r in Hd.
Qed.

(** After a pass over vehicles with distinct ids, each is settled in the
    final cache at the position it was displayed at. *)
Lemma processFrom_settles (rest : list vehicle) (index : nat)
    (cache : vehiclePositionCache) (k : nat) (v : vehicle) :
  distinctFrom index rest →
  rest !! k = Some v →
  ∃ (cache_k : vehiclePositionCache) (c : cachedPos),
    (processFrom selectedVehicle vehicles index rest cache).1 !! k
      = Some (processVehicle selectedVehicle vehicles (index + k) v cache_k).1
    ∧ settled selectedVehicle
        (processFrom selectedVehicle vehicles index rest cache).2 (index + k) v c
    ∧ (c_lat c, c_lon c)
      = (position selectedVehicle vehicles (index + k) v cache_k).1.
Proof.
  revert index cache k.
  induction rest as [|w rest IH]; intros index cache k Hd Hk; [done |].
  rewrite processFrom_cons. cbv zeta. cbn [fst snd].
  destruct k as [|k].
  - simpl in Hk. injection Hk as ->. rewrite Nat.add_0_r.
    destruct (position_settles cache index v) as (c & [Hc Huse] & Hpos).
    exists cache, c. split; [done |]. split; [| done].
    split; [| done].
    rewrite processFrom_frame.
    + by destruct (processVehicle_position selectedVehicle vehicles index v cache)
        as (_ & _ & ->).
    + intros j u Hu Heq.
      apply (Hd (S j) 0%nat u v ltac:(lia) Hu eq_refl).
      by rewrite Nat.add_succ_r, Nat.add_0_r.
  - simpl in Hk. rewrite Nat.add_succ_r.
    apply (IH (S index) _ k (distinctFrom_tail _ _ _ Hd) Hk).
Qed.

(** A pass over vehicles that are all settled changes nothing in the cache
    and processes each vehicle on that cache. *)
Lemma processFrom_fixed (rest : list vehicle) (index : nat)
    (cache : vehiclePositionCache) :
  (∀ k v, rest !! k = Some v →
          ∃ c, settled selectedVehicle cache (index + k) v c) →
  (processFrom selectedVehicle vehicles index rest cache).2 = cache
  ∧ ∀ k v, rest !! k = Some v →
      (processFrom selectedVehicle vehicles index rest cache).1 !! k
      = Some (processVehicle selectedVehicle vehicles (index + k) v cache).1.
Proof.
  revert index. induction rest as [|w rest IH]; intros index Hall; [done |].
  rewrite processFrom_cons. cbv zeta. cbn [fst snd].
  destruct (Hall 0%nat w eq_refl) as [c Hc]. rewrite Nat.add_0_r in Hc.
  assert ((processVehicle selectedVehicle vehicles index w cache).2 = cache) as Hw.
  { destruct (processVehicle_position selectedVehicle vehicles index w cache)
      as (_ & _ & ->).
    by rewrite (position_settled cache index w c Hc). }
  rewrite Hw.
  destruct (IH (S index)) as [Hcache Hlook].
  { intros k v Hk. specialize (Hall (S k) v Hk).
    by rewrite Nat.add_succ_r in Hall. }
  split; [done |].
  intros [|k] v Hk.
  - simpl in Hk. injection Hk as ->. by rewrite Nat.add_0_r.
  - simpl in Hk. rewrite Nat.add_succ_r. by apply Hlook.
Qed.

End Settling.

(** ** X1-X3: what a pass produces *)

Section PassResults.

Import JS Processing Pass.

Variable selectedVehicle : option vehicle.
Variable vehicles : list vehicle.

Lemma processVehicle_fields (index : nat) (v : vehicle) (cache : vehiclePositionCache) :
  let d := (processVehicle selectedVehicle vehicles index v cache).1 in
  p_rest d = v ∧ p_vehicleId d = vehicleId v ∧ vehicleIndex d = index
  ∧ p_lat d = currentLat d ∧ p_lon d = currentLon d
  ∧ p_hasRealPosition d = Some (bool_decide (hasRealPosition v = Some true)).
Proof.
  unfold processVehicle.
  by destruct (position selectedVehicle vehicles index v cache) as [[la lo] c].
Qed.

(** Counting display vehicles by a test that only reads fields copied from
    the input counts the input vehicles. *)
Lemma processFrom_filter_length (f : displayVehicle → bool) (g : vehicle → bool)
    (rest : list vehicle) (index : nat) (cache : vehiclePositionCache) :
  (∀ i v c, f (processVehicle selectedVehicle vehicles i v c).1 = g v) →
  length (List.filter f (processFrom selectedVehicle vehicles index rest cache).1)
  = length (List.filter g rest).
Proof.
  intros Hfg. revert index cache.
  induction rest as [|w rest IH]; intros index cache; [done |].
  rewrite processFrom_cons. cbv zeta. cbn [fst]. simpl.
  rewrite Hfg. destruct (g w); simpl; by rewrite IH.
Qed.

Lemma realCount_inputs (cache : vehiclePositionCache) :
  MapEffect.realCount (processVehicles selectedVehicle vehicles cache).1
  = length (List.filter (fun v => bool_decide (hasRealPosition v = Some true))
              vehicles).
Proof.
  unfold MapEffect.realCount, processVehicles.
  apply processFrom_filter_length. intros i v c.
  destruct (processVehicle_fields i v c) as (_ & _ & _ & _ & _ & ->).
  destruct (bool_decide (hasRealPosition v = Some true)) eqn:H.
  - by apply bool_decide_eq_true.
  - apply bool_decide_eq_false. by intros [= ?].
Qed.

Lemma filter_length_le {A : Type} (f : A → bool) (l : list A) :
  (length (List.filter f l) <= length l)%nat.
Proof. induction l as [|a l IH]; simpl; [done |]. destruct (f a); simpl; lia. Qed.

End PassResults.

(** X1. A second pass over the same list, with the same selection, on the
    cache the first pass left, gives the same display vehicles and leaves the
    cache as it is, when no two vehicles of the list have the same id: a
    refetch of unchanged data moves no marker. *)
Theorem pass_idempotent (selectedVehicle : option vehicle)
    (vehicles : list vehicle) (cache : vehiclePositionCache) :
  Pass.distinctIds vehicles →
  Processing.processVehicles selectedVehicle vehicles
    (Processing.processVehicles selectedVehicle vehicles cache).2
  = Processing.processVehicles selectedVehicle vehicles cache.
Proof.
  intros Hd. unfold Processing.processVehicles.
  set (r1 := Processing.processFrom selectedVehicle vehicles 0 vehicles cache).
  assert (Hall : ∀ k v, vehicles !! k = Some v →
            ∃ cache_k c,
              r1.1 !! k = Some (Processing.processVehicle selectedVehicle vehicles
                                  k v cache_k).1
              ∧ Pass.settled selectedVehicle r1.2 k v c
              ∧ (c_lat c, c_lon c)
                = (Processing.position selectedVehicle vehicles k v cache_k).1).
  { intros k v Hk.
    apply (processFrom_settles selectedVehicle vehicles vehicles 0 cache k v Hd Hk). }
  destruct (processFrom_fixed selectedVehicle vehicles vehicles 0 r1.2)
    as [Hcache Hlook].
  { intros k v Hk. destruct (Hall k v Hk) as (_ & c & _ & Hc & _). by exists c. }
  destruct (Processing.processFrom selectedVehicle vehicles 0 vehicles r1.2)
    as [ds2 c2] eqn:Hr2.
  simpl in Hcache, Hlook. subst c2.
  destruct r1 as [ds1 c1] eqn:Hr1. simpl in *. f_equal.
  apply list_eq. intros k.
  destruct (vehicles !! k) as [v|] eqn:Hk.
  - destruct (Hall k v Hk) as (cache_k & c & -> & Hc & Hpos).
    rewrite (Hlook k v Hk). f_equal.
    apply processVehicle_same_position.
    by rewrite (position_settled selectedVehicle vehicles c1 k v c Hc).
  - pose proof (processFrom_length selectedVehicle vehicles vehicles 0 cache) as L1.
    pose proof (processFrom_length selectedVehicle vehicles vehicles 0 c1) as L2.
    fold r1 in L1. rewrite Hr1 in L1. rewrite Hr2 in L2. simpl in L1, L2.
    apply lookup_ge_None in Hk.
    rewrite !(proj2 (lookup_ge_None _ _)); [done | lia | lia].
Qed.

Lemma pass_idempotent_witness :
  Processing.processVehicles None [Samples.busA; Samples.busB]
    (Processing.processVehicles None [Samples.busA; Samples.busB] Samples.cacheA).2
  = Processing.processVehicles None [Samples.busA; Samples.busB] Samples.cacheA.
Proof.
  apply pass_idempotent.
  intros i j u w Hij Hi Hj.
  destruct i as [|[|i]], j as [|[|j]]; try done;
    injection Hi as <-; injection Hj as <-; discriminate.
Defined.

(** X2. After a pass every vehicle of the list has a cache entry; when the
    ids are distinct this entry holds the position the vehicle was displayed
    at, and the next pass will reuse it. *)
Theorem pass_caches_display (selectedVehicle : option vehicle)
    (vehicles : list vehicle) (cache : vehiclePositionCache) (k : nat)
    (v : vehicle) :
  vehicles !! k = Some v →
  let r := Processing.processVehicles selectedVehicle vehicles cache in
  ∃ d, r.1 !! k = Some d
    ∧ is_Some (r.2 !! Processing.vehicleIdOf v k)
    ∧ (Pass.distinctIds vehicles →
       ∃ c, Pass.settled selectedVehicle r.2 k v c
         ∧ (c_lat c, c_lon c) = (currentLat d, currentLon d)).
Proof.
  intros Hk r. unfold r, Processing.processVehicles.
  destruct (processFrom_lookup_any selectedVehicle vehicles vehicles 0 cache k v Hk)
    as (cache_k & Hd & Hsome).
  simpl in Hd, Hsome. eexists. split; [exact Hd |]. split; [exact Hsome |].
  intros Hdist.
  destruct (processFrom_settles selectedVehicle vehicles vehicles 0 cache k v
              Hdist Hk) as (cache_k' & c & Hd' & Hs & Hpos).
  simpl in Hd', Hs. rewrite Hd in Hd'. injection Hd' as Heq.
  exists c. split; [exact Hs |]. rewrite Heq, Hpos.
  by destruct (processVehicle_position selectedVehicle vehicles k v cache_k')
    as (-> & _).
Qed.

Lemma pass_caches_display_witness :
  let r := Processing.processVehicles None [Samples.busA; Samples.ghost] ∅ in
  ∃ d, r.1 !! 1%nat = Some d ∧ is_Some (r.2 !! "LX59ABC").
Proof.
  destruct (pass_caches_display None [Samples.busA; Samples.ghost] ∅ 1
              Samples.ghost eq_refl) as (d & Hd & Hc & _).
  exists d. split; [exact Hd | exact Hc].
Defined.

(** X3. The processed list has one display vehicle per input vehicle, in
    the same order, each carrying its input, its index and [lat], [lon] equal
    to [currentLat], [currentLon]; the number of real vehicles counted is the
    number of inputs flagged [hasRealPosition === true], whatever positions
    were assigned. *)
Theorem pass_alignment (selectedVehicle : option vehicle)
    (vehicles : list vehicle) (cache : vehiclePositionCache) :
  let r := Processing.processVehicles selectedVehicle vehicles cache in
  length r.1 = length vehicles
  ∧ (∀ k v, vehicles !! k = Some v →
       ∃ d, r.1 !! k = Some d
         ∧ p_rest d = v ∧ p_vehicleId d = vehicleId v ∧ vehicleIndex d = k
         ∧ p_lat d = currentLat d ∧ p_lon d = currentLon d)
  ∧ MapEffect.realCount r.1
    = length (List.filter (fun v => bool_decide (hasRealPosition v = Some true))
                vehicles)
  ∧ (MapEffect.realCount r.1 <= length r.1)%nat.
Proof.
  intros r. unfold r.
  assert (length (Processing.processVehicles selectedVehicle vehicles cache).1
          = length vehicles) as Hlen
    by apply processFrom_length.
  split; [exact Hlen |]. split; [| split].
  - intros k v Hk. unfold Processing.processVehicles.
    destruct (processFrom_lookup_any selectedVehicle vehicles vehicles 0 cache k v Hk)
      as (cache_k & Hd & _).
    simpl in Hd. eexists. split; [exact Hd |].
    destruct (processVehicle_fields selectedVehicle vehicles k v cache_k)
      as (H1 & H2 & H3 & H4 & H5 & _).
    done.
  - apply realCount_inputs.
  - unfold MapEffect.realCount. apply filter_length_le.
Qed.

Lemma pass_alignment_witness :
  let r := Processing.processVehicles None [Samples.busA; Samples.busB] ∅ in
  ∃ d, r.1 !! 1%nat = Some d ∧ p_rest d = Samples.busB ∧ vehicleIndex d = 1%nat.
Proof.
  destruct (pass_alignment None [Samples.busA; Samples.busB] ∅)
    as (_ & Hk & _).
  destruct (Hk 1%nat Samples.busB eq_refl) as (d & Hd & H1 & _ & H3 & _).
  exists d. split; [exact Hd |]. split; [exact H1 | exact H3].
Defined.

(** ** X4-X5: the processing effect *)

Section EffectFacts.

Import MapEffect.

Lemma filter_elem_of {A : Type} (f : A → bool) (l : list A) (x : A) :
  x ∈ List.filter f l ↔ x ∈ l ∧ f x = true.
Proof. rewrite !list_elem_of_In. apply List.filter_In. Qed.

Lemma processVehicles_fields (selectedVehicle : option vehicle)
    (vehicles : list vehicle) (cache : vehiclePositionCache) (k : nat)
    (v : vehicle) :
  vehicles !! k = Some v →
  ∃ d, (Processing.processVehicles selectedVehicle vehicles cache).1 !! k = Some d
    ∧ p_rest d = v ∧ p_vehicleId d = vehicleId v ∧ vehicleIndex d = k.
Proof.
  intros Hk. unfold Processing.processVehicles.
  destruct (processFrom_lookup_any selectedVehicle vehicles vehicles 0 cache k v Hk)
    as (cache_k & Hd & _).
  simpl in Hd. eexists. split; [exact Hd |].
  by destruct (processVehicle_fields selectedVehicle vehicles k v cache_k)
    as (H1 & H2 & H3 & _).
Qed.

Lemma vehiclesToDisplay_all (showOnlySelected : bool)
    (selectedVehicle : option vehicle) (processed : list displayVehicle) :
  showOnlySelected = false ∨ selectedVehicle = None →
  vehiclesToDisplay showOnlySelected selectedVehicle processed = processed.
Proof.
  unfold vehiclesToDisplay.
  intros [-> | ->]; [done | by destruct showOnlySelected].
Qed.

Lemma processingEffect_cons (showOnlySelected : bool)
    (selectedVehicle : option vehicle)
    (vehicleTracking initialVehicles : option (list vehicle)) (st : state) :
  vehiclesSource vehicleTracking initialVehicles ≠ [] →
  processingEffect showOnlySelected selectedVehicle vehicleTracking
    initialVehicles st
  = let r := Processing.processVehicles selectedVehicle
               (vehiclesSource vehicleTracking initialVehicles) (cache st) in
    {| cache := r.2;
       displayVehicles := vehiclesToDisplay showOnlySelected selectedVehicle r.1;
       realVehicleCount := realCount r.1 |}.
Proof.
  intros Hne. unfold processingEffect. cbv zeta.
  by destruct (vehiclesSource vehicleTracking initialVehicles).
Qed.

Lemma processingEffect_nil (showOnlySelected : bool)
    (selectedVehicle : option vehicle)
    (vehicleTracking initialVehicles : option (list vehicle)) (st : state) :
  vehiclesSource vehicleTracking initialVehicles = [] →
  processingEffect showOnlySelected selectedVehicle vehicleTracking
    initialVehicles st = st.
Proof. intros Hnil. unfold processingEffect. cbv zeta. by rewrite Hnil. Qed.

End EffectFacts.

(** X4. When all vehicles are shown (no selection, or [showOnlySelected]
    off), a refresh never clears the markers: an empty list, also an empty
    query result while [initialVehicles] are there, leaves the state as it
    is, and a list that is not empty gives exactly one marker per vehicle. *)
Theorem refresh_never_clears (showOnlySelected : bool)
    (selectedVehicle : option vehicle)
    (vehicleTracking initialVehicles : option (list vehicle))
    (st : MapEffect.state) :
  showOnlySelected = false ∨ selectedVehicle = None →
  let vehicles := MapEffect.vehiclesSource vehicleTracking initialVehicles in
  let st' := MapEffect.processingEffect showOnlySelected selectedVehicle
               vehicleTracking initialVehicles st in
  (vehicleTracking = Some [] → st' = st)
  ∧ (vehicles = [] → st' = st)
  ∧ (vehicles ≠ [] →
     length (MapEffect.displayVehicles st') = length vehicles
     ∧ (MapEffect.realVehicleCount st'
        <= length (MapEffect.displayVehicles st'))%nat)
  ∧ (MapEffect.displayVehicles st' = [] → MapEffect.displayVehicles st = []).
Proof.
  intros Hall vehicles st'.
  assert (Hempty : vehicles = [] → st' = st).
  { intros Hv. by apply processingEffect_nil. }
  assert (Hfull : vehicles ≠ [] →
            length (MapEffect.displayVehicles st') = length vehicles
            ∧ (MapEffect.realVehicleCount st'
               <= length (MapEffect.displayVehicles st'))%nat).
  { intros Hv. unfold st'. rewrite processingEffect_cons by exact Hv.
    cbv zeta. cbn [MapEffect.displayVehicles MapEffect.realVehicleCount].
    rewrite vehiclesToDisplay_all by exact Hall.
    split.
    - apply processFrom_length.
    - unfold MapEffect.realCount. apply filter_length_le. }
  split; [| split; [exact Hempty | split; [exact Hfull |]]].
  - intros ->. by apply Hempty.
  - intros Hnil. destruct (decide (vehicles = [])) as [Hv | Hv].
    + by rewrite <- (Hempty Hv).
    + destruct (Hfull Hv) as [Hlen _]. rewrite Hnil in Hlen.
      destruct vehicles; [done | discriminate].
Qed.

Lemma refresh_never_clears_witness :
  MapEffect.processingEffect false (Some Samples.busA) (Some [])
    (Some [Samples.busA; Samples.busB]) Samples2.shownState
  = Samples2.shownState
  ∧ length (MapEffect.displayVehicles
              (MapEffect.processingEffect false (Some Samples.busA)
                 (Some [Samples.busA; Samples.busB]) None Samples2.shownState))
    = 2%nat.
Proof.
  split.
  - apply (refresh_never_clears false (Some Samples.busA) (Some [])
             (Some [Samples.busA; Samples.busB]) Samples2.shownState);
      [by left | done].
  - apply (refresh_never_clears false (Some Samples.busA)
             (Some [Samples.busA; Samples.busB]) None Samples2.shownState);
      [by left | done].
Defined.

(** X5. With [showOnlySelected] and a selected vehicle, the vehicles on
    display are exactly the processed vehicles whose [vehicleId] field equals
    the selected one's, each with the index it has in the whole list, while
    the count of real vehicles is still taken over all vehicles of the list. *)
Theorem selected_only_filter (selectedVehicle : vehicle)
    (vehicleTracking initialVehicles : option (list vehicle))
    (st : MapEffect.state) :
  let vehicles := MapEffect.vehiclesSource vehicleTracking initialVehicles in
  let st' := MapEffect.processingEffect true (Some selectedVehicle)
               vehicleTracking initialVehicles st in
  vehicles ≠ [] →
  (∀ d, d ∈ MapEffect.displayVehicles st' →
        p_vehicleId d = vehicleId selectedVehicle)
  ∧ (∀ k v, vehicles !! k = Some v → vehicleId v = vehicleId selectedVehicle →
       ∃ d, d ∈ MapEffect.displayVehicles st' ∧ p_rest d = v ∧ vehicleIndex d = k)
  ∧ length (MapEffect.displayVehicles st')
    = length (List.filter
                (fun v => bool_decide (vehicleId v = vehicleId selectedVehicle))
                vehicles)
  ∧ MapEffect.realVehicleCount st'
    = length (List.filter (fun v => bool_decide (hasRealPosition v = Some true))
                vehicles).
Proof.
  intros vehicles st' Hv. unfold st'. rewrite processingEffect_cons by exact Hv.
  cbv zeta. cbn [MapEffect.displayVehicles MapEffect.realVehicleCount].
  fold vehicles. unfold MapEffect.vehiclesToDisplay.
  split; [| split; [| split]].
  - intros d Hd. apply filter_elem_of in Hd as [_ Hd].
    by apply bool_decide_eq_true in Hd.
  - intros k v Hk Hid.
    destruct (processVehicles_fields (Some selectedVehicle) vehicles
                (MapEffect.cache st) k v Hk) as (d & Hd & H1 & H2 & H3).
    exists d. split; [| done].
    apply filter_elem_of. split.
    + apply list_elem_of_lookup. by exists k.
    + apply bool_decide_eq_true. by rewrite H2.
  - unfold Processing.processVehicles.
    apply processFrom_filter_length. intros i v c.
    by destruct (processVehicle_fields (Some selectedVehicle) vehicles i v c)
      as (_ & -> & _).
  - apply realCount_inputs.
Qed.

Lemma selected_only_filter_witness :
  let st' := MapEffect.processingEffect true (Some Samples.busB)
               (Some [Samples.busA; Samples.busB]) None Samples2.shownState in
  length (MapEffect.displayVehicles st') = 1%nat
  ∧ MapEffect.realVehicleCount st' = 1%nat.
Proof.
  destruct (selected_only_filter Samples.busB
              (Some [Samples.busA; Samples.busB]) None Samples2.shownState)
    as (_ & _ & Hlen & Hreal); [done |].
  split; [exact Hlen | exact Hreal].
Defined.

(** ** X6-X7: the selected vehicle and its cache entry *)

Section SelectedEntry.

Import Processing Pass.

Variable selectedVehicle : option vehicle.
Variable vehicles : list vehicle.

(** The entry of the selected id is read by the pass, never written. *)
Lemma processFrom_selected_entry (rest : list vehicle) (index : nat)
    (cache : vehiclePositionCache) (key : string) (c : cachedPos) :
  isSelected selectedVehicle key = true →
  cache !! key = Some c →
  (processFrom selectedVehicle vehicles index rest cache).2 !! key = Some c
  ∧ ∀ k v, rest !! k = Some v → vehicleIdOf v (index + k) = key →
      ∃ d, (processFrom selectedVehicle vehicles index rest cache).1 !! k = Some d
        ∧ (currentLat d, currentLon d) = (c_lat c, c_lon c).
Proof.
  intros Hsel. revert index cache.
  induction rest as [|w rest IH]; intros index cache Hc; [done |].
  rewrite processFrom_cons. cbv zeta. cbn [fst snd].
  assert (Hstep : (processVehicle selectedVehicle vehicles index w cache).2 !! key
                  = Some c).
  { destruct (decide (vehicleIdOf w index = key)) as [Heq | Hne].
    - destruct (processVehicle_position selectedVehicle vehicles index w cache)
        as (_ & _ & ->).
      rewrite (position_settled selectedVehicle vehicles cache index w c);
        [done |].
      split; [by rewrite Heq |]. intros _. by rewrite Heq, Hsel.
    - destruct (processVehicle_cache_write selectedVehicle vehicles index w cache)
        as [-> | (e & ->)]; [done |].
      by rewrite lookup_insert_ne. }
  destruct (IH (S index) _ Hstep) as [Hfinal Hlook].
  split; [exact Hfinal |].
  intros [|k] v Hk Hid.
  - simpl in Hk. injection Hk as ->. rewrite Nat.add_0_r in Hid.
    eexists. split; [done |].
    destruct (processVehicle_position selectedVehicle vehicles index v cache)
      as (-> & _).
    rewrite (position_settled selectedVehicle vehicles cache index v c);
      [done |].
    split; [by rewrite Hid |]. intros _. by rewrite Hid, Hsel.
  - simpl in Hk. rewrite Nat.add_succ_r in Hid. exact (Hlook k v Hk Hid).
Qed.

End SelectedEntry.

(** X6. A pass never moves the selected vehicle once it has a cache entry:
    whatever coordinates the list reports for it, and whatever else the list
    holds, every vehicle with the selected id is displayed at the entry, and
    the entry is still there, unchanged, after the pass. *)
Theorem selected_pinned_to_cache (selectedVehicle : option vehicle)
    (vehicles : list vehicle) (cache : vehiclePositionCache) (key : string)
    (c : cachedPos) :
  Processing.isSelected selectedVehicle key = true →
  cache !! key = Some c →
  let r := Processing.processVehicles selectedVehicle vehicles cache in
  r.2 !! key = Some c
  ∧ ∀ k v, vehicles !! k = Some v → Processing.vehicleIdOf v k = key →
      ∃ d, r.1 !! k = Some d
        ∧ (currentLat d, currentLon d) = (c_lat c, c_lon c).
Proof.
  intros Hsel Hc r.
  apply (processFrom_selected_entry selectedVehicle vehicles vehicles 0 cache
           key c Hsel Hc).
Qed.

Lemma selected_pinned_to_cache_witness :
  (Processing.processVehicles (Some Samples.busA)
     [Samples2.busAmoved; Samples.busB] Samples.cacheA).2 !! "LTZ1001"
  = Some Samples.entryA.
Proof.
  apply (selected_pinned_to_cache (Some Samples.busA)
           [Samples2.busAmoved; Samples.busB] Samples.cacheA "LTZ1001"
           Samples.entryA);
    reflexivity.
Defined.

(** X7. A position fetched for the selected vehicle survives the next
    refresh of the list: after [updateSelectedVehiclePosition] has stored the
    fetched position, the pass displays the vehicle at that position, not at
    the coordinates the list reports, and keeps the stored entry. *)
Theorem update_survives_refresh (sv : vehicle) (sel : string)
    (u : SelectedUpdate.updatedPosition) (st : SelectedUpdate.mapState)
    (vehicles : list vehicle) (k : nat) (v : vehicle) :
  vehicleId sv = Some sel →
  vehicles !! k = Some v →
  Processing.vehicleIdOf v k = sel →
  let st' := SelectedUpdate.updateSelectedVehiclePosition sel (Some u) st in
  let r := Processing.processVehicles (Some sv) vehicles
             (SelectedUpdate.cache st') in
  r.2 !! sel
  = Some (CachedPos (SelectedUpdate.u_lat u) (SelectedUpdate.u_lon u)
            (SelectedUpdate.u_lat u) (SelectedUpdate.u_lon u))
  ∧ ∃ d, r.1 !! k = Some d
      ∧ currentLat d = SelectedUpdate.u_lat u
      ∧ currentLon d = SelectedUpdate.u_lon u
      ∧ p_rest d = v.
Proof.
  intros Hsv Hk Hid st' r.
  destruct (processFrom_selected_entry (Some sv) vehicles vehicles 0
              (SelectedUpdate.cache st') sel
              (CachedPos (SelectedUpdate.u_lat u) (SelectedUpdate.u_lon u)
                 (SelectedUpdate.u_lat u) (SelectedUpdate.u_lon u)))
    as [Hfinal Hlook].
  - simpl. by apply bool_decide_eq_true.
  - simpl. unfold SelectedUpdate.updateCache. by rewrite lookup_insert_eq.
  - split; [exact Hfinal |].
    destruct (Hlook k v Hk Hid) as (d & Hd & Hpos).
    exists d. split; [exact Hd |].
    injection Hpos as Hla Hlo. split; [exact Hla | split; [exact Hlo |]].
    destruct (processVehicles_fields (Some sv) vehicles
                (SelectedUpdate.cache st') k v Hk) as (d' & Hd' & H1 & _).
    unfold Processing.processVehicles in Hd'. rewrite Hd in Hd'.
    by injection Hd' as ->.
Qed.

Lemma update_survives_refresh_witness :
  let st' := SelectedUpdate.updateSelectedVehiclePosition "LTZ1002"
               (Some Samples.updateB) Samples.stateAB in
  let r := Processing.processVehicles (Some Samples.busB)
             [Samples.busA; Samples.busB] (SelectedUpdate.cache st') in
  ∃ d, r.1 !! 1%nat = Some d
    ∧ currentLat d = SelectedUpdate.u_lat Samples.updateB
    ∧ currentLon d = SelectedUpdate.u_lon Samples.updateB.
Proof.
  destruct (update_survives_refresh Samples.busB "LTZ1002" Samples.updateB
              Samples.stateAB [Samples.busA; Samples.busB] 1 Samples.busB
              eq_refl eq_refl eq_refl) as (_ & d & Hd & Hla & Hlo & _).
  exists d. split; [exact Hd | split; [exact Hla | exact Hlo]].
Defined.

(** ** X8-X9: the modal body and the initial bounds *)

Section BoundsFacts.

Import MapEffect.

Lemma initialBounds_set (i : boundsInput) :
  initialBounds i true = (None, true).
Proof.
  unfold initialBounds. by rewrite andb_false_r.
Qed.

Lemma initialBounds_command (i : boundsInput) (flag : bool) (c : mapCommand) :
  (initialBounds i flag).1 = Some c →
  flag = false ∧ (initialBounds i flag).2 = true ∧ shown i ≠ []
  ∧ ((∃ sv d, onlySelected i = true ∧ selected i = Some sv
        ∧ d ∈ shown i ∧ p_vehicleId d = vehicleId sv
        ∧ c = SetView (currentLat d, currentLon d) 16)
     ∨ ((onlySelected i = false ∨ selected i = None)
        ∧ c = FitBounds ((fun d => (currentLat d, currentLon d)) <$> shown i) 13)).
Proof.
  unfold initialBounds.
  destruct (mapPresent i); [| done].
  destruct (bool_decide (0 < length (shown i))%nat) eqn:Hlen; [| done].
  destruct flag; [done |].
  destruct (mapReady i); [| done]. cbn [andb negb].
  apply bool_decide_eq_true in Hlen.
  assert (shown i ≠ []) as Hne by (intros E; rewrite E in Hlen; simpl in Hlen; lia).
  destruct (onlySelected i) eqn:Honly.
  - destruct (selected i) as [sv|] eqn:Hsel.
    + destruct (findSelected sv (shown i)) as [d|] eqn:Hfind; [| done].
      intros [= <-]. split; [done |]. split; [done |]. split; [done |].
      left. exists sv, d. unfold findSelected in Hfind.
      apply List.find_some in Hfind as [Hin Hd].
      apply bool_decide_eq_true in Hd.
      split; [done |]. split; [done |]. split; [| done].
      by apply list_elem_of_In.
    + intros [= <-]. split; [done |]. split; [done |]. split; [done |].
      right. split; [by right | done].
  - intros [= <-]. split; [done |]. split; [done |]. split; [done |].
    right. split; [by left | done].
Qed.

Lemma boundsRuns_set (inputs : list boundsInput) :
  boundsRuns inputs true = ([], true).
Proof.
  induction inputs as [|i rest IH]; [done |].
  cbn [boundsRuns]. cbv zeta. rewrite initialBounds_set. cbn [fst snd].
  by rewrite IH.
Qed.

End BoundsFacts.

(** X8. The three blocks of the modal body: the error block and the content
    never show together; the body is blank exactly when an error comes after
    the initial load, or when nothing is loading, nothing failed and no
    vehicle is there yet.  In particular, once the query has delivered data,
    any later error leaves the body blank: neither the message with its
    Retry button nor the map. *)
Theorem body_blank (loading error isInitialLoad : bool)
    (displayed : list displayVehicle) :
  let b := MapEffect.renderBody loading error isInitialLoad displayed in
  (MapEffect.errorShown b = true → MapEffect.contentShown b = false)
  ∧ (b = MapEffect.Body false false false
     ↔ (error = true ∧ isInitialLoad = false)
       ∨ (loading = false ∧ error = false ∧ isInitialLoad = true
          ∧ displayed = []))
  ∧ (∀ vehicleTracking : list vehicle,
       MapEffect.renderBody loading true
         (MapEffect.trackInitialLoad (Some vehicleTracking) isInitialLoad)
         displayed
       = MapEffect.Body false false false).
Proof.
  intros b. unfold b, MapEffect.renderBody, MapEffect.trackInitialLoad.
  split; [| split].
  - cbn [MapEffect.errorShown MapEffect.contentShown].
    destruct error; [| done]. intros _. by rewrite andb_false_r.
  - destruct displayed as [|d displayed].
    + destruct loading, error, isInitialLoad; cbn; split; intros H;
        try done; try discriminate; try tauto;
        destruct H as [[? ?] | (? & ? & ? & ?)]; discriminate.
    + assert (bool_decide (0 < length (d :: displayed))%nat = true) as ->
        by (apply bool_decide_eq_true; simpl; lia).
      destruct loading, error, isInitialLoad; cbn; split; intros H;
        try done; try discriminate; try tauto;
        destruct H as [[? ?] | (? & ? & ? & ?)]; discriminate.
  - intros _. by rewrite !andb_false_r.
Qed.

(** X9. However often the effect that sets the initial bounds runs, and on
    whatever it then sees, it sends the map at most one command; once
    [initialBoundsSet] is true it sends none; and the command it sends is a
    view at zoom 16 on a displayed vehicle with the selected vehicle's
    [vehicleId], or a fit, up to zoom 13, to the positions of the vehicles
    displayed at that run, of which there is at least one. *)
Theorem initial_bounds_once (inputs : list MapEffect.boundsInput)
    (initialBoundsSet : bool) :
  let r := MapEffect.boundsRuns inputs initialBoundsSet in
  (length r.1 <= 1)%nat
  ∧ (initialBoundsSet = true → r = ([], true))
  ∧ (r.1 ≠ [] → r.2 = true)
  ∧ ∀ c, c ∈ r.1 →
      ∃ i, i ∈ inputs ∧ MapEffect.shown i ≠ []
        ∧ ((∃ sv d, MapEffect.onlySelected i = true
              ∧ MapEffect.selected i = Some sv
              ∧ d ∈ MapEffect.shown i ∧ p_vehicleId d = vehicleId sv
              ∧ c = MapEffect.SetView (currentLat d, currentLon d) 16)
           ∨ ((MapEffect.onlySelected i = false ∨ MapEffect.selected i = None)
              ∧ c = MapEffect.FitBounds
                      ((fun d => (currentLat d, currentLon d))
                         <$> MapEffect.shown i) 13)).
Proof.
  intros r. unfold r. clear r.
  destruct initialBoundsSet.
  { rewrite boundsRuns_set. simpl. split; [lia |]. split; [done |].
    split; [done |]. intros c Hc. by apply elem_of_nil in Hc. }
  split; [| split; [done |]].
  - induction inputs as [|i rest IH]; [simpl; lia |].
    cbn [MapEffect.boundsRuns]. cbv zeta. cbn [fst].
    destruct (MapEffect.initialBounds i false) as [[c|] flag] eqn:Hi; cbn [fst snd].
    + destruct (initialBounds_command i false c) as (_ & Hflag & _);
        [by rewrite Hi |].
      rewrite Hi in Hflag. simpl in Hflag. subst flag.
      rewrite boundsRuns_set. simpl. lia.
    + destruct flag; [rewrite boundsRuns_set; simpl; lia | exact IH].
  - induction inputs as [|i rest IH].
    { split; [done |]. intros c Hc. by apply elem_of_nil in Hc. }
    cbn [MapEffect.boundsRuns]. cbv zeta. cbn [fst snd].
    destruct (MapEffect.initialBounds i false) as [[c|] flag] eqn:Hi; cbn [fst snd].
    + destruct (initialBounds_command i false c) as (_ & Hflag & Hne & Hc);
        [by rewrite Hi |].
      rewrite Hi in Hflag. simpl in Hflag. subst flag.
      rewrite boundsRuns_set. cbn [fst snd]. split; [done |].
      intros c' Hc'. apply list_elem_of_singleton in Hc'. subst c'.
      exists i. split; [by left |]. split; [exact Hne | exact Hc].
    + destruct flag.
      * rewrite boundsRuns_set. cbn [fst snd]. split; [done |].
        intros c Hc. by apply elem_of_nil in Hc.
      * destruct IH as [IH1 IH2]. split; [exact IH1 |].
        intros c Hc. destruct (IH2 c Hc) as (j & Hj & Hrest).
        exists j. split; [by right | exact Hrest].
Qed.

(** ** X10-X12: the dashboard *)

Section DashboardFacts.

Import JS Processing Dashboard.
Local Open Scope R_scope.

(** What the dashboard's test lets through. *)
Lemma missingPosition_false (v : vehicle) :
  missingPosition v = false ↔
  ∃ la lo, lat v = Some la ∧ lon v = Some lo ∧ lo ≠ 0 ∧ 0.1 <= Rabs la.
Proof.
  unfold missingPosition, truthyNum, toNumber. split.
  - destruct (lat v) as [la|]; [| done]. destruct (lon v) as [lo|];
      [| by rewrite orb_true_r].
    simpl. rewrite !orb_false_iff, !negb_false_iff, !bool_decide_eq_true,
      bool_decide_eq_false.
    intros [[_ Hlo] Hla]. exists la, lo. repeat split; try done. lra.
  - intros (la & lo & -> & -> & Hlo & Hla). simpl.
    rewrite !orb_false_iff, !negb_false_iff, !bool_decide_eq_true,
      bool_decide_eq_false.
    repeat split; try done; [| lra].
    intros ->. rewrite Rabs_R0 in Hla. lra.
Qed.

Lemma hasValidCoords_kept (v : vehicle) :
  hasValidCoords v = true → missingPosition v = false.
Proof.
  intros Hv. apply hasValidCoords_true in Hv as (la & lo & Hla & Hlo & H1 & H2).
  apply missingPosition_false. exists la, lo. repeat split; try done; [| lra].
  intros ->. rewrite Rabs_R0 in H2. lra.
Qed.

Lemma vehiclesWithPositions_lookup (vehicleTracking : list vehicle) (k : nat) :
  vehiclesWithPositions vehicleTracking !! k
  = assignPosition k <$> vehicleTracking !! k.
Proof. unfold vehiclesWithPositions. apply list_lookup_imap. Qed.

Lemma INR_lower (n m : nat) : (n <= m)%nat → IZR (Z.of_nat n) <= INR m.
Proof. intros H. rewrite <- INR_IZR_INZ. by apply le_INR. Qed.

Lemma INR_upper (n m : nat) : (m <= n)%nat → INR m <= IZR (Z.of_nat n).
Proof. intros H. rewrite <- INR_IZR_INZ. by apply le_INR. Qed.

Lemma assigned_valid (index : nat) (v : vehicle) :
  hasValidCoords
    (withPosition v (51.5074 + INR index * 0.005) (-0.1278 + INR index * 0.005))
  = true
  ↔ (index <= 5)%nat ∨ (46 <= index)%nat.
Proof.
  rewrite hasValidCoords_true. simpl.
  pose proof (pos_INR index) as Hpos. split.
  - intros (la & lo & [= <-] & [= <-] & _ & Hlo).
    destruct (le_lt_dec index 5) as [H5 | H5]; [by left |].
    destruct (le_lt_dec 46 index) as [H46 | H46]; [by right |].
    exfalso.
    assert (6 <= INR index) by (apply (INR_lower 6); lia).
    assert (INR index <= 45) by (apply (INR_upper 45); lia).
    revert Hlo. solve_R.
  - intros Hrange. eexists _, _. split; [done |]. split; [done |].
    split; [solve_R |].
    destruct Hrange as [H5 | H46].
    + assert (INR index <= 5) by (apply (INR_upper 5); lia). solve_R.
    + assert (46 <= INR index) by (apply (INR_lower 46); lia). solve_R.
Qed.

Lemma reachable_modals (st : state) :
  reachable st →
  showVehicleModal st = false
  ∧ (showAnimatedVehicleModal st = true ↔ is_Some (selectedVehicle st))
  ∧ (showJourneyModal st = false → selectedJourney st = None).
Proof.
  induction 1 as [|st e Hst (IH1 & IH2 & IH3) He].
  - split; [done |]. split; [| done]. split; [done | by intros [? ?]].
  - destruct e; simpl in *;
      try (unfold vehicleModalShown in He; rewrite IH1 in He; discriminate);
      (split; [done |];
       split;
         [first [exact IH2 | split; [done | by intros [? ?]]
                | split; [by eexists | done]]
         | first [exact IH3 | done]]).
Qed.

End DashboardFacts.

(** X10. The dashboard stores one vehicle per vehicle of the query result, in
    the same order and with the same [vehicleId]; every vehicle whose
    coordinates the map's own test accepts is stored unchanged, and a vehicle
    that is changed gets the position computed from its index. *)
Theorem dashboard_keeps_valid (vehicleTracking : list vehicle) :
  let stored := Dashboard.vehiclesWithPositions vehicleTracking in
  length stored = length vehicleTracking
  ∧ ∀ k v, vehicleTracking !! k = Some v →
      ∃ w assigned, stored !! k = Some (w, assigned)
        ∧ vehicleId w = vehicleId v
        ∧ (Processing.hasValidCoords v = true → w = v ∧ assigned = false)
        ∧ (assigned = false → w = v)
        ∧ (assigned = true →
           lat w = Some (51.5074 + INR k * 0.005)%R
           ∧ lon w = Some (-0.1278 + INR k * 0.005)%R).
Proof.
  intros stored. unfold stored. split.
  - unfold Dashboard.vehiclesWithPositions. apply length_imap.
  - intros k v Hk. rewrite vehiclesWithPositions_lookup, Hk. simpl.
    unfold Dashboard.assignPosition.
    destruct (Dashboard.missingPosition v) eqn:Hm.
    + eexists _, _. split; [done |]. split; [done |]. split; [| done].
      intros Hv. apply hasValidCoords_kept in Hv. congruence.
    + eexists _, _. split; [done |]. done.
Qed.

(** X11. A position the dashboard assigns is accepted by the map's test
    exactly for the indices up to 5 and from 46 on: for the indices 6 to 45
    the assigned longitude is within 0.1 of zero, so the map, given the
    stored vehicle, has no valid coordinates for it and places it at the
    position generated from its id, not at the assigned one. *)
Theorem assigned_position_validity (index : nat) (v : vehicle)
    (selectedVehicle : option vehicle) (vehicles : list vehicle) :
  Dashboard.missingPosition v = true →
  let w := (Dashboard.assignPosition index v).1 in
  (Processing.hasValidCoords w = true ↔ (index <= 5)%nat ∨ (46 <= index)%nat)
  ∧ ((6 <= index <= 45)%nat →
     (Processing.position selectedVehicle vehicles index w ∅).1
     = Processing.generated
         (Hash.hashOf (Processing.vehicleIdOf v index)) index).
Proof.
  intros Hm w. unfold w, Dashboard.assignPosition. rewrite Hm. cbn [fst].
  split; [apply assigned_valid |].
  intros Hrange.
  rewrite position_generated; [done | | apply lookup_empty].
  apply not_true_iff_false. rewrite assigned_valid. lia.
Qed.

Lemma assigned_position_validity_witness :
  (Processing.position None [] 7 (Dashboard.assignPosition 7 Samples.ghost).1 ∅).1
  = Processing.generated (Hash.hashOf "LX59ABC") 7.
Proof.
  apply (assigned_position_validity 7 Samples.ghost None []); [reflexivity | lia].
Defined.

(** X12. In every state the dashboard can reach through its handlers, the
    static vehicle modal is never on screen ([showVehicleModal] is never set
    to true), the animated map is requested exactly when a vehicle is
    selected, and no journey is kept once the journey modal is closed. *)
Theorem dashboard_modals (st : Dashboard.state) :
  Dashboard.reachable st →
  Dashboard.vehicleModalShown st = false
  ∧ (Dashboard.showAnimatedVehicleModal st = true
     ↔ is_Some (Dashboard.selectedVehicle st))
  ∧ (Dashboard.animatedModalShown st = true →
     is_Some (Dashboard.selectedVehicle st) ∧ Dashboard.allVehicles st ≠ [])
  ∧ (Dashboard.showJourneyModal st = false → Dashboard.selectedJourney st = None).
Proof.
  intros Hst. destruct (reachable_modals st Hst) as (H1 & H2 & H3).
  split; [unfold Dashboard.vehicleModalShown; by rewrite H1 |].
  split; [exact H2 |]. split; [| exact H3].
  unfold Dashboard.animatedModalShown. intros Hshown.
  apply andb_true_iff in Hshown as [Ha Hl]. split; [by apply H2 |].
  apply bool_decide_eq_true in Hl. intros E. rewrite E in Hl. simpl in Hl. lia.
Qed.

Lemma dashboard_modals_witness :
  Dashboard.vehicleModalShown
    (Dashboard.handle
       (Dashboard.handle Dashboard.initial (Dashboard.DataLoaded [Samples.busA]))
       (Dashboard.VehicleLocationClick Samples.busA)) = false.
Proof.
  apply dashboard_modals.
  apply Dashboard.reachable_step; [| reflexivity].
  apply Dashboard.reachable_step; [| reflexivity].
  apply Dashboard.reachable_initial.
Defined.

(** ** X13-X15: the vehicle modal over several polls *)

Section ModalRunsFacts.

Import JS Modal ModalRuns.
Local Open Scope R_scope.

Lemma movedFrom_same (p q : R * R) :
  Rabs (p.1 - q.1) <= 0.0001 → Rabs (p.2 - q.2) <= 0.0001 →
  movedFrom p q = false.
Proof.
  intros H1 H2. unfold movedFrom.
  rewrite !bool_decide_R_false; [done | lra | lra].
Qed.

Lemma movedFrom_refl (p : R * R) : movedFrom p p = false.
Proof. apply movedFrom_same; rewrite Rminus_diag, Rabs_R0; lra. Qed.

Lemma last_snoc_some {A : Type} (l : list A) (x : A) : last (l ++ [x]) = Some x.
Proof. by rewrite last_snoc. Qed.

(** After the updater the path ends at a point that [from] has not moved
    away from. *)
Lemma addToRoutePath_last (from : R * R) (path : list (R * R)) :
  ∃ q, last (addToRoutePath from path) = Some q ∧ movedFrom q from = false.
Proof.
  unfold addToRoutePath.
  destruct (last path) as [q|] eqn:Hlast.
  - destruct (movedFrom q from) eqn:Hm.
    + exists from. split; [apply last_snoc_some | apply movedFrom_refl].
    + by exists q.
  - exists from. split; [apply last_snoc_some | apply movedFrom_refl].
Qed.

Lemma addToRoutePath_idem (from : R * R) (path : list (R * R)) :
  addToRoutePath from (addToRoutePath from path) = addToRoutePath from path.
Proof.
  destruct (addToRoutePath_last from path) as (q & Hq & Hm).
  unfold addToRoutePath at 1. by rewrite Hq, Hm.
Qed.

Lemma addToRoutePath_cases (from : R * R) (path : list (R * R)) :
  addToRoutePath from path = path
  ∨ (addToRoutePath from path = path ++ [from]
     ∧ ∀ q, last path = Some q → movedFrom q from = true).
Proof.
  unfold addToRoutePath.
  destruct (last path) as [q|] eqn:Hlast.
  - destruct (movedFrom q from) eqn:Hm; [| by left].
    right. split; [done |]. by intros ? [= <-].
  - right. split; [done |]. done.
Qed.

Lemma spaced_snoc (path : list (R * R)) (p : R * R) :
  spaced path → (∀ q, last path = Some q → movedFrom q p = true) →
  spaced (path ++ [p]).
Proof.
  induction path as [|a path IH]; [done |].
  intros Hs Hlast. destruct path as [|b path].
  - simpl. split; [| done]. by apply Hlast.
  - destruct Hs as [Hab Hs]. change ((a :: b :: path) ++ [p])
      with (a :: (b :: path) ++ [p]).
    change (spaced (a :: (b :: path) ++ [p]))
      with (movedFrom a b = true ∧ spaced ((b :: path) ++ [p])).
    split; [done |]. apply IH; [done |]. exact Hlast.
Qed.

Lemma addToRoutePath_spaced (from : R * R) (path : list (R * R)) :
  spaced path → spaced (addToRoutePath from path).
Proof.
  intros Hs. destruct (addToRoutePath_cases from path) as [-> | [-> Hlast]];
    [done |].
  by apply spaced_snoc.
Qed.

Lemma polls_cons (prev : prevPos) (routePath : list (R * R)) (v : modalVehicle)
    (rest : list modalVehicle) :
  polls prev routePath (v :: rest)
  = let r := poll prev routePath v in
    let rs := polls r.1.2 r.2 rest in
    (r.1.1 :: rs.1.1, rs.1.2, rs.2).
Proof. done. Qed.

Lemma poll_path (prev : prevPos) (routePath : list (R * R)) (v : modalVehicle) :
  (poll prev routePath v).2 = routePath
  ∨ ∃ from, (poll prev routePath v).2 = addToRoutePath from routePath.
Proof.
  unfold poll. cbv zeta. cbn [snd].
  destruct (effect prev v).1; eauto.
Qed.

Lemma poll_animate (prev : prevPos) (routePath : list (R * R)) (v : modalVehicle) :
  shouldAnimate prev v = true →
  ∃ next, nextStopCoords v = Some next
    ∧ poll prev routePath v
      = (Animate (toNumber (prevLat prev), toNumber (prevLon prev)) next
           (timeProgress (prevTimeToStation prev) (currentTimeToStation v)),
         prev,
         addToRoutePath (toNumber (prevLat prev), toNumber (prevLon prev))
           routePath).
Proof.
  intros Hs. apply shouldAnimate_true in Hs.
  destruct (effect_animate prev v Hs) as (next & Hnext & Heff).
  exists next. split; [done |]. unfold poll. cbv zeta. by rewrite Heff.
Qed.

(** The ref a poll leaves when it does not animate. *)
Lemma effect_updated_ref (prev : prevPos) (v : modalVehicle) :
  shouldAnimate prev v = false →
  (effect prev v).2
  = {| prevLat := Some (currentLatOf v); prevLon := Some (currentLonOf v);
       prevTimeToStation := currentTimeToStation v |}.
Proof.
  intros Hs. unfold effect. cbv zeta. rewrite Hs.
  by destruct (positionChanged prev v).
Qed.

Lemma currentLatOf_nonzero (v : modalVehicle) : currentLatOf v ≠ 0.
Proof.
  unfold currentLatOf, orNum. destruct (m_lat v) as [x|]; [| lra].
  destruct (decide (x = 0)); [lra | done].
Qed.

Lemma currentLonOf_nonzero (v : modalVehicle) : currentLonOf v ≠ 0.
Proof.
  unfold currentLonOf, orNum. destruct (m_lon v) as [x|]; [| lra].
  destruct (decide (x = 0)); [lra | done].
Qed.

End ModalRunsFacts.

(** X13. The route path keeps its spacing: if consecutive points of the path
    are more than 0.0001 apart in latitude or longitude, they still are after
    any number of polls; the path only grows at its end, by at most one point
    per poll, and applying the updater twice with the same point is the same
    as applying it once. *)
Theorem route_path_spaced (prev : Modal.prevPos) (routePath : list (R * R))
    (vs : list Modal.modalVehicle) :
  ModalRuns.spaced routePath →
  let r := ModalRuns.polls prev routePath vs in
  ModalRuns.spaced r.2
  ∧ routePath `prefix_of` r.2
  ∧ (length r.2 <= length routePath + length vs)%nat
  ∧ ∀ from, ModalRuns.addToRoutePath from (ModalRuns.addToRoutePath from r.2)
            = ModalRuns.addToRoutePath from r.2.
Proof.
  intros Hs r. unfold r. clear r.
  split; [| split; [| split; [| intros from; apply addToRoutePath_idem]]].
  - revert prev routePath Hs.
    induction vs as [|v vs IH]; intros prev routePath Hs; [done |].
    rewrite polls_cons. cbv zeta. cbn [snd]. apply IH.
    destruct (poll_path prev routePath v) as [-> | (from & ->)]; [done |].
    by apply addToRoutePath_spaced.
  - revert prev routePath Hs.
    induction vs as [|v vs IH]; intros prev routePath Hs; [done |].
    rewrite polls_cons. cbv zeta. cbn [snd].
    destruct (poll_path prev routePath v) as [Hp | (from & Hp)]; rewrite Hp.
    + by apply IH.
    + etrans; [| apply IH; by apply addToRoutePath_spaced].
      destruct (addToRoutePath_cases from routePath) as [-> | [-> _]];
        [done | by apply prefix_app_r].
  - revert prev routePath Hs.
    induction vs as [|v vs IH]; intros prev routePath Hs; [simpl; lia |].
    rewrite polls_cons. cbv zeta. cbn [snd length].
    destruct (poll_path prev routePath v) as [Hp | (from & Hp)]; rewrite Hp.
    + specialize (IH (ModalRuns.poll prev routePath v).1.2 routePath Hs).
      apply (Nat.le_trans _ _ _ IH). lia.
    + specialize (IH (ModalRuns.poll prev routePath v).1.2
                    (ModalRuns.addToRoutePath from routePath)
                    (addToRoutePath_spaced from routePath Hs)).
      apply (Nat.le_trans _ _ _ IH).
      destruct (addToRoutePath_cases from routePath) as [E | [E _]];
        rewrite E; [lia |].
      rewrite length_app. simpl. lia.
Qed.

Lemma route_path_spaced_witness :
  ModalRuns.spaced
    (ModalRuns.polls Samples.prevStop [(51.49, -0.1)%R]
       [Samples.closer; Samples.moved; Samples.closer]).2.
Proof.
  apply (route_path_spaced Samples.prevStop [(51.49, -0.1)%R]
           [Samples.closer; Samples.moved; Samples.closer]).
  exact I.
Defined.

(** X14. While polls keep meeting the animation guard, the ref is not
    advanced: the animation branch returns before the ref is written, so every
    one of these polls animates from the same stored position and measures
    its progress from the same stored [timeToStation], and the route path
    gets that position at most once. *)
Theorem animations_keep_ref (prev : Modal.prevPos) (routePath : list (R * R))
    (vs : list Modal.modalVehicle) :
  (∀ v, v ∈ vs → Modal.shouldAnimate prev v = true) →
  let from := (JS.toNumber (Modal.prevLat prev), JS.toNumber (Modal.prevLon prev)) in
  let r := ModalRuns.polls prev routePath vs in
  r.1.2 = prev
  ∧ r.2 = match vs with
          | [] => routePath
          | _ :: _ => ModalRuns.addToRoutePath from routePath
          end
  ∧ length r.1.1 = length vs
  ∧ ∀ k v, vs !! k = Some v →
      ∃ next, Modal.nextStopCoords v = Some next
        ∧ r.1.1 !! k
          = Some (Modal.Animate from next
                    (Modal.timeProgress (Modal.prevTimeToStation prev)
                       (Modal.currentTimeToStation v))).
Proof.
  intros Hall from r. unfold r. clear r.
  assert (Hgen : ∀ path,
            (ModalRuns.polls prev path vs).1.2 = prev
            ∧ (ModalRuns.polls prev path vs).2
              = match vs with
                | [] => path
                | _ :: _ => ModalRuns.addToRoutePath from path
                end
            ∧ length (ModalRuns.polls prev path vs).1.1 = length vs
            ∧ ∀ k v, vs !! k = Some v →
                ∃ next, Modal.nextStopCoords v = Some next
                  ∧ (ModalRuns.polls prev path vs).1.1 !! k
                    = Some (Modal.Animate from next
                              (Modal.timeProgress (Modal.prevTimeToStation prev)
                                 (Modal.currentTimeToStation v)))).
  { induction vs as [|v vs IH]; intros path.
    - split; [done |]. split; [done |]. split; [done |]. by intros k v.
    - destruct (poll_animate prev path v) as (next & Hnext & Hpoll).
      { apply Hall. by left. }
      rewrite polls_cons, Hpoll. cbv zeta. cbn [fst snd]. fold from.
      destruct (IH (fun w Hw => Hall w (list_elem_of_further _ _ _ Hw))
                  (ModalRuns.addToRoutePath from path))
        as (H1 & H2 & H3 & H4).
      split; [exact H1 |]. split; [| split].
      + rewrite H2. destruct vs; [done | apply addToRoutePath_idem].
      + simpl. by rewrite H3.
      + intros [|k] w Hk.
        * simpl in Hk. injection Hk as <-. by exists next.
        * simpl in Hk. apply (H4 k w Hk). }
  apply Hgen.
Qed.

Lemma animations_keep_ref_witness :
  (ModalRuns.polls Samples.prevStop [(51.49, -0.1)%R]
     [Samples.closer; Samples.closer]).1.2 = Samples.prevStop.
Proof.
  apply (animations_keep_ref Samples.prevStop [(51.49, -0.1)%R]
           [Samples.closer; Samples.closer]).
  intros v Hv. apply list_elem_of_In in Hv.
  destruct Hv as [<- | [<- | []]];
    (apply shouldAnimate_true; split; [simpl; unfold Modal.currentTimeToStation,
       JS.orNum; simpl; destruct (decide _); lra |];
     split; [by eexists |]; split; eexists; (split; [reflexivity | lra])).
Defined.

(** X15. The first run of the effect never animates; a run that does not
    animate stores the displayed coordinates, which are never zero, and the
    current [timeToStation], so that running again on the same [vehicle]
    changes nothing, and the next poll animates exactly when its
    [timeToStation] is smaller and it has [nextStopCoords]. *)
Theorem poll_settles (prev : Modal.prevPos) (v : Modal.modalVehicle) :
  Modal.shouldAnimate prev v = false →
  let prev' := (Modal.effect prev v).2 in
  Modal.effect prev' v = (Modal.NoChange, prev')
  ∧ (∀ v', Modal.shouldAnimate prev' v' = true
           ↔ (Modal.currentTimeToStation v' < Modal.currentTimeToStation v)%R
             ∧ is_Some (Modal.nextStopCoords v'))
  ∧ Modal.shouldAnimate (Modal.initialPrev v) v = false.
Proof.
  intros Hs prev'. unfold prev'. rewrite (effect_updated_ref prev v Hs).
  split; [| split].
  - unfold Modal.effect, Modal.shouldAnimate, Modal.positionChanged. cbv zeta.
    cbn [Modal.prevLat Modal.prevLon Modal.prevTimeToStation].
    rewrite (bool_decide_R_false _ (Rlt_irrefl _)). cbn [andb].
    rewrite !bool_decide_R_false; [done | by intros H | by intros H].
  - intros v'. unfold Modal.shouldAnimate.
    cbn [Modal.prevLat Modal.prevLon Modal.prevTimeToStation JS.truthyNum].
    rewrite (bool_decide_R_true _ (currentLatOf_nonzero v)).
    rewrite (bool_decide_R_true _ (currentLonOf_nonzero v)).
    rewrite !andb_true_r, andb_true_iff, !bool_decide_eq_true. done.
  - unfold Modal.shouldAnimate, Modal.initialPrev, Modal.currentTimeToStation.
    cbn [Modal.prevTimeToStation].
    by rewrite (bool_decide_R_false _ (Rlt_irrefl _)).
Qed.

Lemma poll_settles_witness :
  Modal.effect (Modal.effect Samples.prevStop Samples.moved).2 Samples.moved
  = (Modal.NoChange, (Modal.effect Samples.prevStop Samples.moved).2).
Proof.
  apply (poll_settles Samples.prevStop Samples.moved).
  unfold Modal.shouldAnimate.
  destruct (bool_decide
              (Modal.currentTimeToStation Samples.moved
               < Modal.prevTimeToStation Samples.prevStop)%R);
    reflexivity.
Defined.

(** ** X16-X17: the LiveVehicles loop over several fetches *)

Section LiveRunsFacts.

Import LiveVehicles LiveRuns.

Lemma fetches_cons (o : fetchOutcome) (rest : list fetchOutcome) (st : state) :
  fetches (o :: rest) st = fetches rest (fetchVehicles o st).
Proof. done. Qed.

Lemma fetches_snoc (front : list fetchOutcome) (o : fetchOutcome) (st : state) :
  fetches (front ++ [o]) st = fetchVehicles o (fetches front st).
Proof. unfold fetches. by rewrite fold_left_app. Qed.

Lemma fetches_vehicles (outcomes : list fetchOutcome) (st : state) :
  vehicles (fetches outcomes st) = default (vehicles st) (lastOk outcomes).
Proof.
  revert st. induction outcomes as [|o rest IH]; intros st; [done |].
  rewrite fetches_cons, IH. simpl.
  destruct (lastOk rest) as [data|]; [done |].
  by destruct o.
Qed.

Lemma findById_id (data : list vehicle) (prev w : vehicle) :
  findById data prev = Some w → w ∈ data ∧ vehicleId w = vehicleId prev.
Proof.
  unfold findById. intros Hfind. apply List.find_some in Hfind as [Hin Hid].
  apply bool_decide_eq_true in Hid. split; [by apply list_elem_of_In | done].
Qed.

Lemma fetches_selected (outcomes : list fetchOutcome) (st : state) :
  match selectedVehicle st with
  | None => selectedVehicle (fetches outcomes st) = None
  | Some sel =>
      ∃ sel', selectedVehicle (fetches outcomes st) = Some sel'
        ∧ vehicleId sel' = vehicleId sel
        ∧ (sel' = sel ∨ ∃ data, Ok data ∈ outcomes ∧ sel' ∈ data)
  end.
Proof.
  revert st. induction outcomes as [|o rest IH]; intros st.
  { change (fetches [] st) with st.
    destruct (selectedVehicle st) as [sel|]; [| done]. exists sel. eauto. }
  rewrite fetches_cons. specialize (IH (fetchVehicles o st)).
  destruct (selectedVehicle st) as [sel|] eqn:Hsel.
  - assert (∃ s1, selectedVehicle (fetchVehicles o st) = Some s1
              ∧ vehicleId s1 = vehicleId sel
              ∧ (s1 = sel ∨ ∃ data, o = Ok data ∧ s1 ∈ data))
      as (s1 & Hs1 & Hid1 & Hfrom1).
    { destruct o as [m | | data]; simpl; rewrite Hsel; simpl;
        [exists sel; eauto | exists sel; eauto |].
      destruct (findById data sel) as [w|] eqn:Hfind; simpl.
      - apply findById_id in Hfind as [Hin Hid]. exists w. eauto 6.
      - exists sel. eauto. }
    rewrite Hs1 in IH. destruct IH as (sel' & Hsel' & Hid' & Hfrom').
    exists sel'. split; [done |]. split; [congruence |].
    destruct Hfrom' as [-> | (data & Hdata & Hin)].
    + destruct Hfrom1 as [-> | (data & -> & Hin)]; [by left |].
      right. exists data. split; [by left | done].
    + right. exists data. split; [by right | done].
  - assert (selectedVehicle (fetchVehicles o st) = None) as Hnone
      by (destruct o; simpl; by rewrite Hsel).
    by rewrite Hnone in IH.
Qed.

End LiveRunsFacts.

(** X16. After any run of fetches the list on display is the data of the
    last successful fetch of the run, or the list from before the run when
    none succeeded; the loading screen is gone after the first fetch however
    it ended; and the error screen is shown only when the last fetch failed
    and that list is empty. *)
Theorem fetches_keep_last_good (outcomes : list LiveVehicles.fetchOutcome)
    (st : LiveVehicles.state) :
  let st' := LiveRuns.fetches outcomes st in
  LiveVehicles.vehicles st'
  = default (LiveVehicles.vehicles st) (LiveRuns.lastOk outcomes)
  ∧ (outcomes ≠ [] →
     LiveVehicles.isInitialLoad st' = false
     ∧ LiveVehicles.render st' ≠ LiveVehicles.Loading
     ∧ ∀ message, LiveVehicles.render st' = LiveVehicles.ErrorScreen message →
         default (LiveVehicles.vehicles st) (LiveRuns.lastOk outcomes) = []
         ∧ ∃ o, last outcomes = Some o ∧ ∀ data, o ≠ LiveVehicles.Ok data).
Proof.
  intros st'. unfold st'. clear st'.
  split; [apply fetches_vehicles |].
  intros Hne.
  destruct outcomes as [|o front _] using rev_ind; [done |].
  assert (LiveVehicles.isInitialLoad (LiveRuns.fetches (front ++ [o]) st) = false)
    as Hload by (by rewrite fetches_snoc).
  split; [exact Hload |].
  unfold LiveVehicles.render. rewrite Hload.
  split; [by case_match |].
  intros message Hscreen.
  destruct (JS.truthyStr (LiveVehicles.error (LiveRuns.fetches (front ++ [o]) st))
            && bool_decide
                 (LiveVehicles.vehicles (LiveRuns.fetches (front ++ [o]) st) = []))
    eqn:Hguard; [| done].
  apply andb_true_iff in Hguard as [Herr Hempty].
  apply bool_decide_eq_true in Hempty. rewrite fetches_vehicles in Hempty.
  split; [exact Hempty |].
  exists o. split; [by rewrite last_snoc |].
  intros data ->. rewrite fetches_snoc in Herr. done.
Qed.

(** X17. A run of fetches never opens the modal and never closes it, and the
    vehicle in the modal keeps its [vehicleId]: it is the vehicle selected
    before the run, or a vehicle of the data of one of the successful
    fetches with the same [vehicleId]. *)
Theorem fetches_keep_selection (outcomes : list LiveVehicles.fetchOutcome)
    (st : LiveVehicles.state) :
  let st' := LiveRuns.fetches outcomes st in
  (LiveVehicles.selectedVehicle st = None ↔ LiveVehicles.selectedVehicle st' = None)
  ∧ ∀ sel, LiveVehicles.selectedVehicle st = Some sel →
      ∃ sel', LiveVehicles.selectedVehicle st' = Some sel'
        ∧ vehicleId sel' = vehicleId sel
        ∧ (sel' = sel
           ∨ ∃ data, LiveVehicles.Ok data ∈ outcomes ∧ sel' ∈ data).
Proof.
  intros st'. unfold st'. clear st'.
  pose proof (fetches_selected outcomes st) as H.
  destruct (LiveVehicles.selectedVehicle st) as [sel|].
  - destruct H as (sel' & Hsel' & Hrest). split.
    + rewrite Hsel'. split; discriminate.
    + intros ? [= <-]. by exists sel'.
  - split; [done | discriminate].
Qed.

(** ** X18: grouping by area *)

Section AreasFacts.

Import Areas.

Context {A : Type} (routeArea : A → option string).




Lemma get_keys (k : string) (groups : list (string * list A)) :
  get k groups = None ↔ k ∉ groups.*1.
Proof.
  induction groups as [|[k' l] groups IH]; simpl.
  - split; [intros _; apply not_elem_of_nil | done].
  - destruct (decide (k' = k)) as [-> | Hne].
    + split; [done |]. intros Hn. exfalso. apply Hn. by left.
    + rewrite IH, not_elem_of_cons. split; [by intros Hn | by intros [_ Hn]].
Qed.









End AreasFacts.

Example arrayIndex_samples :
  Areas.arrayIndex <$> ["0"; "12"; "012"; "4294967294"; "4294967295"; "1a"; "";
                        "Camden"]
  = [Some 0%N; Some 12%N; None; Some 4294967294%N; None; None; None; None].
Proof. reflexivity. Qed.

Example vehiclesByArea_samples :
  Areas.vehiclesByArea Datatypes.id
    [Some "Camden"; None; Some "Soho"; Some "Camden"; Some ""]
  = Some [("Camden", [Some "Camden"; Some "Camden"]);
          ("Unknown Area", [None; Some ""]);
          ("Soho", [Some "Soho"])]
  ∧ Areas.vehiclesByArea Datatypes.id [Some "Camden"; Some "constructor"] = None
  ∧ Areas.entries [("Camden", [1%nat]); ("12", [2%nat]); ("3", [3%nat])]
    = [("3", [3%nat]); ("12", [2%nat]); ("Camden", [1%nat])].
Proof. split; [| split]; reflexivity. Qed.


(** ** X19: the hash *)

Lemma round_bound_units (hash c : Z) :
  CodeUnits.codeUnit c →
  Z.abs (Hash.round hash c) <= Z.abs hash + (2 ^ 31 + 65535).
Proof.
  intros Hc. unfold CodeUnits.codeUnit in Hc. unfold Hash.round, Hash.shl5.
  pose proof (toInt32_range (Z.shiftl (Hash.toInt32 hash) 5)). lia.
Qed.

Lemma fold_round_bound_units (units : list Z) (hash : Z) :
  Forall CodeUnits.codeUnit units →
  Z.abs (fold_left Hash.round units hash)
  <= Z.abs hash + Z.of_nat (length units) * (2 ^ 31 + 65535).
Proof.
  revert hash. induction units as [|c units IH]; intros hash Hall; simpl.
  - lia.
  - apply Forall_cons in Hall as [Hc Hall].
    pose proof (IH (Hash.round hash c) Hall).
    pose proof (round_bound_units hash c Hc). lia.
Qed.

Lemma charCodes_units (s : string) : Forall CodeUnits.codeUnit (Hash.charCodes s).
Proof.
  unfold Hash.charCodes. apply Forall_fmap, Forall_forall. intros a _.
  unfold CodeUnits.codeUnit. simpl.
  pose proof (Ascii.nat_ascii_bounded a). lia.
Qed.

(** X19. On the code units of any id, each between 0 and 65535 as
    [charCodeAt] gives them, the hash is never negative and is at most
    (2^31 + 65535) times the number of code units, so that for ids of up to
    500000 code units the hash and seven times the hash stay below [2^53],
    where the number arithmetic of the loop is exact; the four remainders
    taken from it are therefore never negative.  The hash of an id made of
    one-byte characters is this hash on its character codes. *)
Theorem hash_range (units : list Z) :
  Forall CodeUnits.codeUnit units →
  let hash := CodeUnits.hashOfUnits units in
  0 <= hash <= Z.of_nat (length units) * (2 ^ 31 + 65535)
  ∧ (Z.of_nat (length units) <= 500000 → hash * 7 < 2 ^ 53)
  ∧ 0 <= Hash.jsrem hash 360 < 360
  ∧ 0 <= Hash.jsrem hash 100 < 100
  ∧ 0 <= Hash.jsrem hash 1000 < 1000
  ∧ 0 <= Hash.jsrem (hash * 7) 1000 < 1000
  ∧ ∀ s : string,
      Hash.hashOf s = CodeUnits.hashOfUnits (Hash.charCodes s)
      ∧ Forall CodeUnits.codeUnit (Hash.charCodes s).
Proof.
  intros Hunits hash.
  assert (H0 : 0 <= hash) by (unfold hash, CodeUnits.hashOfUnits; lia).
  pose proof (fold_round_bound_units units 0 Hunits) as H1.
  fold (CodeUnits.hashOfUnits units) in H1. fold hash in H1.
  split; [lia |]. split; [intros Hlen; lia |].
  split; [apply jsrem_range; lia |]. split; [apply jsrem_range; lia |].
  split; [apply jsrem_range; lia |]. split; [apply jsrem_range; lia |].
  intros s. split; [reflexivity | apply charCodes_units].
Qed.

Lemma hash_range_witness :
  0 <= CodeUnits.hashOfUnits [76; 8364; 49] <= 3 * (2 ^ 31 + 65535).
Proof.
  apply (hash_range [76; 8364; 49]).
  repeat constructor; unfold CodeUnits.codeUnit; lia.
Defined.

(** ** X20-X21: the selected vehicle from the update to the view *)

Section SelectedView.

Lemma find_filter {A : Type} (f : A → bool) (l : list A) :
  List.find f (List.filter f l) = List.find f l.
Proof.
  induction l as [|a l IH]; [done |]. simpl.
  destruct (f a) eqn:Ha; [| done]. simpl. by rewrite Ha.
Qed.

Lemma find_first {A : Type} (f : A → bool) (l : list A) (k : nat) (x : A) :
  l !! k = Some x → f x = true →
  (∀ j y, (j < k)%nat → l !! j = Some y → f y = false) →
  List.find f l = Some x.
Proof.
  revert k. induction l as [|a l IH]; intros k Hk Hx Hbefore; [done |].
  destruct k as [|k]; simpl in *.
  - injection Hk as ->. by rewrite Hx.
  - rewrite (Hbefore 0%nat a ltac:(lia) eq_refl).
    apply (IH k Hk Hx). intros j y Hj Hy.
    apply (Hbefore (S j) y ltac:(lia) Hy).
Qed.

Lemma vehicleIdOf_some (v : vehicle) (index : nat) (sel : string) :
  sel ≠ "" → vehicleId v = Some sel → Processing.vehicleIdOf v index = sel.
Proof.
  intros Hne Hid. unfold Processing.vehicleIdOf, JS.orStr. rewrite Hid.
  by rewrite decide_False.
Qed.

Lemma updateDisplay_none (sel : string) (u : SelectedUpdate.updatedPosition)
    (ds : list displayVehicle) :
  (∀ d, d ∈ ds → p_vehicleId d ≠ Some sel) →
  SelectedUpdate.updateDisplay sel u ds = ds.
Proof.
  intros Hnone. unfold SelectedUpdate.updateDisplay.
  induction ds as [|d ds IH]; [done |].
  rewrite fmap_cons. rewrite IH.
  - rewrite bool_decide_eq_false_2; [done |]. apply Hnone. by left.
  - intros d' Hd'. apply Hnone. by right.
Qed.

(** An update that carries the selected id maps the display vehicle that
    [find] returns. *)
Lemma findSelected_update (sv : vehicle) (sel : string)
    (u : SelectedUpdate.updatedPosition) (ds : list displayVehicle) :
  vehicleId sv = Some sel → SelectedUpdate.u_vehicleId u = Some sel →
  MapEffect.findSelected sv (SelectedUpdate.updateDisplay sel u ds)
  = (fun d => SelectedUpdate.merge d u) <$> MapEffect.findSelected sv ds.
Proof.
  intros Hsv Hu. unfold MapEffect.findSelected, SelectedUpdate.updateDisplay.
  rewrite Hsv. induction ds as [|d ds IH]; [done |].
  rewrite fmap_cons. cbn [List.find].
  destruct (bool_decide (p_vehicleId d = Some sel)) eqn:Hd.
  - cbn [SelectedUpdate.merge p_vehicleId]. by rewrite Hu, bool_decide_eq_true_2.
  - rewrite Hd. exact IH.
Qed.

Lemma findSelected_updates (sv : vehicle) (sel : string)
    (us : list SelectedUpdate.updatedPosition) (ds : list displayVehicle)
    (d : displayVehicle) :
  vehicleId sv = Some sel →
  (∀ u, u ∈ us → SelectedUpdate.u_vehicleId u = Some sel) →
  MapEffect.findSelected sv ds = Some d →
  ∃ d', MapEffect.findSelected sv
          (fold_left (fun ds u => SelectedUpdate.updateDisplay sel u ds) us ds)
        = Some d'
    ∧ (currentLat d', currentLon d')
      = match last us with
        | Some u => (SelectedUpdate.u_lat u, SelectedUpdate.u_lon u)
        | None => (currentLat d, currentLon d)
        end.
Proof.
  intros Hsv. revert ds d. induction us as [|u us IH]; intros ds d Hus Hfind.
  - by exists d.
  - cbn [fold_left].
    destruct (IH (SelectedUpdate.updateDisplay sel u ds) (SelectedUpdate.merge d u))
      as (d' & Hd' & Hpos).
    + intros u' Hu'. apply Hus. by right.
    + rewrite (findSelected_update sv sel u ds Hsv); [by rewrite Hfind |].
      apply Hus. by left.
    + exists d'. split; [exact Hd' |]. rewrite Hpos.
      destruct us as [|u' us]; [done |].
      change (last (u :: u' :: us)) with (last (u' :: us)).
      by destruct (last (u' :: us)) eqn:Hlast;
        [| apply last_None in Hlast].
Qed.

(** The entry of the selected id is created from the real coordinates of
    the first vehicle with that id, and kept. *)
Lemma processFrom_selected_created (selectedVehicle : option vehicle)
    (vehicles rest : list vehicle) (index : nat) (cache : vehiclePositionCache)
    (key : string) (k : nat) (v : vehicle) (la lo : R) :
  rest !! k = Some v →
  (∀ j w, (j < k)%nat → rest !! j = Some w →
          Processing.vehicleIdOf w (index + j) ≠ key) →
  Processing.vehicleIdOf v (index + k) = key →
  Processing.isSelected selectedVehicle key = true →
  cache !! key = None →
  Processing.hasValidCoords v = true → lat v = Some la → lon v = Some lo →
  (Processing.processFrom selectedVehicle vehicles index rest cache).2 !! key
  = Some (CachedPos la lo la lo).
Proof.
  intros Hk Hfresh Hid Hsel Hnone Hvalid Hla Hlo.
  revert index cache k Hk Hfresh Hid Hnone.
  induction rest as [|w rest IH]; intros index cache k Hk Hfresh Hid Hnone;
    [done |].
  rewrite processFrom_cons. cbv zeta. cbn [snd].
  destruct k as [|k].
  - simpl in Hk. injection Hk as ->. rewrite Nat.add_0_r in Hid.
    apply processFrom_selected_entry; [exact Hsel |].
    destruct (processVehicle_position selectedVehicle vehicles index v cache)
      as (_ & _ & ->).
    rewrite (position_selected_first selectedVehicle vehicles index v cache la lo);
      try done; [| by rewrite Hid | by rewrite Hid].
    simpl. by rewrite Hid, lookup_insert_eq.
  - simpl in Hk. apply (IH (S index) _ k Hk).
    + intros j u Hj Hu. specialize (Hfresh (S j) u ltac:(lia) Hu).
      by rewrite Nat.add_succ_r in Hfresh.
    + by rewrite Nat.add_succ_r in Hid.
    + specialize (Hfresh 0%nat w ltac:(lia) eq_refl). rewrite Nat.add_0_r in Hfresh.
      destruct (processVehicle_cache_write selectedVehicle vehicles index w cache)
        as [-> | (e & ->)]; [done |].
      by rewrite lookup_insert_ne.
Qed.

End SelectedView.

(** X20. After an update of the selected vehicle, its cache entry and every
    display vehicle that had the selected id agree on the fetched position;
    the display vehicle keeps its index and [id] but takes the [vehicleId] of
    the response.  When the response carries the selected id the update is
    idempotent; when it carries another one, no display vehicle has the
    selected id afterwards and later updates only change the cache. *)
Theorem update_matches_cache (sel : string)
    (u : SelectedUpdate.updatedPosition) (st : SelectedUpdate.mapState) :
  let st' := SelectedUpdate.updateSelectedVehiclePosition sel (Some u) st in
  (∀ k d, SelectedUpdate.displayVehicles st !! k = Some d →
     p_vehicleId d = Some sel →
     ∃ d', SelectedUpdate.displayVehicles st' !! k = Some d'
       ∧ SelectedUpdate.cache st' !! sel
         = Some (CachedPos (currentLat d') (currentLon d') (p_lat d') (p_lon d'))
       ∧ p_vehicleId d' = SelectedUpdate.u_vehicleId u
       ∧ vehicleIndex d' = vehicleIndex d ∧ p_id d' = p_id d)
  ∧ (SelectedUpdate.u_vehicleId u = Some sel →
     SelectedUpdate.updateSelectedVehiclePosition sel (Some u) st' = st')
  ∧ (SelectedUpdate.u_vehicleId u ≠ Some sel →
     ∀ u2, SelectedUpdate.displayVehicles
             (SelectedUpdate.updateSelectedVehiclePosition sel (Some u2) st')
           = SelectedUpdate.displayVehicles st').
Proof.
  intros st'. unfold st'. clear st'. cbn [SelectedUpdate.updateSelectedVehiclePosition
    SelectedUpdate.cache SelectedUpdate.displayVehicles].
  split; [| split].
  - intros k d Hd Hid. rewrite updateDisplay_lookup, Hd. simpl.
    rewrite bool_decide_eq_true_2 by done.
    eexists. split; [done |]. unfold SelectedUpdate.updateCache.
    rewrite lookup_insert_eq. done.
  - intros Hu. f_equal.
    + unfold SelectedUpdate.updateCache. apply insert_insert_eq.
    + unfold SelectedUpdate.updateDisplay. rewrite <- list_fmap_compose.
      apply list_fmap_ext. intros i d _. simpl.
      destruct (bool_decide (p_vehicleId d = Some sel)) eqn:Hd; [| by rewrite Hd].
      simpl. by rewrite bool_decide_eq_true_2.
  - intros Hu u2. apply updateDisplay_none.
    intros d' Hd'. unfold SelectedUpdate.updateDisplay in Hd'.
    apply list_elem_of_fmap in Hd' as (d & -> & _).
    destruct (bool_decide (p_vehicleId d = Some sel)) eqn:Hd; [done |].
    by apply bool_decide_eq_false in Hd.
Qed.

(** X21. From the mount to the initial view: when the map mounts with
    [showOnlySelected] and a selected vehicle whose id is not empty, and the
    first vehicle of the list with that id reports valid coordinates, then
    the processing effect displays it at exactly these coordinates, with no
    offset, and caches them.  When the effect that sets the initial bounds
    then runs, after any number of updates of the selected vehicle that
    carry its id, the command this effect sends is a view at zoom 16 on the
    position the vehicle is displayed at by then: the reported coordinates
    when no update has arrived, the last fetched position otherwise. *)
Theorem mount_views_selected (sv : vehicle) (sel : string)
    (vehicleTracking initialVehicles : option (list vehicle))
    (k : nat) (v : vehicle) (la lo : R)
    (us : list SelectedUpdate.updatedPosition) :
  let vehicles := MapEffect.vehiclesSource vehicleTracking initialVehicles in
  vehicleId sv = Some sel → sel ≠ "" →
  vehicles !! k = Some v → vehicleId v = Some sel →
  (∀ j w, (j < k)%nat → vehicles !! j = Some w →
          Processing.vehicleIdOf w j ≠ sel) →
  Processing.hasValidCoords v = true → lat v = Some la → lon v = Some lo →
  (∀ u, u ∈ us → SelectedUpdate.u_vehicleId u = Some sel) →
  let st := MapEffect.processingEffect true (Some sv) vehicleTracking
              initialVehicles MapEffect.mounted in
  let shown :=
    fold_left (fun ds u => SelectedUpdate.updateDisplay sel u ds) us
      (MapEffect.displayVehicles st) in
  let target :=
    match last us with
    | Some u => (SelectedUpdate.u_lat u, SelectedUpdate.u_lon u)
    | None => (la, lo)
    end in
  (∃ d, MapEffect.findSelected sv (MapEffect.displayVehicles st) = Some d
     ∧ p_rest d = v ∧ (currentLat d, currentLon d) = (la, lo))
  ∧ MapEffect.cache st !! sel = Some (CachedPos la lo la lo)
  ∧ (∃ d, MapEffect.findSelected sv shown = Some d
       ∧ (currentLat d, currentLon d) = target)
  ∧ MapEffect.initialBounds
      {| MapEffect.mapPresent := true; MapEffect.mapReady := true;
         MapEffect.shown := shown;
         MapEffect.onlySelected := true; MapEffect.selected := Some sv |} false
    = (Some (MapEffect.SetView target 16), true).
Proof.
  intros vehicles Hsv Hsel Hk Hid Hfresh Hvalid Hla Hlo Hus st shown target.
  assert (Hne : vehicles ≠ []) by (intros E; by rewrite E in Hk).
  assert (Hvid : Processing.vehicleIdOf v k = sel) by by apply vehicleIdOf_some.
  assert (Hselected : Processing.isSelected (Some sv) (Processing.vehicleIdOf v k)
                      = true).
  { simpl. apply bool_decide_eq_true. by rewrite Hvid. }
  unfold shown, st. rewrite processingEffect_cons by exact Hne. cbv zeta.
  cbn [MapEffect.displayVehicles MapEffect.cache MapEffect.mounted].
  fold vehicles.
  set (r := Processing.processVehicles (Some sv) vehicles ∅).
  destruct (processFrom_lookup (Some sv) vehicles vehicles 0 ∅ k v Hk)
    as (cache_k & Hd & Hcache_k).
  { intros j w Hj Hw. simpl. rewrite Hvid. by apply Hfresh. }
  simpl in Hd, Hcache_k. rewrite lookup_empty in Hcache_k.
  set (d := (Processing.processVehicle (Some sv) vehicles k v cache_k).1) in *.
  assert (Hpos : (currentLat d, currentLon d) = (la, lo)).
  { unfold d.
    destruct (processVehicle_position (Some sv) vehicles k v cache_k) as (-> & _).
    by rewrite (position_selected_first (Some sv) vehicles k v cache_k la lo). }
  assert (Hrest : p_rest d = v ∧ p_vehicleId d = vehicleId v).
  { unfold d.
    by destruct (processVehicle_fields (Some sv) vehicles k v cache_k)
      as (? & ? & _). }
  destruct Hrest as [Hrest Hpid].
  assert (Hfind : MapEffect.findSelected sv
                    (MapEffect.vehiclesToDisplay true (Some sv) r.1) = Some d).
  { unfold MapEffect.findSelected, MapEffect.vehiclesToDisplay.
    rewrite find_filter. apply (find_first _ _ k); [exact Hd | |].
    - apply bool_decide_eq_true. by rewrite Hpid, Hid, Hsv.
    - intros j y Hj Hy. apply bool_decide_eq_false.
      assert (is_Some (vehicles !! j)) as [w Hw].
      { apply lookup_lt_is_Some. apply lookup_lt_Some in Hk. lia. }
      destruct (processVehicles_fields (Some sv) vehicles ∅ j w Hw)
        as (y' & Hy' & _ & Hpid' & _).
      fold r in Hy'. rewrite Hy in Hy'. injection Hy' as <-.
      rewrite Hpid', Hsv. intros Hw'.
      apply (Hfresh j w Hj Hw). by apply vehicleIdOf_some. }
  destruct (findSelected_updates sv sel us _ d Hsv Hus Hfind)
    as (d' & Hfind' & Hpos').
  assert (Htarget : (currentLat d', currentLon d') = target).
  { rewrite Hpos'. unfold target. destruct (last us); [done | exact Hpos]. }
  split; [by exists d |]. split; [| split; [by exists d' |]].
  - apply (processFrom_selected_created (Some sv) vehicles vehicles 0 ∅ sel k v
             la lo); try done.
    simpl. by apply bool_decide_eq_true.
  - unfold MapEffect.initialBounds.
    cbn [MapEffect.mapPresent MapEffect.mapReady MapEffect.shown
         MapEffect.onlySelected MapEffect.selected].
    rewrite Hfind'.
    match goal with
    | |- context [bool_decide (0 < length ?l)%nat] =>
        assert (bool_decide (0 < length l)%nat = true) as ->
    end.
    { apply bool_decide_eq_true. unfold MapEffect.findSelected in Hfind'.
      match type of Hfind' with
      | List.find _ ?l = _ => destruct l; [done | simpl; lia]
      end. }
    cbn [andb negb]. by rewrite Htarget.
Qed.

Lemma mount_views_selected_witness :
  MapEffect.initialBounds
    {| MapEffect.mapPresent := true; MapEffect.mapReady := true;
       MapEffect.shown :=
         fold_left
           (fun ds u => SelectedUpdate.updateDisplay "LTZ1001" u ds)
           [Samples2.updateA]
           (MapEffect.displayVehicles
              (MapEffect.processingEffect true (Some Samples.busA) None
                 (Some [Samples.busB; Samples.busA]) MapEffect.mounted));
       MapEffect.onlySelected := true;
       MapEffect.selected := Some Samples.busA |} false
  = (Some (MapEffect.SetView (51.501, -0.119)%R 16), true).
Proof.
  pose proof (mount_views_selected Samples.busA "LTZ1001" None
                (Some [Samples.busB; Samples.busA]) 1 Samples.busA
                51.5%R (-0.12)%R [Samples2.updateA]) as H.
  cbv zeta in H.
  destruct H as (_ & _ & _ & H); try reflexivity; try exact busA_valid;
    try done.
  - intros j w Hj Hw. destruct j as [|j]; [| lia].
    injection Hw as <-. discriminate.
  - intros u Hu. apply list_elem_of_singleton in Hu. by subst u.
Defined.

(** ** X22: how far a marker is from the reported coordinates *)

Section DisplayError.

Import JS Processing Session.
Local Open Scope R_scope.

Variable selectedVehicle : option vehicle.
Variable vehicles : list vehicle.

Lemma cacheBounded_insert (cache : vehiclePositionCache) (key : string)
    (c : cachedPos) :
  cacheBounded cache → nearBase c → cacheBounded (<[key := c]> cache).
Proof.
  intros Hb Hc key' c' Hlook.
  destruct (decide (key = key')) as [-> | Hne].
  - rewrite lookup_insert_eq in Hlook. by injection Hlook as <-.
  - rewrite lookup_insert_ne in Hlook by done. by apply (Hb key').
Qed.

Lemma Rabs_close (x b y e1 e2 : R) :
  Rabs (x - b) <= e1 → Rabs (b - y) < e2 → Rabs (x - y) < e1 + e2.
Proof. intros H1 H2. solve_R. Qed.

Lemma jitter_near (hash : Z) (index : nat) (n : Z) (la lo : R) :
  (0 <= hash)%Z →
  let p := jitter hash index (spreadMultiplier n) la lo in
  Rabs (p.1 - la) < 0.053 ∧ Rabs (p.2 - lo) < 0.053.
Proof.
  intros Hh p. unfold p, jitter. cbn [fst snd].
  pose proof (radius_bounds hash (spreadMultiplier n) Hh) as [Hr0 Hr1].
  pose proof (spreadMultiplier_positive n) as [Hm0 Hm1].
  apply IZR_le in Hm0, Hm1.
  pose proof (SIN_bound (angle hash index)) as Hs.
  pose proof (COS_bound (angle hash index)) as Hc.
  set (r := radius hash (spreadMultiplier n)) in *.
  set (sn := sin (angle hash index)) in *.
  set (cs := cos (angle hash index)) in *.
  split; apply Rabs_def1; nra.
Qed.

(** One step keeps the cache bounded, and a vehicle with valid coordinates
    that is not selected is displayed close to them. *)
Lemma position_bounded (index : nat) (v : vehicle) (cache : vehiclePositionCache) :
  cacheBounded cache →
  let r := position selectedVehicle vehicles index v cache in
  cacheBounded r.2
  ∧ ∀ la lo, hasValidCoords v = true → lat v = Some la → lon v = Some lo →
      isSelected selectedVehicle (vehicleIdOf v index) = false →
      Rabs (r.1.1 - la) < 0.096 ∧ Rabs (r.1.2 - lo) < 0.121.
Proof.
  intros Hb r. unfold r, position. cbv zeta.
  pose proof (hashOf_nonneg (vehicleIdOf v index)) as Hh.
  destruct (hasValidCoords v) eqn:Hv.
  - destruct (proj1 (hasValidCoords_true v) Hv) as (la & lo & Hla & Hlo & _).
    rewrite Hla, Hlo.
    destruct (isSelected selectedVehicle (vehicleIdOf v index)) eqn:Hsel.
    + split; [| by intros].
      destruct (cache !! vehicleIdOf v index) as [c|]; [done |].
      apply cacheBounded_insert; [done |].
      split; simpl; rewrite Rminus_diag, Rabs_R0; lra.
    + pose proof (jitter_near (Hash.hashOf (vehicleIdOf v index)) index
                    (sameCoordCount vehicles la lo) la lo Hh) as [Hj1 Hj2].
      assert (Hnew : cacheBounded
                (<[vehicleIdOf v index :=
                     CachedPos
                       (jitter (Hash.hashOf (vehicleIdOf v index)) index
                          (spreadMultiplier (sameCoordCount vehicles la lo))
                          la lo).1
                       (jitter (Hash.hashOf (vehicleIdOf v index)) index
                          (spreadMultiplier (sameCoordCount vehicles la lo))
                          la lo).2 la lo]> cache)).
      { apply cacheBounded_insert; [done |].
        unfold nearBase. cbn [c_lat c_lon c_baseLat c_baseLon]. lra. }
      destruct (cache !! vehicleIdOf v index) as [c|] eqn:Hc.
      * destruct (cacheUsable c la lo) eqn:Hu.
        -- split; [done |]. intros la' lo' _ [= <-] [= <-] _. cbn [fst snd].
           destruct (Hb _ c Hc) as [Hn1 Hn2].
           unfold cacheUsable in Hu.
           apply andb_true_iff in Hu as [Hu1 Hu2].
           apply bool_decide_eq_true in Hu1, Hu2.
           split.
           ++ pose proof (Rabs_close _ _ _ 0.095 0.001 Hn1 Hu1). lra.
           ++ pose proof (Rabs_close _ _ _ 0.12 0.001 Hn2 Hu2). lra.
        -- split; [exact Hnew |]. intros la' lo' _ [= <-] [= <-] _.
           cbn [fst snd]. lra.
      * split; [exact Hnew |]. intros la' lo' _ [= <-] [= <-] _.
        cbn [fst snd]. lra.
  - assert (Hgoal : ∀ X : (R * R) * vehiclePositionCache,
              cacheBounded X.2 →
              cacheBounded X.2
              ∧ ∀ la lo, false = true → lat v = Some la → lon v = Some lo →
                  isSelected selectedVehicle (vehicleIdOf v index) = false →
                  Rabs (X.1.1 - la) < 0.096 ∧ Rabs (X.1.2 - lo) < 0.121)
      by (intros X HX; split; [done | by intros]).
    assert (Hinv : cacheBounded
              (match cache !! vehicleIdOf v index with
               | Some c => ((c_lat c, c_lon c), cache)
               | None =>
                   (generated (Hash.hashOf (vehicleIdOf v index)) index,
                    <[vehicleIdOf v index :=
                        CachedPos
                          (generated (Hash.hashOf (vehicleIdOf v index)) index).1
                          (generated (Hash.hashOf (vehicleIdOf v index)) index).2
                          centralLat centralLon]> cache)
               end).2).
    { destruct (cache !! vehicleIdOf v index) as [c|]; [done |].
      apply cacheBounded_insert; [done |].
      destruct (generated_in_box (Hash.hashOf (vehicleIdOf v index)) index Hh)
        as [Hg1 Hg2].
      unfold nearBase. cbn [c_lat c_lon c_baseLat c_baseLon].
      unfold centralLat, centralLon. lra. }
    destruct (lat v), (lon v); by apply Hgoal.
Qed.

Lemma processFrom_bounded (rest : list vehicle) (index : nat)
    (cache : vehiclePositionCache) :
  cacheBounded cache →
  cacheBounded (processFrom selectedVehicle vehicles index rest cache).2
  ∧ ∀ k v la lo, rest !! k = Some v →
      hasValidCoords v = true → lat v = Some la → lon v = Some lo →
      isSelected selectedVehicle (vehicleIdOf v (index + k)) = false →
      ∃ d, (processFrom selectedVehicle vehicles index rest cache).1 !! k = Some d
        ∧ p_rest d = v
        ∧ Rabs (currentLat d - la) < 0.096 ∧ Rabs (currentLon d - lo) < 0.121.
Proof.
  revert index cache. induction rest as [|w rest IH]; intros index cache Hb;
    [done |].
  rewrite processFrom_cons. cbv zeta. cbn [fst snd].
  destruct (position_bounded index w cache Hb) as [Hb1 Hnear].
  destruct (processVehicle_position selectedVehicle vehicles index w cache)
    as (Hcur & _ & Hc).
  rewrite <- Hc in Hb1.
  destruct (IH (S index) _ Hb1) as [Hfinal Hlook].
  split; [exact Hfinal |].
  intros [|k] v la lo Hk Hv Hla Hlo Hsel.
  - simpl in Hk. injection Hk as ->. rewrite Nat.add_0_r in Hsel.
    eexists. split; [done |].
    split; [by destruct (processVehicle_fields selectedVehicle vehicles index v
                           cache) as (? & _) |].
    destruct (Hnear la lo Hv Hla Hlo Hsel) as [H1 H2].
    rewrite <- Hcur in H1, H2. cbn [fst snd] in H1, H2. done.
  - simpl in Hk. rewrite Nat.add_succ_r in Hsel.
    exact (Hlook k v la lo Hk Hv Hla Hlo Hsel).
Qed.

End DisplayError.

Lemma reachableCache_bounded (cache : vehiclePositionCache) :
  Session.reachableCache cache → Session.cacheBounded cache.
Proof.
  induction 1 as [| sel vehicles cache _ IH | sel u cache _ IH].
  - intros key c Hc. by rewrite lookup_empty in Hc.
  - by apply (processFrom_bounded sel vehicles vehicles 0 cache IH).
  - apply cacheBounded_insert; [done |].
    split; simpl; rewrite Rminus_diag, Rabs_R0; lra.
Qed.

(** X22. Markers stay near the reported coordinates: on any cache the map
    can hold after its mount, whatever passes and updates of the selected
    vehicle went before, a vehicle that reports valid coordinates and is not
    the selected one is displayed less than 0.096 degrees of latitude and
    0.121 degrees of longitude away from them. *)
Theorem display_near_reported (selectedVehicle : option vehicle)
    (vehicles : list vehicle) (cache : vehiclePositionCache)
    (k : nat) (v : vehicle) (la lo : R) :
  Session.reachableCache cache →
  vehicles !! k = Some v →
  Processing.hasValidCoords v = true → lat v = Some la → lon v = Some lo →
  Processing.isSelected selectedVehicle (Processing.vehicleIdOf v k) = false →
  ∃ d, (Processing.processVehicles selectedVehicle vehicles cache).1 !! k = Some d
    ∧ p_rest d = v
    ∧ (Rabs (currentLat d - la) < 0.096)%R
    ∧ (Rabs (currentLon d - lo) < 0.121)%R.
Proof.
  intros Hreach Hk Hv Hla Hlo Hsel.
  destruct (processFrom_bounded selectedVehicle vehicles vehicles 0 cache
              (reachableCache_bounded cache Hreach)) as [_ Hlook].
  exact (Hlook k v la lo Hk Hv Hla Hlo Hsel).
Qed.

Lemma display_near_reported_witness :
  ∃ d, (Processing.processVehicles None [Samples.busA; Samples.busB]
          Samples.afterSelectA.2).1 !! 1%nat = Some d
    ∧ p_rest d = Samples.busB.
Proof.
  destruct (display_near_reported None [Samples.busA; Samples.busB]
              Samples.afterSelectA.2 1 Samples.busB 51.5%R (-0.12)%R)
    as (d & Hd & Hrest & _); try reflexivity; try exact busB_valid.
  - apply Session.reachable_pass. apply Session.reachable_mount.
  - exists d. split; [exact Hd | exact Hrest].
Defined.

(** ** X23: the zoom buttons and the markers *)

Section ZoomFacts.

Import MapEffect.

Lemma processFrom_elements (selectedVehicle : option vehicle)
    (vehicles rest : list vehicle) (index : nat) (cache : vehiclePositionCache)
    (d : displayVehicle) :
  d ∈ (Processing.processFrom selectedVehicle vehicles index rest cache).1 →
  ∃ i v c, d = (Processing.processVehicle selectedVehicle vehicles i v c).1.
Proof.
  revert index cache. induction rest as [|w rest IH]; intros index cache Hd.
  - by apply elem_of_nil in Hd.
  - rewrite processFrom_cons in Hd. cbv zeta in Hd. cbn [fst] in Hd.
    apply elem_of_cons in Hd as [-> | Hd]; [by eexists _, _, _ |].
    exact (IH (S index) _ Hd).
Qed.

Lemma reachableDisplay_coords (displayed : list displayVehicle) :
  reachableDisplay displayed →
  ∀ d, d ∈ displayed → p_lat d = currentLat d ∧ p_lon d = currentLon d.
Proof.
  induction 1 as [| showOnly sel vehicles cache | sel u displayed _ IH];
    intros d Hd.
  - by apply elem_of_nil in Hd.
  - assert (d ∈ (Processing.processVehicles sel vehicles cache).1) as Hin.
    { unfold vehiclesToDisplay in Hd.
      destruct showOnly, sel; try done.
      by apply filter_elem_of in Hd as [Hd _]. }
    apply processFrom_elements in Hin as (i & v & c & ->).
    by destruct (processVehicle_fields sel vehicles i v c)
      as (_ & _ & _ & ? & ? & _).
  - unfold SelectedUpdate.updateDisplay in Hd.
    apply list_elem_of_fmap in Hd as (d0 & -> & Hd0).
    destruct (bool_decide (p_vehicleId d0 = Some sel)); [done | by apply IH].
Qed.

End ZoomFacts.

(** X23. In every list the map can display, each vehicle's [lat] and [lon]
    are its [currentLat] and [currentLon]; so the view that "zoom to
    selected" sets, which is computed from [lat] and [lon], is at zoom 16 on
    the position where the marker of a displayed vehicle with the selected
    [vehicleId] is drawn, and "zoom to all" fits exactly the marker
    positions.  "Zoom to selected" does nothing when that vehicle is not
    displayed or one of its coordinates is zero. *)
Theorem zoom_targets_markers (displayed : list displayVehicle)
    (selectedVehicle : option vehicle) :
  MapEffect.reachableDisplay displayed →
  (∀ d, d ∈ displayed → p_lat d = currentLat d ∧ p_lon d = currentLon d)
  ∧ (∀ c, MapEffect.handleZoomToSelected true selectedVehicle displayed = Some c →
       ∃ sv d, selectedVehicle = Some sv ∧ d ∈ displayed
         ∧ p_vehicleId d = vehicleId sv
         ∧ currentLat d ≠ 0%R ∧ currentLon d ≠ 0%R
         ∧ c = MapEffect.SetView (currentLat d, currentLon d) 16
         ∧ (currentLat d, currentLon d) ∈ MapEffect.markers displayed)
  ∧ ((∀ sv, selectedVehicle = Some sv →
        MapEffect.findSelected sv displayed = None) →
     MapEffect.handleZoomToSelected true selectedVehicle displayed = None)
  ∧ (displayed ≠ [] →
     MapEffect.handleZoomToAll true displayed
     = Some (MapEffect.FitBounds (MapEffect.markers displayed) 13)).
Proof.
  intros Hreach.
  pose proof (reachableDisplay_coords displayed Hreach) as Hcoords.
  split; [exact Hcoords |]. split; [| split].
  - intros c Hc. unfold MapEffect.handleZoomToSelected in Hc.
    destruct selectedVehicle as [sv|]; [| done].
    destruct (MapEffect.findSelected sv displayed) as [d|] eqn:Hfind; [| done].
    unfold MapEffect.findSelected in Hfind.
    apply List.find_some in Hfind as [Hin Hid].
    apply list_elem_of_In in Hin. apply bool_decide_eq_true in Hid.
    destruct (Hcoords d Hin) as [Hla Hlo]. rewrite Hla, Hlo in Hc.
    destruct (JS.truthyNum (Some (currentLat d))) eqn:H1; [| done].
    destruct (JS.truthyNum (Some (currentLon d))) eqn:H2; [| done].
    simpl in Hc, H1, H2. injection Hc as <-.
    apply bool_decide_eq_true in H1, H2.
    exists sv, d. repeat (split; [done |]).
    unfold MapEffect.markers. apply list_elem_of_fmap. by exists d.
  - intros Hnone. unfold MapEffect.handleZoomToSelected.
    destruct selectedVehicle as [sv|]; [| done]. by rewrite (Hnone sv eq_refl).
  - intros Hne. unfold MapEffect.handleZoomToAll.
    rewrite bool_decide_eq_true_2; [done |].
    destruct displayed; [done | simpl; lia].
Qed.

Lemma zoom_targets_markers_witness :
  MapEffect.handleZoomToAll true
    (Processing.processVehicles None [Samples.busA; Samples.busB] ∅).1
  = Some (MapEffect.FitBounds
            (MapEffect.markers
               (Processing.processVehicles None [Samples.busA; Samples.busB] ∅).1)
            13).
Proof.
  apply (zoom_targets_markers
           (Processing.processVehicles None [Samples.busA; Samples.busB] ∅).1 None).
  - apply (MapEffect.display_pass false None [Samples.busA; Samples.busB] ∅).
  - intros E. apply (f_equal length) in E.
    unfold Processing.processVehicles in E.
    rewrite processFrom_length in E. discriminate.
Defined.
